(** * d2d: the counter-pick scoring engine

    A shallow embedding of the scoring code of the draft page
    ([frontend/src/pages/DraftPage.tsx]), of its predecessor
    ([frontend_old/src/logic.ts]) and of the loaders that feed them.

    Modelling conventions.
    - A JavaScript [number] is an ideal real number ([R]): infinities
      and NaN are outside the model.  In [DraftPage] and [Logic] the
      arithmetic is exact: [Math.log], [Math.exp], [Math.max] and
      [Math.min] are [ln], [exp], [Rmax] and [Rmin].  [Rounded] is the
      scoring of the draft page with the rounding of double precision
      kept, for the properties that rounding touches; it is shown to
      follow the exact scoring within [Spec.tolerance].
    - A plain JavaScript object used as a string-keyed dictionary is an
      association list in insertion order with unique keys
      ([JsObject]); [Object.entries] and [Object.keys] enumerate it in
      that order.  Hero slugs are neither array indices (which an
      object would enumerate first) nor names of [Object.prototype]
      members, so enumeration follows insertion and a lookup sees own
      properties only.
    - [Array.prototype.sort] is stable; with the numeric comparators of
      this code it is the stable insertion sort [JsArray.sort].
    - [useMemo] bodies are pure functions of their dependencies; the
      state a component holds is passed explicitly. *)

From Stdlib Require Import Reals Lra List String Ascii Bool Arith Lia.
From Stdlib Require Import Permutation Sorted.
Import ListNotations.
Open Scope R_scope.

(** ** JavaScript objects as insertion-ordered dictionaries *)

Module JsObject.

Definition t (V : Type) : Type := list (string * V).

Definition empty {V : Type} : t V := [].

(** [o[k]]: the value stored under [k], if any. *)
Fixpoint get {V : Type} (o : t V) (k : string) : option V :=
  match o with
  | [] => None
  | (k', v) :: o' => if String.eqb k' k then Some v else get o' k
  end.

(** [o[k] = v]: overwrite in place, or append a new property. *)
Fixpoint set {V : Type} (o : t V) (k : string) (v : V) : t V :=
  match o with
  | [] => [(k, v)]
  | (k', v') :: o' =>
      if String.eqb k' k then (k, v) :: o' else (k', v') :: set o' k v
  end.

Definition entries {V : Type} (o : t V) : list (string * V) := o.

Definition keys {V : Type} (o : t V) : list string := map fst o.

(** The invariant of every object: one property per key. *)
Definition wf {V : Type} (o : t V) : Prop := NoDup (keys o).

End JsObject.

(** ** Arrays *)

Module JsArray.

Section Sort.
Context {A : Type}.
(** [cmp a b <= 0] keeps [a] before [b]; [cmp a b > 0] moves it after. *)
Variable cmp : A -> A -> R.

Fixpoint insert (x : A) (s : list A) : list A :=
  match s with
  | [] => [x]
  | y :: s' =>
      if Rle_dec (cmp x y) 0 then x :: y :: s' else y :: insert x s'
  end.

Fixpoint sort (l : list A) : list A :=
  match l with
  | [] => []
  | x :: l' => insert x (sort l')
  end.
End Sort.

(** Largest key first. *)
Definition descending {A : Type} (key : A -> R) (l : list A) : Prop :=
  StronglySorted (fun a b => key b <= key a) l.

(** [new Set(xs).has(x)] on strings. *)
Definition has (xs : list string) (x : string) : bool :=
  existsb (String.eqb x) xs.

(** [xs.includes(x)] on strings. *)
Definition includes (xs : list string) (x : string) : bool :=
  existsb (String.eqb x) xs.

End JsArray.

(** ** Strings *)

(** [String.prototype.toLowerCase] on the ASCII range, which hero slugs
    stay in. *)
Definition lowerAscii (c : ascii) : ascii :=
  let n := nat_of_ascii c in
  if andb (Nat.leb 65 n) (Nat.leb n 90) then ascii_of_nat (n + 32) else c.

Fixpoint toLowerCase (s : string) : string :=
  match s with
  | EmptyString => EmptyString
  | String c s' => String (lowerAscii c) (toLowerCase s')
  end.

(** Truthiness of a string: [Boolean(s)]. *)
Definition truthy (s : string) : bool :=
  match s with EmptyString => false | String _ _ => true end.

(** ** The draft page: frontend/src/pages/DraftPage.tsx *)

Module DraftPage.

Record Hero := mkHero { slug : string; name : string; image : string }.

(** [type EnemyPick = { hero: Hero | null; weight: number }] *)
Record EnemyPick := mkPick { pick_hero : option Hero; pick_weight : R }.

(** [type MatchupFile]: one fetched hero file. *)
Record Matchup := mkMatchup { opponent : string; m_winrate : R }.
Record MatchupFile := mkFile { f_hero : string; matchups : list Matchup }.

Definition clamp (x lo hi : R) : R := Rmax lo (Rmin hi x).

Definition pctToLogOdds (pct : R) : R :=
  let p := clamp (pct / 100) 0.005 0.995 in
  ln (p / (1 - p)).

Definition logOddsToPct (lo : R) : R :=
  let p := 1 / (1 + exp (- lo)) in
  100 * p.

(** *** Loading the matchup files of a patch *)

Definition OppMap : Type := JsObject.t R.
Definition Dataset : Type := JsObject.t OppMap.

(** What one [fetch(url).then(r => r.json())] can come to.  A body that
    parses as JSON either has the shape of [MatchupFile] or it has not:
    the type annotation of the callback is not checked at run time.
    [Falsy] is a body such as [null], which the loop skips like a failed
    fetch.  [Misshapen] is a truthy body the loop cannot read: its
    [matchups] is not iterable, a row has no string [opponent], or [hero]
    is not a string.  A row's [winrate] is taken to be a number. *)
Inductive FetchOutcome :=
| NetworkError
| ParseError
| Parsed (f : MatchupFile)
| Falsy
| Misshapen.

(** An element of [files] that no [catch] replaced. *)
Inductive Body :=
| Shaped (f : MatchupFile)
| FalsyBody
| Unshaped.

(** [.catch(() => null)]: a rejection becomes [null], a body passes
    through as it is. *)
Definition settle (o : FetchOutcome) : option Body :=
  match o with
  | NetworkError | ParseError => None
  | Parsed f => Some (Shaped f)
  | Falsy => Some FalsyBody
  | Misshapen => Some Unshaped
  end.

(** The inner loop over [f.matchups]. *)
Definition buildMap (ms : list Matchup) : OppMap :=
  fold_left
    (fun map m => JsObject.set map (toLowerCase (opponent m)) (m_winrate m))
    ms JsObject.empty.

(** One iteration of [for (const f of files)] in the [then] callback;
    [None] is the [TypeError] the iteration throws on a body it cannot
    read. *)
Definition addFile (acc : Dataset) (f : option Body) : option Dataset :=
  match f with
  | None | Some FalsyBody => Some acc
  | Some (Shaped f) =>
      Some (JsObject.set acc (toLowerCase (f_hero f)) (buildMap (matchups f)))
  | Some Unshaped => None
  end.

(** The loop over [files]: nothing catches a throw, so once an iteration
    has thrown there is no [acc] any more. *)
Definition buildData (files : list (option Body)) : option Dataset :=
  fold_left
    (fun acc f => match acc with
                  | Some a => addFile a f
                  | None => None
                  end)
    files (Some JsObject.empty).

(** [DataUnavailable] is the error of the design, which no path of the
    loader raises; [TypeError] is what the [then] callback throws on a
    misshapen body. *)
Inductive LoadError := DataUnavailable | TypeError.

Inductive LoadOutcome :=
| Loaded (d : Dataset)
| Failed (e : LoadError).

(** The effect of [useCounterResults]: every fetch settles to a body or to
    [null]; the callback then either publishes the dataset with [setData]
    or throws before it gets there, and nothing is published. *)
Definition load (fetched : list FetchOutcome) : LoadOutcome :=
  match buildData (map settle fetched) with
  | Some d => Loaded d
  | None => Failed TypeError
  end.

(** The files that parsed with the right shape, in request order. *)
Definition parseable (fetched : list FetchOutcome) : list MatchupFile :=
  flat_map (fun o => match settle o with
                     | Some (Shaped f) => [f]
                     | _ => []
                     end)
           fetched.

(** *** Scoring *)

Record PerEnemy := mkPerEnemy { enemy : string; winrate : option R }.

Record CounterResult := mkResult {
  hero : string;
  combined : R;
  perEnemy : list PerEnemy
}.

(** An element of the local array [enemies]. *)
Record WeightedEnemy := mkEnemy { w_enemy : string; weight : R }.

Definition isHero (p : EnemyPick) : bool :=
  match pick_hero p with Some _ => true | None => false end.

(** [(p.hero as Hero).slug]; only used on picks that passed [isHero]. *)
Definition heroSlug (p : EnemyPick) : string :=
  match pick_hero p with Some h => slug h | None => EmptyString end.

(** [enemyPicks.map((p) => p.hero?.slug).filter(Boolean)] *)
Definition selectedEnemySlugs (enemyPicks : list EnemyPick) : list string :=
  flat_map
    (fun o => match o with
              | Some s => if truthy s then [s] else []
              | None => []
              end)
    (map (fun p => option_map slug (pick_hero p)) enemyPicks).

(** [enemyPicks.filter((p) => p.hero).map(...)] *)
Definition enemiesOf (enemyPicks : list EnemyPick) : list WeightedEnemy :=
  map (fun p => mkEnemy (heroSlug p) (pick_weight p))
      (filter isHero enemyPicks).

(** The three accumulators of the loop over [enemies]. *)
Record Acc := mkAcc {
  weightedSum : R;
  weightTotal : R;
  perEnemyAcc : list PerEnemy
}.

Definition acc0 : Acc := mkAcc 0 0 [].

Definition stepEnemy (oppMap : OppMap) (a : Acc) (e : WeightedEnemy) : Acc :=
  match JsObject.get oppMap (w_enemy e) with
  | None =>
      mkAcc (weightedSum a) (weightTotal a)
            (perEnemyAcc a ++ [mkPerEnemy (w_enemy e) None])
  | Some wr =>
      mkAcc (weightedSum a + weight e * pctToLogOdds wr)
            (weightTotal a + weight e)
            (perEnemyAcc a ++ [mkPerEnemy (w_enemy e) (Some wr)])
  end.

Definition scanEnemies (oppMap : OppMap) (enemies : list WeightedEnemy) : Acc :=
  fold_left (stepEnemy oppMap) enemies acc0.

(** One iteration of [for (const [hero, oppMap] of Object.entries(data))]. *)
Definition stepHero (enemies : list WeightedEnemy) (enemySet : list string)
           (out : list CounterResult) (entry : string * OppMap)
  : list CounterResult :=
  let (hero, oppMap) := entry in
  if JsArray.has enemySet hero then out
  else
    let a := scanEnemies oppMap enemies in
    if Rle_dec (weightTotal a) 0 then out
    else
      out ++ [mkResult hero
                       (logOddsToPct (weightedSum a / weightTotal a))
                       (perEnemyAcc a)].

(** [(a, b) => b.combined - a.combined] *)
Definition byCombinedDesc (a b : CounterResult) : R :=
  combined b - combined a.

(** The candidates before the final sort. *)
Definition candidates (data : Dataset) (enemies : list WeightedEnemy)
  : list CounterResult :=
  fold_left (stepHero enemies (map w_enemy enemies))
            (JsObject.entries data) [].

(** The [useMemo] body of [useCounterResults]. *)
Definition useCounterResults (data : Dataset) (enemySlugs : list string)
           (enemyPicks : list EnemyPick) : list CounterResult :=
  match enemySlugs with
  | [] => []
  | _ :: _ =>
      let enemies := enemiesOf enemyPicks in
      JsArray.sort byCombinedDesc (candidates data enemies)
  end.

(** [candidateResults] as [DraftPage] computes it. *)
Definition candidateResults (data : Dataset) (enemyPicks : list EnemyPick)
  : list CounterResult :=
  useCounterResults data (selectedEnemySlugs enemyPicks) enemyPicks.

(** *** The role filter of [ResultsTable] *)

Definition RoleMap : Type := JsObject.t (list string).

Definition ALL_ROLES : list string :=
  ["carry"; "mid"; "offlane"; "support"; "hard support"]%string.

Definition isFilteringActive (selectedRoles : list string) : bool :=
  andb (Nat.ltb 0 (List.length selectedRoles))
       (Nat.ltb (List.length selectedRoles) (List.length ALL_ROLES)).

Definition toggleRole (prev : list string) (role : string) : list string :=
  if JsArray.includes prev role
  then filter (fun r => negb (String.eqb r role)) prev
  else prev ++ [role].

Definition setAll : list string := ALL_ROLES.

Definition clearAll : list string := [].

(** What the buttons of the filter dialog can do to [selectedRoles]. *)
Inductive RoleEvent :=
| Toggle (role : string)
| SetAll
| ClearAll.

Definition applyEvent (selectedRoles : list string) (ev : RoleEvent)
  : list string :=
  match ev with
  | Toggle role => toggleRole selectedRoles role
  | SetAll => setAll
  | ClearAll => clearAll
  end.

(** The dialog draws one toggle button per element of [ALL_ROLES]. *)
Definition offered (ev : RoleEvent) : Prop :=
  match ev with
  | Toggle role => In role ALL_ROLES
  | SetAll | ClearAll => True
  end.

(** The states of [selectedRoles]: [useState(ALL_ROLES)], then events. *)
Inductive reachable : list string -> Prop :=
| reach_init : reachable ALL_ROLES
| reach_step : forall s ev,
    reachable s -> offered ev -> reachable (applyEvent s ev).

(** [rolesByHero[r.hero] || []] *)
Definition rolesOf (rolesByHero : RoleMap) (h : string) : list string :=
  match JsObject.get rolesByHero h with
  | Some roles => roles
  | None => []
  end.

(** The callback of [results.filter]. *)
Definition keepResult (rolesByHero : RoleMap) (selectedRoles : list string)
           (r : CounterResult) : bool :=
  let roles := rolesOf rolesByHero (hero r) in
  if Nat.eqb (List.length roles) 0 then false
  else existsb (fun role => JsArray.has selectedRoles role) roles.

(** The [useMemo] body of [displayedResults]. *)
Definition displayedResults (results : list CounterResult)
           (rolesByHero : RoleMap) (selectedRoles : list string)
  : list CounterResult :=
  if negb (isFilteringActive selectedRoles) then results
  else filter (keepResult rolesByHero selectedRoles) results.

(** *** Loading the role files: [useHeroRoles] *)

(** A decoded role file as the loop reads it: [rf_hero] is [None] when
    the field is missing, [rf_roles] is [None] when [f.roles] is not an
    array. *)
Record RoleFile := mkRoleFile {
  rf_hero : option string;
  rf_roles : option (list string)
}.

(** One iteration of [for (const f of files)]; [None] is a fetch that was
    not [ok], failed, or did not parse. *)
Definition addRoles (acc : RoleMap) (f : option RoleFile) : RoleMap :=
  match f with
  | None => acc
  | Some f =>
      match rf_hero f with
      | None => acc
      | Some h =>
          if truthy h
          then JsObject.set acc (toLowerCase h)
                            (match rf_roles f with
                             | Some roles => roles
                             | None => []
                             end)
          else acc
      end
  end.

(** The role map [useHeroRoles] publishes. *)
Definition useHeroRoles (files : list (option RoleFile)) : RoleMap :=
  fold_left addRoles files JsObject.empty.

End DraftPage.

(** ** The draft page's scoring in double precision *)

(** The scoring code once more, with the rounding of its arithmetic kept.
    [rnd x] is the double nearest to the real number [x], so the code's
    [a + b] is [rnd (a + b)], and likewise for [-], [*] and [/]; [flog]
    and [fexp] are [Math.log] and [Math.exp].  Negation, [Math.max],
    [Math.min] and the comparisons are exact.  The literals [0.005] and
    [0.995] are the doubles nearest to them; [0], [1] and [100] are
    doubles.  Records and loops are those of [DraftPage]. *)
Module Rounded.

Section Arithmetic.

Variable rnd : R -> R.
Variables flog fexp : R -> R.

Definition add (x y : R) : R := rnd (x + y).
Definition sub (x y : R) : R := rnd (x - y).
Definition mul (x y : R) : R := rnd (x * y).
Definition div (x y : R) : R := rnd (x / y).

Definition pctToLogOdds (pct : R) : R :=
  let p := DraftPage.clamp (div pct 100) (rnd 0.005) (rnd 0.995) in
  flog (div p (sub 1 p)).

Definition logOddsToPct (lo : R) : R :=
  let p := div 1 (add 1 (fexp (- lo))) in
  mul 100 p.

Definition stepEnemy (oppMap : DraftPage.OppMap) (a : DraftPage.Acc)
           (e : DraftPage.WeightedEnemy) : DraftPage.Acc :=
  match JsObject.get oppMap (DraftPage.w_enemy e) with
  | None =>
      DraftPage.mkAcc
        (DraftPage.weightedSum a) (DraftPage.weightTotal a)
        (DraftPage.perEnemyAcc a
           ++ [DraftPage.mkPerEnemy (DraftPage.w_enemy e) None])
  | Some wr =>
      DraftPage.mkAcc
        (add (DraftPage.weightedSum a)
             (mul (DraftPage.weight e) (pctToLogOdds wr)))
        (add (DraftPage.weightTotal a) (DraftPage.weight e))
        (DraftPage.perEnemyAcc a
           ++ [DraftPage.mkPerEnemy (DraftPage.w_enemy e) (Some wr)])
  end.

Definition scanEnemies (oppMap : DraftPage.OppMap)
           (enemies : list DraftPage.WeightedEnemy) : DraftPage.Acc :=
  fold_left (stepEnemy oppMap) enemies DraftPage.acc0.

Definition stepHero (enemies : list DraftPage.WeightedEnemy)
           (enemySet : list string) (out : list DraftPage.CounterResult)
           (entry : string * DraftPage.OppMap)
  : list DraftPage.CounterResult :=
  let (hero, oppMap) := entry in
  if JsArray.has enemySet hero then out
  else
    let a := scanEnemies oppMap enemies in
    if Rle_dec (DraftPage.weightTotal a) 0 then out
    else
      out ++ [DraftPage.mkResult
                hero
                (logOddsToPct
                   (div (DraftPage.weightedSum a) (DraftPage.weightTotal a)))
                (DraftPage.perEnemyAcc a)].

Definition byCombinedDesc (a b : DraftPage.CounterResult) : R :=
  sub (DraftPage.combined b) (DraftPage.combined a).

Definition candidates (data : DraftPage.Dataset)
           (enemies : list DraftPage.WeightedEnemy)
  : list DraftPage.CounterResult :=
  fold_left (stepHero enemies (map DraftPage.w_enemy enemies))
            (JsObject.entries data) [].

Definition useCounterResults (data : DraftPage.Dataset)
           (enemySlugs : list string)
           (enemyPicks : list DraftPage.EnemyPick)
  : list DraftPage.CounterResult :=
  match enemySlugs with
  | [] => []
  | _ :: _ =>
      let enemies := DraftPage.enemiesOf enemyPicks in
      JsArray.sort byCombinedDesc (candidates data enemies)
  end.

Definition candidateResults (data : DraftPage.Dataset)
           (enemyPicks : list DraftPage.EnemyPick)
  : list DraftPage.CounterResult :=
  useCounterResults data (DraftPage.selectedEnemySlugs enemyPicks) enemyPicks.

End Arithmetic.

(** What is taken for granted of the arithmetic: the standard model of
    double precision where nothing overflows.  Every operation is off by
    at most [err] relative to its exact result, or by [err] in absolute
    terms near zero; [err] may be as large as 1e-15, several times the
    unit roundoff 2^-53 of doubles.  [Math.log] is that accurate on
    positive numbers and [Math.exp] up to 700, before it overflows. *)
Definition standardModel (err : R) (rnd flog fexp : R -> R) : Prop :=
  0 <= err <= 1 / 1000000000000000 /\
  rnd 0 = 0 /\
  (forall x, Rabs (rnd x - x) <= err * (Rabs x + 1)) /\
  (forall x, 0 < x -> Rabs (flog x - ln x) <= err * (Rabs (ln x) + 1)) /\
  (forall x, x <= 700 -> Rabs (fexp x - exp x) <= err * (exp x + 1)).

(** Rounding preserves order, and so do the two library functions. *)
Definition monotoneModel (rnd flog fexp : R -> R) : Prop :=
  (forall x y, x <= y -> rnd x <= rnd y) /\
  (forall x y, 0 < x -> x <= y -> flog x <= flog y) /\
  (forall x y, x <= y -> fexp x <= fexp y).

(** The accumulators of the rounded loop keep track of the exact ones:
    after [n] enemies the running sums are off by at most [n] times what
    one step can add, the exact sum of log-odds stays within 8 times the
    exact weight total, and the weight total is 0 in both or at least
    the first step of the slider. *)
Definition tracks (err n : R) (a' a : DraftPage.Acc) : Prop :=
  DraftPage.perEnemyAcc a' = DraftPage.perEnemyAcc a /\
  - (n * (4300 * err))
  <= DraftPage.weightedSum a' - DraftPage.weightedSum a
  <= n * (4300 * err) /\
  - (n * (10 * err))
  <= DraftPage.weightTotal a' - DraftPage.weightTotal a
  <= n * (10 * err) /\
  - (8 * DraftPage.weightTotal a) <= DraftPage.weightedSum a
  <= 8 * DraftPage.weightTotal a /\
  0 <= DraftPage.weightTotal a <= n /\
  ((DraftPage.weightTotal a = 0 /\ DraftPage.weightTotal a' = 0) \/
   1 / 10 <= DraftPage.weightTotal a).

(** Two result rows for the same hero with the same breakdown, whose
    combined scores differ by at most [e]. *)
Definition within (e : R) (r' r : DraftPage.CounterResult) : Prop :=
  DraftPage.hero r' = DraftPage.hero r /\
  DraftPage.perEnemy r' = DraftPage.perEnemy r /\
  - e <= DraftPage.combined r' - DraftPage.combined r <= e.

(** Exact arithmetic, the arithmetic of [DraftPage]. *)
Definition exact (x : R) : R := x.

End Rounded.

(** ** The previous scoring module: frontend_old/src/logic.ts *)

Module Logic.

(** [DataV2] of [api.ts]. *)
Record OppRec := mkOppRec { rec_winrate : R; rec_matches : R }.
Record HeroData := mkHeroData {
  opponents : JsObject.t OppRec;
  totalMatches : R
}.
Definition DataV2 : Type := JsObject.t HeroData.

Definition clamp (x lo hi : R) : R := Rmax lo (Rmin hi x).

Definition pctToLogOdds (pct : R) : R :=
  let p := clamp (pct / 100) 0.005 0.995 in
  ln (p / (1 - p)).

Definition logOddsToPct (lo : R) : R :=
  let p := 1 / (1 + exp (- lo)) in
  100 * p.

Definition logit (x : R) : R :=
  let p := clamp x (1 / 1000000) (1 - 1 / 1000000) in
  ln (p / (1 - p)).

(** [type EnemyPick = { slug: string; weight: number }] *)
Record EnemyPick := mkPick { slug : string; weight : R }.

Record PerEnemy := mkPerEnemy { enemy : string; winrate : option R }.

Record Result := mkResult {
  hero : string;
  combined : R;
  perEnemy : list PerEnemy;
  matchShare : R
}.

(** The accumulators [lsum], [wsum] and [perEnemy]. *)
Record Acc := mkAcc { lsum : R; wsum : R; perEnemyAcc : list PerEnemy }.

Definition acc0 : Acc := mkAcc 0 0 [].

Definition stepEnemy (oppMap : JsObject.t OppRec) (a : Acc) (e : EnemyPick)
  : Acc :=
  match JsObject.get oppMap (slug e) with
  | None =>
      mkAcc (lsum a) (wsum a) (perEnemyAcc a ++ [mkPerEnemy (slug e) None])
  | Some rec =>
      let win01 := clamp (rec_winrate rec / 100) 0 1 in
      mkAcc (lsum a + weight e * win01)
            (wsum a + weight e)
            (perEnemyAcc a ++ [mkPerEnemy (slug e) (Some (rec_winrate rec))])
  end.

Definition scanEnemies (oppMap : JsObject.t OppRec) (enemies : list EnemyPick)
  : Acc :=
  fold_left (stepEnemy oppMap) enemies acc0.

(** [data[hero]?.opponents || {}] *)
Definition oppMapOf (data : DataV2) (h : string) : JsObject.t OppRec :=
  match JsObject.get data h with
  | Some hd => opponents hd
  | None => JsObject.empty
  end.

(** [Math.max(1, data[hero]?.totalMatches || 1)] *)
Definition totalMatchesOf (data : DataV2) (h : string) : R :=
  Rmax 1 (match JsObject.get data h with
          | Some hd =>
              if Req_dec_T (totalMatches hd) 0 then 1 else totalMatches hd
          | None => 1
          end).

(** One iteration of [for (const hero of Object.keys(data))]. *)
Definition stepHero (data : DataV2) (enemies : list EnemyPick)
           (enemySet : list string) (results : list Result) (h : string)
  : list Result :=
  if JsArray.has enemySet h then results
  else
    let oppMap := oppMapOf data h in
    let totalMatches := totalMatchesOf data h in
    let a := scanEnemies oppMap enemies in
    if Rle_dec (wsum a) 0 then results
    else
      let combined01 := lsum a / wsum a in
      let r := 0 in
      let finalPct := 100 * combined01 in
      results ++ [mkResult h finalPct (perEnemyAcc a) r].

Definition byCombinedDesc (a b : Result) : R := combined b - combined a.

Definition candidates (data : DataV2) (enemies : list EnemyPick)
  : list Result :=
  fold_left (stepHero data enemies (map slug enemies))
            (JsObject.keys data) [].

Definition scoreCandidates (data : DataV2) (enemies : list EnemyPick)
  : list Result :=
  JsArray.sort byCombinedDesc (candidates data enemies).

(** [App.tsx]: the slots of the page and the [enemies] it scores. *)
Record EnemySlot := mkSlot { slot_slug : option string; slot_weight : R }.

Definition usable (data : DataV2) (s : EnemySlot) : bool :=
  match slot_slug s with
  | Some sl => andb (truthy sl) (JsArray.has (JsObject.keys data) sl)
  | None => false
  end.

Definition slotSlug (s : EnemySlot) : string :=
  match slot_slug s with Some sl => sl | None => EmptyString end.

Definition enemiesOf (data : DataV2) (slots : list EnemySlot)
  : list EnemyPick :=
  map (fun s => mkPick (slotSlug s) (slot_weight s))
      (filter (usable data) slots).

(** [results] of [App.tsx]. *)
Definition results (data : DataV2) (slots : list EnemySlot) : list Result :=
  scoreCandidates data (enemiesOf data slots).

(** The same matchups in the shape the draft page loads. *)
Definition forgetMatches (data : DataV2) : DraftPage.Dataset :=
  map (fun e => (fst e, map (fun o => (fst o, rec_winrate (snd o)))
                            (opponents (snd e))))
      data.

End Logic.

(** ** The API server of the previous frontend: [loadData] *)

Module Server.

(** [s.endsWith(suffix)] *)
Definition endsWith (s suffix : string) : bool :=
  let n := String.length s in
  let m := String.length suffix in
  andb (Nat.leb m n) (String.eqb (substring (n - m) m s) suffix).

(** [path.basename(file, ext)] on a bare file name. *)
Definition basename (file ext : string) : string :=
  if endsWith file ext
  then substring 0 (String.length file - String.length ext) file
  else file.

(** One element of [obj.matchups] as [loadData] looks at it: a field is
    [None] when it is missing or fails the test the code applies to it
    ([m.opponent] falsy, [typeof] not ["number"]). *)
Record RawMatchup := mkRawMatchup {
  raw_opponent : option string;
  raw_winrate : option R;
  raw_matches : option R
}.

Record RawFile := mkRawFile {
  raw_hero : option string;
  raw_matchups : option (list RawMatchup)
}.

(** What [JSON.parse(await fs.readFile(fp))] and the loop after it come to
    inside the [try]: an exception, or a decoded object. *)
Inductive ReadOutcome :=
| Unreadable
| Decoded (obj : RawFile).

(** [String(x || fallback)] for a string-or-missing [x]. *)
Definition orElse (x : option string) (fallback : string) : string :=
  match x with
  | Some s => if truthy s then s else fallback
  | None => fallback
  end.

(** The loop over [obj.matchups || []]: [opponents] and [totalMatches]. *)
Definition stepMatchup (st : JsObject.t Logic.OppRec * R) (m : RawMatchup)
  : JsObject.t Logic.OppRec * R :=
  let (opponents, totalMatches) := st in
  let opp := toLowerCase (orElse (raw_opponent m) EmptyString) in
  match raw_winrate m, raw_matches m with
  | Some wr, Some mt =>
      if truthy opp
      then (JsObject.set opponents opp (Logic.mkOppRec wr mt),
            totalMatches + mt)
      else st
  | _, _ => st
  end.

Definition readMatchups (ms : list RawMatchup) : JsObject.t Logic.OppRec * R :=
  fold_left stepMatchup ms (JsObject.empty, 0).

(** One iteration of [for (const file of files)]. *)
Definition stepFile (data : Logic.DataV2) (entry : string * ReadOutcome)
  : Logic.DataV2 :=
  let (file, outcome) := entry in
  if negb (endsWith file ".json") then data
  else
    match outcome with
    | Unreadable => data
    | Decoded obj =>
        let hero := toLowerCase (orElse (raw_hero obj) (basename file ".json")) in
        let (opponents, totalMatches) :=
          readMatchups (match raw_matchups obj with
                        | Some ms => ms
                        | None => []
                        end) in
        if Nat.ltb 0 (List.length (JsObject.keys opponents))
        then JsObject.set data hero (Logic.mkHeroData opponents totalMatches)
        else data
    end.

(** [loadData(date)] on the listing of the date's directory, each file
    name with what reading it gives; a failed [readdir] is the empty
    listing. *)
Definition loadData (dir : list (string * ReadOutcome)) : Logic.DataV2 :=
  fold_left stepFile dir JsObject.empty.

Definition readable (entry : string * ReadOutcome) : bool :=
  match snd entry with
  | Unreadable => false
  | Decoded _ => true
  end.

(** The rows that pass [if (!opp || wr == null || mt == null) continue]. *)
Definition usableRow (m : RawMatchup) : bool :=
  match raw_opponent m, raw_winrate m, raw_matches m with
  | Some s, Some _, Some _ => truthy s
  | _, _, _ => false
  end.

(** What the rows loop keeps true of [opponents]: one entry per key, every
    key a non-empty lower-case string. *)
Definition goodOpponents (o : JsObject.t Logic.OppRec) : Prop :=
  JsObject.wf o /\
  forall k, In k (JsObject.keys o) -> k <> EmptyString /\ toLowerCase k = k.

(** [obj.matchups || []] *)
Definition rowsOf (obj : RawFile) : list RawMatchup :=
  match raw_matchups obj with
  | Some ms => ms
  | None => []
  end.

End Server.

(** ** The scoring rule as the design states it *)

Module Spec.

Fixpoint sumOver {A : Type} (f : A -> R) (l : list A) : R :=
  match l with
  | [] => 0
  | x :: l' => f x + sumOver f l'
  end.

(** [clamp(winrate/100, 0.005, 0.995)] *)
Definition clampedProb (winrate : R) : R :=
  Rmax 0.005 (Rmin 0.995 (winrate / 100)).

Definition logOdds (c : R) : R := ln (c / (1 - c)).

(** The selected enemies for which the hero has a record, each as
    (weight, recorded winrate), in pick order. *)
Definition matched (oppMap : DraftPage.OppMap)
           (enemies : list DraftPage.WeightedEnemy) : list (R * R) :=
  flat_map
    (fun e => match JsObject.get oppMap (DraftPage.w_enemy e) with
              | Some wr => [(DraftPage.weight e, wr)]
              | None => []
              end)
    enemies.

Definition matchedWeight (m : list (R * R)) : R := sumOver fst m.

(** The renormalised weighted mean of the log-odds. *)
Definition combinedLogOdds (m : list (R * R)) : R :=
  sumOver (fun p => fst p * logOdds (clampedProb (snd p))) m
  / matchedWeight m.

Definition combinedScore (m : list (R * R)) : R :=
  100 / (1 + exp (- combinedLogOdds m)).

(** The old rule: the weighted mean of the raw percentages. *)
Definition matchedV2 (oppMap : JsObject.t Logic.OppRec)
           (enemies : list Logic.EnemyPick) : list (R * R) :=
  flat_map
    (fun e => match JsObject.get oppMap (Logic.slug e) with
              | Some rec => [(Logic.weight e, Logic.rec_winrate rec)]
              | None => []
              end)
    enemies.

Definition rawAverage (m : list (R * R)) : R :=
  100 * (sumOver (fun p => fst p * Rmax 0 (Rmin 1 (snd p / 100))) m
         / matchedWeight m).

(** The breakdown row the design asks for: one entry per selected
    enemy, the recorded winrate or the unknown marker. *)
Definition breakdown (oppMap : DraftPage.OppMap) (slugs : list string)
  : list DraftPage.PerEnemy :=
  map (fun s => DraftPage.mkPerEnemy s (JsObject.get oppMap s)) slugs.

Definition breakdownV2 (oppMap : JsObject.t Logic.OppRec)
           (slugs : list string) : list Logic.PerEnemy :=
  map (fun s => Logic.mkPerEnemy
                  s (option_map Logic.rec_winrate (JsObject.get oppMap s)))
      slugs.

(** The heroes of the non-empty slots, in slot order. *)
Definition selectedHeroes (enemyPicks : list DraftPage.EnemyPick)
  : list string :=
  flat_map
    (fun p => match DraftPage.pick_hero p with
              | Some h => [DraftPage.slug h]
              | None => []
              end)
    enemyPicks.

(** The combined score a result sequence gives hero [H], if it lists it. *)
Definition scoreOf (H : string) (results : list DraftPage.CounterResult)
  : option R :=
  option_map DraftPage.combined
             (find (fun r => String.eqb (DraftPage.hero r) H) results).

(** Every selected hero has a non-empty slug. *)
Definition slugsNamed (enemyPicks : list DraftPage.EnemyPick) : Prop :=
  forall p h, In p enemyPicks -> DraftPage.pick_hero p = Some h ->
              truthy (DraftPage.slug h) = true.

Definition removeAt {A : Type} (k : nat) (l : list A) : list A :=
  firstn k l ++ skipn (S k) l.

(** A result without the breakdown entry of column [k]. *)
Definition dropEntry (k : nat) (r : DraftPage.CounterResult)
  : DraftPage.CounterResult :=
  DraftPage.mkResult (DraftPage.hero r) (DraftPage.combined r)
                     (removeAt k (DraftPage.perEnemy r)).

Definition isNot (h : string) (r : DraftPage.CounterResult) : bool :=
  negb (String.eqb (DraftPage.hero r) h).

Definition dropEntryV2 (k : nat) (r : Logic.Result) : Logic.Result :=
  Logic.mkResult (Logic.hero r) (Logic.combined r)
                 (removeAt k (Logic.perEnemy r)) (Logic.matchShare r).

Definition isNotV2 (h : string) (r : Logic.Result) : bool :=
  negb (String.eqb (Logic.hero r) h).

(** The hero files that arrived as matchup files, in request order. *)
Definition goodFiles (fetched : list DraftPage.FetchOutcome)
  : list DraftPage.MatchupFile :=
  flat_map (fun o => match o with
                     | DraftPage.Parsed f => [f]
                     | _ => []
                     end)
           fetched.


(** The role filter as the design states it. *)
Definition intersects (roles selected : list string) : Prop :=
  exists role, In role roles /\ In role selected.

Definition sameRoles (a b : list string) : Prop :=
  forall role, In role a <-> In role b.

(** The role files that set an entry, each as (key, roles), in order. *)
Definition roleEntries (files : list (option DraftPage.RoleFile))
  : list (string * list string) :=
  flat_map
    (fun f => match f with
              | Some f =>
                  match DraftPage.rf_hero f with
                  | Some h =>
                      if truthy h
                      then [(toLowerCase h,
                             match DraftPage.rf_roles f with
                             | Some roles => roles
                             | None => []
                             end)]
                      else []
                  | None => []
                  end
              | None => []
              end)
    files.

(** An enemy of the previous module as a pick of the draft page. *)
Definition asPick (e : Logic.EnemyPick) : DraftPage.EnemyPick :=
  DraftPage.mkPick
    (Some (DraftPage.mkHero (Logic.slug e) (Logic.slug e) EmptyString))
    (Logic.weight e).

(** A row without its score, in a shape both modules share. *)
Definition rowOf (r : DraftPage.CounterResult)
  : string * list (string * option R) :=
  (DraftPage.hero r,
   map (fun pe => (DraftPage.enemy pe, DraftPage.winrate pe))
       (DraftPage.perEnemy r)).

Definition rowOfV2 (r : Logic.Result) : string * list (string * option R) :=
  (Logic.hero r,
   map (fun pe => (Logic.enemy pe, Logic.winrate pe)) (Logic.perEnemy r)).

(** The same picks with every weight multiplied by [c]. *)
Definition scalePicks (c : R) (enemyPicks : list DraftPage.EnemyPick)
  : list DraftPage.EnemyPick :=
  map (fun p => DraftPage.mkPick (DraftPage.pick_hero p)
                                 (c * DraftPage.pick_weight p))
      enemyPicks.

(** [om'] records winrates against the same opponents as [om], none of
    them lower. *)
Definition noWorse (om om' : DraftPage.OppMap) : Prop :=
  forall k, match JsObject.get om k, JsObject.get om' k with
            | Some a, Some b => a <= b
            | None, None => True
            | _, _ => False
            end.

(** Order on optional scores: both absent, or both present and ordered. *)
Definition optLe (a b : option R) : Prop :=
  match a, b with
  | Some x, Some y => x <= y
  | None, None => True
  | _, _ => False
  end.

(** *** Room for rounding *)

(** The program computes in double precision.  Where rounding can move a
    value in its last digits, a property is stated up to [tolerance]: a
    millionth of a percentage point, far above the rounding of the few
    operations behind a score and far below the two decimals the page
    displays. *)
Definition tolerance : R := 1 / 1000000.

Definition close (x y : R) : Prop := Rabs (x - y) <= tolerance.

(** Two result rows for the same hero, with the same breakdown and
    combined scores that agree up to rounding. *)
Definition sameRow (r' r : DraftPage.CounterResult) : Prop :=
  DraftPage.hero r' = DraftPage.hero r /\
  DraftPage.perEnemy r' = DraftPage.perEnemy r /\
  close (DraftPage.combined r') (DraftPage.combined r).

(** A weight the slider can give, [min={0} max={1} step={0.1}]: 0, or
    between the first step and 1. *)
Definition sliderWeight (w : R) : Prop := w = 0 \/ 1 / 10 <= w <= 1.

(** The states of [enemyPicks] the page can be in: the five slots of
    [useState], each weight the initial 0.5 or a value of the slider. *)
Definition draftSlots (enemyPicks : list DraftPage.EnemyPick) : Prop :=
  List.length enemyPicks = 5%nat /\
  forall p, In p enemyPicks -> sliderWeight (DraftPage.pick_weight p).

(** *** What the server stores for a file *)

(** The rows of a hero file that carry data, in file order: a non-empty
    opponent, put in lower case, with a numeric winrate and match count. *)
Definition usableRowsOf (ms : list Server.RawMatchup)
  : list (string * Logic.OppRec) :=
  flat_map
    (fun m => match Server.raw_opponent m, Server.raw_winrate m,
                    Server.raw_matches m with
              | Some (String c s), Some wr, Some mt =>
                  [(toLowerCase (String c s), Logic.mkOppRec wr mt)]
              | _, _, _ => []
              end)
    ms.

Definition usableRows (obj : Server.RawFile) : list (string * Logic.OppRec) :=
  match Server.raw_matchups obj with
  | Some ms => usableRowsOf ms
  | None => []
  end.

(** The record the last row naming [k] gives. *)
Definition lastRecord (rows : list (string * Logic.OppRec)) (k : string)
  : option Logic.OppRec :=
  option_map snd (find (fun r => String.eqb (fst r) k) (rev rows)).

(** The match counts of the rows, added up in file order. *)
Definition matchTotal (rows : list (string * Logic.OppRec)) : R :=
  fold_left (fun t r => t + Logic.rec_matches (snd r)) rows 0.

(** *** The slots the previous page scores *)

(** The slugs of the slots that name a hero of the dataset, in slot
    order. *)
Definition knownSlugs (data : Logic.DataV2) (slots : list Logic.EnemySlot)
  : list string :=
  flat_map
    (fun s => match Logic.slot_slug s with
              | Some (String c sl) =>
                  match JsObject.get data (String c sl) with
                  | Some _ => [String c sl]
                  | None => []
                  end
              | _ => []
              end)
    slots.

End Spec.

(** ** Sample data *)

Module Example.

Definition mkHero (s : string) : DraftPage.Hero :=
  DraftPage.mkHero s s ("/content/images/heroes/" ++ s ++ ".png").

Definition axe : DraftPage.Hero := mkHero "axe".
Definition juggernaut : DraftPage.Hero := mkHero "juggernaut".
Definition zeus : DraftPage.Hero := mkHero "zeus".

(** The one-file dataset of the design's first worked example. *)
Definition jugData : DraftPage.Dataset :=
  [("juggernaut", [("axe", 55)])]%string.

Definition axeOnly : list DraftPage.EnemyPick :=
  [DraftPage.mkPick (Some axe) 1].

(** Three heroes with records against each other, and one whose only
    record is against zeus. *)
Definition data : DraftPage.Dataset :=
  [("juggernaut", [("axe", 55); ("zeus", 40)]);
   ("axe", [("juggernaut", 45); ("zeus", 52)]);
   ("zeus", [("axe", 48)]);
   ("lina", [("zeus", 50)])]%string.

Definition jugRow : DraftPage.CounterResult :=
  DraftPage.mkResult "juggernaut" 55 [DraftPage.mkPerEnemy "axe" (Some 55)].

Definition zeusRow : DraftPage.CounterResult :=
  DraftPage.mkResult "zeus" 48 [DraftPage.mkPerEnemy "axe" (Some 48)].

Definition jugRowZeus0 : DraftPage.CounterResult :=
  DraftPage.mkResult "juggernaut" 55
    [DraftPage.mkPerEnemy "axe" (Some 55);
     DraftPage.mkPerEnemy "zeus" (Some 40)].

Definition zeusOnly : list DraftPage.EnemyPick :=
  [DraftPage.mkPick (Some zeus) 1].

Definition emptyAndAxe0 : list DraftPage.EnemyPick :=
  [DraftPage.mkPick None 0.5; DraftPage.mkPick (Some axe) 0].

Definition axeAndEmpty : list DraftPage.EnemyPick :=
  [DraftPage.mkPick (Some axe) 1; DraftPage.mkPick None 0].

Definition axeAndZeus0 : list DraftPage.EnemyPick :=
  [DraftPage.mkPick (Some axe) 1; DraftPage.mkPick (Some zeus) 0].

(** The previous module's data shape: juggernaut at 80 against axe and at 50
    against zeus, with both picked at weight 1. *)
Definition dataV2 : Logic.DataV2 :=
  [("juggernaut",
    Logic.mkHeroData [("axe", Logic.mkOppRec 80 1000);
                      ("zeus", Logic.mkOppRec 50 1000)] 2000)]%string.

Definition enemiesV2 : list Logic.EnemyPick :=
  [Logic.mkPick "axe" 1; Logic.mkPick "zeus" 1].

Definition axeAndZeus : list DraftPage.EnemyPick :=
  [DraftPage.mkPick (Some axe) 1; DraftPage.mkPick (Some zeus) 1].

Definition jugRowV2 : Logic.Result :=
  Logic.mkResult "juggernaut" 65
    [Logic.mkPerEnemy "axe" (Some 80); Logic.mkPerEnemy "zeus" (Some 50)] 0.

Definition jugRowLogOdds : DraftPage.CounterResult :=
  DraftPage.mkResult "juggernaut" (200 / 3)
    [DraftPage.mkPerEnemy "axe" (Some 80);
     DraftPage.mkPerEnemy "zeus" (Some 50)].

Definition roles : DraftPage.RoleMap :=
  [("juggernaut", ["carry"]); ("zeus", ["mid"; "support"])]%string.

(** Two fetches: a file with capitals in its names, and a failure. *)
Definition fetched : list DraftPage.FetchOutcome :=
  [DraftPage.Parsed
     (DraftPage.mkFile "Juggernaut"%string
                       [DraftPage.mkMatchup "Axe"%string 55]);
   DraftPage.NetworkError].

(** Two hero files with capitals in their names, and the dataset they
    load to. *)
Definition jugFile : DraftPage.MatchupFile :=
  DraftPage.mkFile "Juggernaut"%string [DraftPage.mkMatchup "Axe"%string 55].

Definition zeusFile : DraftPage.MatchupFile :=
  DraftPage.mkFile "Zeus"%string [DraftPage.mkMatchup "Axe"%string 48].

Definition twoData : DraftPage.Dataset :=
  [("juggernaut", [("axe", 55)]); ("zeus", [("axe", 48)])]%string.

(** A directory listing of the server: a hero file without a [hero]
    field, the patch metadata, and a stray text file. *)
Definition axeFile : Server.RawFile :=
  Server.mkRawFile None
    (Some [Server.mkRawMatchup (Some "Zeus"%string) (Some 52) (Some 1000);
           Server.mkRawMatchup None (Some 50) (Some 10)]).

Definition metadataFile : Server.RawFile := Server.mkRawFile None None.

Definition listing : list (string * Server.ReadOutcome) :=
  [("axe.json", Server.Decoded axeFile);
   ("metadata.json", Server.Decoded metadataFile);
   ("notes.txt", Server.Unreadable)]%string.

(** Role files: one for juggernaut; zeus's could not be fetched. *)
Definition roleFiles : list (option DraftPage.RoleFile) :=
  [Some (DraftPage.mkRoleFile (Some "Juggernaut"%string)
                              (Some ["carry"%string]));
   None].

(** Two heroes with the same record against axe. *)
Definition tieData : DraftPage.Dataset :=
  [("lina", [("axe", 50)]); ("lion", [("axe", 50)])]%string.

Definition linaRow : DraftPage.CounterResult :=
  DraftPage.mkResult "lina" 50 [DraftPage.mkPerEnemy "axe" (Some 50)].

Definition lionRow : DraftPage.CounterResult :=
  DraftPage.mkResult "lion" 50 [DraftPage.mkPerEnemy "axe" (Some 50)].

(** The dataset [data] with juggernaut doing better against zeus. *)
Definition betterData : DraftPage.Dataset :=
  [("juggernaut", [("axe", 55); ("zeus", 45)]);
   ("axe", [("juggernaut", 45); ("zeus", 52)]);
   ("zeus", [("axe", 48)]);
   ("lina", [("zeus", 50)])]%string.

(** The five slots of the page, empty ones at the initial weight. *)
Definition emptySlot : DraftPage.EnemyPick := DraftPage.mkPick None 0.5.

Definition axeSlots : list DraftPage.EnemyPick :=
  [DraftPage.mkPick (Some axe) 1; emptySlot; emptySlot; emptySlot; emptySlot].

Definition axeHalfSlots : list DraftPage.EnemyPick :=
  [DraftPage.mkPick (Some axe) 0.5;
   emptySlot; emptySlot; emptySlot; emptySlot].

Definition axeSecondSlots : list DraftPage.EnemyPick :=
  [emptySlot; DraftPage.mkPick (Some axe) 1;
   emptySlot; emptySlot; emptySlot].

(** The previous module's data with two heroes, and slots naming one of
    them and a hero the data does not have. *)
Definition dataTwoV2 : Logic.DataV2 :=
  [("juggernaut", Logic.mkHeroData [("axe", Logic.mkOppRec 80 1000)] 1000);
   ("axe", Logic.mkHeroData [("juggernaut", Logic.mkOppRec 20 1000)] 1000)
  ]%string.

Definition axeSlot : Logic.EnemySlot := Logic.mkSlot (Some "axe"%string) 1.

Definition techiesSlot : Logic.EnemySlot :=
  Logic.mkSlot (Some "techies"%string) 1.

Definition jugRowAxeV2 : Logic.Result :=
  Logic.mkResult "juggernaut" 80 [Logic.mkPerEnemy "axe" (Some 80)] 0.

End Example.

(** ** Facts about the object and array models *)

Section JsObjectFacts.
Context {V : Type}.
Implicit Types (o : JsObject.t V) (k : string) (v : V).

Lemma get_In o k v : JsObject.get o k = Some v -> In (k, v) o.
Proof.
  induction o as [|[k' v'] o IH]; simpl; [discriminate|].
  destruct (String.eqb k' k) eqn:E.
  - apply String.eqb_eq in E. intros [= ->]. left. now subst.
  - intros H. right. auto.
Qed.

Lemma get_None_not_key o k :
  JsObject.get o k = None <-> ~ In k (JsObject.keys o).
Proof.
  induction o as [|[k' v'] o IH]; simpl.
  - tauto.
  - destruct (String.eqb k' k) eqn:E.
    + apply String.eqb_eq in E. split; [discriminate|]. intros H. exfalso. auto.
    + apply String.eqb_neq in E. rewrite IH. tauto.
Qed.

Lemma In_wf_get o k v : JsObject.wf o -> In (k, v) o -> JsObject.get o k = Some v.
Proof.
  unfold JsObject.wf, JsObject.keys.
  induction o as [|[k' v'] o IH]; simpl; [tauto|].
  intros Hnd [E|Hin]; inversion Hnd as [|? ? Hni Hnd']; subst.
  - injection E as -> ->. now rewrite String.eqb_refl.
  - destruct (String.eqb k' k) eqn:E.
    + apply String.eqb_eq in E. subst k'. exfalso. apply Hni.
      apply in_map_iff. now exists (k, v).
    + auto.
Qed.

Lemma keys_set o k v :
  JsObject.keys (JsObject.set o k v) =
  if JsArray.has (JsObject.keys o) k then JsObject.keys o
  else JsObject.keys o ++ [k].
Proof.
  unfold JsObject.keys, JsArray.has.
  induction o as [|[k' v'] o IH]; simpl; [reflexivity|].
  rewrite (String.eqb_sym k k').
  destruct (String.eqb k' k) eqn:E; simpl.
  - apply String.eqb_eq in E. now subst.
  - rewrite IH. now destruct (existsb _ _).
Qed.

Lemma get_set_same o k v : JsObject.get (JsObject.set o k v) k = Some v.
Proof.
  induction o as [|[k' v'] o IH]; simpl.
  - now rewrite String.eqb_refl.
  - destruct (String.eqb k' k) eqn:E; simpl.
    + now rewrite String.eqb_refl.
    + now rewrite E.
Qed.

Lemma get_set_other o k k' v :
  k <> k' -> JsObject.get (JsObject.set o k v) k' = JsObject.get o k'.
Proof.
  intros Hne. induction o as [|[k0 v0] o IH]; simpl.
  - apply String.eqb_neq in Hne. now rewrite Hne.
  - destruct (String.eqb k0 k) eqn:E; simpl.
    + apply String.eqb_eq in E. subst k0.
      apply String.eqb_neq in Hne. now rewrite Hne.
    + now rewrite IH.
Qed.
End JsObjectFacts.

Lemma has_In xs x : JsArray.has xs x = true <-> In x xs.
Proof.
  unfold JsArray.has. rewrite existsb_exists. split.
  - intros [y [Hy E]]. apply String.eqb_eq in E. now subst.
  - intros H. exists x. split; [assumption|apply String.eqb_refl].
Qed.

Lemma has_false_In xs x : JsArray.has xs x = false <-> ~ In x xs.
Proof.
  rewrite <- has_In. destruct (JsArray.has xs x); split; congruence.
Qed.

Lemma wf_set {V : Type} (o : JsObject.t V) k v :
  JsObject.wf o -> JsObject.wf (JsObject.set o k v).
Proof.
  unfold JsObject.wf. intros H. rewrite keys_set.
  destruct (JsArray.has (JsObject.keys o) k) eqn:E; [assumption|].
  apply has_false_In in E.
  apply NoDup_rev in H. rewrite <- (rev_involutive (_ ++ _)).
  apply NoDup_rev. rewrite rev_app_distr. simpl. constructor; [|assumption].
  now rewrite <- in_rev.
Qed.

Section SortFacts.
Context {A : Type}.
Variable cmp : A -> A -> R.

Lemma insert_perm x s : Permutation (JsArray.insert cmp x s) (x :: s).
Proof.
  induction s as [|y s IH]; simpl; [reflexivity|].
  destruct (Rle_dec (cmp x y) 0); [reflexivity|].
  rewrite IH. apply perm_swap.
Qed.

Lemma sort_perm l : Permutation (JsArray.sort cmp l) l.
Proof.
  induction l as [|x l IH]; simpl; [constructor|].
  rewrite insert_perm. now constructor.
Qed.

Lemma In_sort x l : In x (JsArray.sort cmp l) <-> In x l.
Proof.
  split; apply Permutation_in; [|symmetry]; apply sort_perm.
Qed.

Lemma sort_nil_iff l : JsArray.sort cmp l = [] <-> l = [].
Proof.
  split; [|now intros ->].
  intros H. pose proof (sort_perm l) as P. rewrite H in P.
  now apply Permutation_nil.
Qed.

Lemma sort_length l : List.length (JsArray.sort cmp l) = List.length l.
Proof. apply Permutation_length, sort_perm. Qed.

(** Sorting by a key, largest first. *)
Variable key : A -> R.
Hypothesis cmp_key : forall a b, cmp a b = key b - key a.

Lemma insert_descending x s :
  JsArray.descending key s -> JsArray.descending key (JsArray.insert cmp x s).
Proof.
  unfold JsArray.descending. induction 1 as [|y s Hs IH Hy]; simpl.
  - repeat constructor.
  - destruct (Rle_dec (cmp x y) 0) as [Hle|Hgt]; rewrite cmp_key in *.
    + constructor; [now constructor|].
      constructor; [lra|].
      rewrite Forall_forall in *. intros z Hz. specialize (Hy z Hz). lra.
    + constructor; [assumption|].
      rewrite Forall_forall in *. intros z Hz.
      apply (Permutation_in _ (insert_perm x s)) in Hz.
      destruct Hz as [<-|Hz]; [lra|auto].
Qed.

Lemma sort_descending l : JsArray.descending key (JsArray.sort cmp l).
Proof.
  induction l as [|x l IH]; simpl; [constructor|].
  now apply insert_descending.
Qed.

Lemma insert_head x s :
  Forall (fun z => key z <= key x) s -> JsArray.insert cmp x s = x :: s.
Proof.
  destruct s as [|y s]; simpl; [reflexivity|].
  intros H. inversion H; subst.
  destruct (Rle_dec (cmp x y) 0) as [Hle|Hgt]; [reflexivity|].
  rewrite cmp_key in Hgt. lra.
Qed.

Lemma filter_insert (p : A -> bool) x s :
  JsArray.descending key s ->
  filter p (JsArray.insert cmp x s) =
  if p x then JsArray.insert cmp x (filter p s) else filter p s.
Proof.
  unfold JsArray.descending. induction 1 as [|y s Hs IH Hy]; simpl.
  - now destruct (p x).
  - destruct (Rle_dec (cmp x y) 0) as [Hle|Hgt].
    + rewrite cmp_key in Hle. simpl.
      destruct (p x) eqn:Px; [|reflexivity].
      change (if p y then y :: filter p s else filter p s)
        with (filter p (y :: s)).
      symmetry. apply insert_head.
      apply Forall_forall. intros z Hz. apply filter_In in Hz.
      destruct Hz as [[<-|Hz] _]; [lra|].
      rewrite Forall_forall in Hy. specialize (Hy z Hz). lra.
    + simpl. rewrite IH.
      destruct (p y) eqn:Py, (p x) eqn:Px; simpl; try reflexivity.
      destruct (Rle_dec (cmp x y) 0); [contradiction|reflexivity].
Qed.

Lemma filter_sort (p : A -> bool) l :
  filter p (JsArray.sort cmp l) = JsArray.sort cmp (filter p l).
Proof.
  induction l as [|x l IH]; simpl; [reflexivity|].
  rewrite filter_insert by apply sort_descending.
  rewrite IH. now destruct (p x).
Qed.
End SortFacts.

Lemma sort_map {A B : Type} (cmpA : A -> A -> R) (cmpB : B -> B -> R)
      (f : A -> B) (l : list A) :
  (forall a b, cmpB (f a) (f b) = cmpA a b) ->
  JsArray.sort cmpB (map f l) = map f (JsArray.sort cmpA l).
Proof.
  intros Hf.
  assert (Hins : forall x s, JsArray.insert cmpB (f x) (map f s)
                             = map f (JsArray.insert cmpA x s)).
  { intros x s. induction s as [|y s IH]; simpl; [reflexivity|].
    rewrite Hf. destruct (Rle_dec (cmpA x y) 0); simpl; [reflexivity|].
    now rewrite IH. }
  induction l as [|x l IH]; simpl; [reflexivity|].
  now rewrite IH, Hins.
Qed.

(** ** The scoring loop of the draft page, in closed form *)

Section DraftPageLoop.
Import DraftPage.

Lemma pctToLogOdds_spec wr :
  pctToLogOdds wr = Spec.logOdds (Spec.clampedProb wr).
Proof. reflexivity. Qed.

Lemma logOddsToPct_spec lo : logOddsToPct lo = 100 / (1 + exp (- lo)).
Proof.
  unfold logOddsToPct. pose proof (exp_pos (- lo)). field. lra.
Qed.

Lemma fold_stepEnemy oppMap es a :
  fold_left (stepEnemy oppMap) es a =
  mkAcc (weightedSum a
         + Spec.sumOver (fun p => fst p * pctToLogOdds (snd p))
                        (Spec.matched oppMap es))
        (weightTotal a + Spec.matchedWeight (Spec.matched oppMap es))
        (perEnemyAcc a ++ Spec.breakdown oppMap (map w_enemy es)).
Proof.
  revert a. induction es as [|e es IH]; intros a; simpl.
  - destruct a; simpl. rewrite app_nil_r. f_equal; unfold Spec.matchedWeight; simpl; lra.
  - rewrite IH. unfold stepEnemy, Spec.matchedWeight.
    destruct (JsObject.get oppMap (w_enemy e)) as [wr|]; simpl;
      rewrite <- app_assoc; simpl; f_equal; lra.
Qed.

Lemma scanEnemies_closed oppMap es :
  scanEnemies oppMap es =
  mkAcc (Spec.sumOver (fun p => fst p * pctToLogOdds (snd p))
                      (Spec.matched oppMap es))
        (Spec.matchedWeight (Spec.matched oppMap es))
        (Spec.breakdown oppMap (map w_enemy es)).
Proof.
  unfold scanEnemies. rewrite fold_stepEnemy. simpl. f_equal; [lra|lra].
Qed.

Lemma stepHero_app es eset out entry :
  stepHero es eset out entry = out ++ stepHero es eset [] entry.
Proof.
  unfold stepHero. destruct entry as [h om].
  destruct (JsArray.has eset h); [now rewrite app_nil_r|].
  destruct (Rle_dec _ 0); [now rewrite app_nil_r|reflexivity].
Qed.

Lemma fold_stepHero es eset entries out :
  fold_left (stepHero es eset) entries out =
  out ++ flat_map (stepHero es eset []) entries.
Proof.
  revert out. induction entries as [|en entries IH]; intros out; simpl.
  - now rewrite app_nil_r.
  - rewrite IH, (stepHero_app es eset out en). now rewrite <- app_assoc.
Qed.

Lemma candidates_closed data es :
  candidates data es = flat_map (stepHero es (map w_enemy es) []) data.
Proof. unfold candidates. now rewrite fold_stepHero. Qed.

(** The result a dataset entry yields when it yields one. *)
Lemma stepHero_single es h om :
  stepHero es (map w_enemy es) [] (h, om) =
  if JsArray.has (map w_enemy es) h then []
  else if Rle_dec (Spec.matchedWeight (Spec.matched om es)) 0 then []
       else [mkResult h (Spec.combinedScore (Spec.matched om es))
                      (Spec.breakdown om (map w_enemy es))].
Proof.
  unfold stepHero. rewrite scanEnemies_closed. simpl.
  destruct (JsArray.has _ h); [reflexivity|].
  destruct (Rle_dec _ 0); [reflexivity|].
  now rewrite logOddsToPct_spec.
Qed.

Lemma In_candidates data es r :
  In r (candidates data es) <->
  exists h om,
    In (h, om) data /\ ~ In h (map w_enemy es) /\
    0 < Spec.matchedWeight (Spec.matched om es) /\
    r = mkResult h (Spec.combinedScore (Spec.matched om es))
                 (Spec.breakdown om (map w_enemy es)).
Proof.
  rewrite candidates_closed, in_flat_map. split.
  - intros [[h om] [Hin Hr]]. rewrite stepHero_single in Hr.
    destruct (JsArray.has _ h) eqn:Hh; [contradiction|].
    destruct (Rle_dec _ 0) as [|Hw]; [contradiction|].
    destruct Hr as [<-|[]]. exists h, om.
    apply has_false_In in Hh. repeat split; try assumption. lra.
  - intros (h & om & Hin & Hh & Hw & ->). exists (h, om). split; [assumption|].
    rewrite stepHero_single. apply has_false_In in Hh. rewrite Hh.
    destruct (Rle_dec _ 0); [lra|now left].
Qed.

Lemma enemiesOf_slugs picks :
  map w_enemy (enemiesOf picks) = Spec.selectedHeroes picks.
Proof.
  unfold enemiesOf, Spec.selectedHeroes, isHero, heroSlug.
  induction picks as [|p picks IH]; simpl; [reflexivity|].
  destruct (pick_hero p) eqn:E; simpl; rewrite ?E, IH; reflexivity.
Qed.

Lemma In_candidateResults data picks r :
  In r (candidateResults data picks) ->
  In r (candidates data (enemiesOf picks)).
Proof.
  unfold candidateResults, useCounterResults.
  destruct (selectedEnemySlugs picks); [contradiction|].
  apply In_sort.
Qed.

Lemma selectedEnemySlugs_incl picks s :
  In s (selectedEnemySlugs picks) -> In s (Spec.selectedHeroes picks).
Proof.
  unfold selectedEnemySlugs, Spec.selectedHeroes.
  induction picks as [|p picks IH]; simpl; [tauto|].
  rewrite !in_app_iff. intros [H|H]; [left|right; auto].
  destruct (pick_hero p); simpl in *; [|assumption].
  destruct (truthy _); [assumption|contradiction].
Qed.

End DraftPageLoop.

(** ** The scoring loop of the previous module, in closed form *)

Section LogicLoop.
Import Logic.

Lemma fold_stepEnemyV2 oppMap es a :
  fold_left (stepEnemy oppMap) es a =
  mkAcc (lsum a
         + Spec.sumOver (fun p => fst p * Rmax 0 (Rmin 1 (snd p / 100)))
                        (Spec.matchedV2 oppMap es))
        (wsum a + Spec.matchedWeight (Spec.matchedV2 oppMap es))
        (perEnemyAcc a ++ Spec.breakdownV2 oppMap (map slug es)).
Proof.
  revert a. induction es as [|e es IH]; intros a; simpl.
  - destruct a; simpl. rewrite app_nil_r.
    f_equal; unfold Spec.matchedWeight; simpl; lra.
  - rewrite IH. unfold stepEnemy, Spec.matchedWeight, clamp.
    destruct (JsObject.get oppMap (slug e)) as [rec|]; simpl;
      rewrite <- app_assoc; simpl; f_equal; lra.
Qed.

Lemma scanEnemiesV2_closed oppMap es :
  scanEnemies oppMap es =
  mkAcc (Spec.sumOver (fun p => fst p * Rmax 0 (Rmin 1 (snd p / 100)))
                      (Spec.matchedV2 oppMap es))
        (Spec.matchedWeight (Spec.matchedV2 oppMap es))
        (Spec.breakdownV2 oppMap (map slug es)).
Proof.
  unfold scanEnemies. rewrite fold_stepEnemyV2. simpl. f_equal; lra.
Qed.

Lemma stepHeroV2_single data es h :
  stepHero data es (map slug es) [] h =
  if JsArray.has (map slug es) h then []
  else if Rle_dec (Spec.matchedWeight
                     (Spec.matchedV2 (oppMapOf data h) es)) 0 then []
       else [mkResult h (Spec.rawAverage (Spec.matchedV2 (oppMapOf data h) es))
                      (Spec.breakdownV2 (oppMapOf data h) (map slug es)) 0].
Proof.
  unfold stepHero. rewrite scanEnemiesV2_closed. simpl.
  destruct (JsArray.has _ h); [reflexivity|].
  destruct (Rle_dec _ 0); reflexivity.
Qed.

Lemma stepHeroV2_app data es eset out h :
  stepHero data es eset out h = out ++ stepHero data es eset [] h.
Proof.
  unfold stepHero.
  destruct (JsArray.has eset h); [now rewrite app_nil_r|].
  destruct (Rle_dec _ 0); [now rewrite app_nil_r|reflexivity].
Qed.

Lemma fold_stepHeroV2 data es eset hs out :
  fold_left (stepHero data es eset) hs out =
  out ++ flat_map (stepHero data es eset []) hs.
Proof.
  revert out. induction hs as [|h hs IH]; intros out; simpl.
  - now rewrite app_nil_r.
  - rewrite IH, (stepHeroV2_app data es eset out h). now rewrite <- app_assoc.
Qed.

Lemma In_candidatesV2 data es r :
  In r (candidates data es) <->
  exists h,
    In h (JsObject.keys data) /\ ~ In h (map slug es) /\
    0 < Spec.matchedWeight (Spec.matchedV2 (oppMapOf data h) es) /\
    r = mkResult h (Spec.rawAverage (Spec.matchedV2 (oppMapOf data h) es))
                 (Spec.breakdownV2 (oppMapOf data h) (map slug es)) 0.
Proof.
  unfold candidates. rewrite fold_stepHeroV2. simpl. rewrite in_flat_map. split.
  - intros [h [Hin Hr]]. rewrite stepHeroV2_single in Hr.
    destruct (JsArray.has _ h) eqn:Hh; [contradiction|].
    destruct (Rle_dec _ 0) as [|Hw]; [contradiction|].
    destruct Hr as [<-|[]]. exists h.
    apply has_false_In in Hh. repeat split; try assumption. lra.
  - intros (h & Hin & Hh & Hw & ->). exists h. split; [assumption|].
    rewrite stepHeroV2_single. apply has_false_In in Hh. rewrite Hh.
    destruct (Rle_dec _ 0); [lra|now left].
Qed.

Lemma In_scoreCandidates data es r :
  In r (scoreCandidates data es) <-> In r (candidates data es).
Proof. apply In_sort. Qed.

End LogicLoop.

(** ** Weights that cannot add up to a positive total *)

Lemma matchedWeight_nonpos om es :
  (forall e, In e es -> DraftPage.weight e <= 0) ->
  Spec.matchedWeight (Spec.matched om es) <= 0.
Proof.
  unfold Spec.matchedWeight. induction es as [|e es IH]; intros H; simpl; [lra|].
  assert (He : DraftPage.weight e <= 0) by (apply H; now left).
  assert (IH' : Spec.sumOver fst (Spec.matched om es) <= 0)
    by (apply IH; intros; apply H; now right).
  destruct (JsObject.get om (DraftPage.w_enemy e)); simpl; lra.
Qed.

Lemma matched_nil om es :
  (forall e, In e es -> JsObject.get om (DraftPage.w_enemy e) = None) ->
  Spec.matched om es = [].
Proof.
  induction es as [|e es IH]; intros H; simpl; [reflexivity|].
  rewrite (H e) by now left. simpl. apply IH. intros; apply H; now right.
Qed.

Lemma In_enemiesOf picks e :
  In e (DraftPage.enemiesOf picks) ->
  exists p h, In p picks /\ DraftPage.pick_hero p = Some h /\
              DraftPage.w_enemy e = DraftPage.slug h /\
              DraftPage.weight e = DraftPage.pick_weight p.
Proof.
  unfold DraftPage.enemiesOf. rewrite in_map_iff.
  intros [p [<- Hp]]. apply filter_In in Hp. destruct Hp as [Hp Hh].
  unfold DraftPage.isHero, DraftPage.heroSlug in *.
  destruct (DraftPage.pick_hero p) as [h|] eqn:E; [|discriminate].
  exists p, h. simpl. now rewrite E.
Qed.

Lemma In_selectedHeroes picks s :
  In s (Spec.selectedHeroes picks) <->
  exists p h, In p picks /\ DraftPage.pick_hero p = Some h /\ DraftPage.slug h = s.
Proof.
  unfold Spec.selectedHeroes. rewrite in_flat_map. split.
  - intros [p [Hp Hs]]. destruct (DraftPage.pick_hero p) as [h|] eqn:E.
    + destruct Hs as [<-|[]]. now exists p, h.
    + contradiction.
  - intros (p & h & Hp & E & <-). exists p. rewrite E. split; [assumption|now left].
Qed.

Lemma no_element_nil {A : Type} (l : list A) : (forall x, ~ In x l) -> l = [].
Proof.
  destruct l as [|x l]; [reflexivity|]. intros H. exfalso. apply (H x). now left.
Qed.

(** ** The claims *)

(** C2. Exclusion: a hero selected in a non-empty slot is never among the
    candidates the scoring returns; the same holds for the enemies passed to
    the previous module's [scoreCandidates]. *)
Theorem C2_selected_enemy_is_never_a_candidate :
  (forall (data : DraftPage.Dataset) (picks : list DraftPage.EnemyPick)
          (p : DraftPage.EnemyPick) (h : DraftPage.Hero)
          (r : DraftPage.CounterResult),
      In p picks -> DraftPage.pick_hero p = Some h ->
      In r (DraftPage.candidateResults data picks) ->
      DraftPage.hero r <> DraftPage.slug h)
  /\
  (forall (data : Logic.DataV2) (enemies : list Logic.EnemyPick)
          (e : Logic.EnemyPick) (r : Logic.Result),
      In e enemies -> In r (Logic.scoreCandidates data enemies) ->
      Logic.hero r <> Logic.slug e).
Proof.
  split.
  - intros data picks p h r Hp Hh Hr.
    apply In_candidateResults, In_candidates in Hr.
    destruct Hr as (h' & om & _ & Hni & _ & ->). simpl.
    intros ->. apply Hni. rewrite enemiesOf_slugs.
    apply In_selectedHeroes. now exists p, h.
  - intros data enemies e r He Hr.
    apply In_scoreCandidates, In_candidatesV2 in Hr.
    destruct Hr as (h' & _ & Hni & _ & ->). simpl.
    intros ->. apply Hni. now apply in_map.
Qed.

(** ** Evaluating the embedding on sample data *)

(** Unfold the program, keeping real arithmetic symbolic. *)
Ltac unfold_program :=
  cbv - [Rplus Rmult Rminus Rdiv Ropp Rinv IZR ln exp Rmax Rmin
         Rle Rlt Rge Rgt Rle_dec Req_dec_T
         DraftPage.pctToLogOdds DraftPage.logOddsToPct].

(** Settle the comparisons of reals the program makes. *)
Ltac settle_tests :=
  repeat match goal with
         | |- context [Rle_dec ?a ?b] =>
             destruct (Rle_dec a b); [try (exfalso; lra)|try (exfalso; lra)]
         end.

Ltac run_program := unfold_program; settle_tests.

Lemma clamp_inside x lo hi :
  lo <= x <= hi -> DraftPage.clamp x lo hi = x.
Proof.
  intros [H1 H2]. unfold DraftPage.clamp.
  rewrite (Rmin_right hi x) by assumption. now apply Rmax_right.
Qed.

(** Round trip: inside the clamp, converting a percentage to log-odds and
    back gives the percentage again. *)
Lemma logOdds_roundtrip p :
  0.5 <= p <= 99.5 -> DraftPage.logOddsToPct (DraftPage.pctToLogOdds p) = p.
Proof.
  intros Hp. unfold DraftPage.logOddsToPct, DraftPage.pctToLogOdds.
  rewrite clamp_inside by lra.
  rewrite exp_Ropp, exp_ln.
  - field. lra.
  - apply Rdiv_lt_0_compat; lra.
Qed.

(** A single matched enemy gives back its own winrate. *)
Lemma score_single w p :
  w <> 0 -> 0.5 <= p <= 99.5 ->
  DraftPage.logOddsToPct ((0 + w * DraftPage.pctToLogOdds p) / (0 + w)) = p.
Proof.
  intros Hw Hp.
  replace ((0 + w * DraftPage.pctToLogOdds p) / (0 + w))
    with (DraftPage.pctToLogOdds p) by (field; lra).
  now apply logOdds_roundtrip.
Qed.

Lemma jugData_results :
  DraftPage.candidateResults Example.jugData Example.axeOnly = [Example.jugRow].
Proof.
  run_program. rewrite score_single by lra. reflexivity.
Qed.

Lemma data_candidates_axe :
  DraftPage.candidates Example.data (DraftPage.enemiesOf Example.axeAndEmpty)
  = [Example.jugRow; Example.zeusRow].
Proof.
  run_program. rewrite !score_single by lra. reflexivity.
Qed.

Lemma data_results_axe :
  DraftPage.candidateResults Example.data Example.axeAndEmpty
  = [Example.jugRow; Example.zeusRow].
Proof.
  unfold DraftPage.candidateResults, DraftPage.useCounterResults. cbv zeta.
  rewrite data_candidates_axe. run_program. reflexivity.
Qed.

Lemma data_results_zeus0 :
  DraftPage.candidateResults Example.data Example.axeAndZeus0
  = [Example.jugRowZeus0].
Proof.
  run_program.
  replace ((0 + 1 * DraftPage.pctToLogOdds 55 + 0 * DraftPage.pctToLogOdds 40)
           / (0 + 1 + 0))
    with (DraftPage.pctToLogOdds 55) by field.
  rewrite logOdds_roundtrip by lra. reflexivity.
Qed.

Lemma C2_witness :
  DraftPage.hero Example.jugRow <> DraftPage.slug Example.axe.
Proof.
  apply (proj1 C2_selected_enemy_is_never_a_candidate
               Example.jugData Example.axeOnly
               (DraftPage.mkPick (Some Example.axe) 1) Example.axe).
  - now left.
  - reflexivity.
  - rewrite jugData_results. now left.
Defined.

Lemma breakdown_entries om slugs pe :
  In pe (Spec.breakdown om slugs) ->
  In (DraftPage.enemy pe) slugs /\
  DraftPage.winrate pe = JsObject.get om (DraftPage.enemy pe).
Proof.
  unfold Spec.breakdown. rewrite in_map_iff. intros [s [<- Hs]]. now split.
Qed.

Lemma breakdownV2_entries om slugs pe :
  In pe (Spec.breakdownV2 om slugs) ->
  In (Logic.enemy pe) slugs /\
  Logic.winrate pe =
  option_map Logic.rec_winrate (JsObject.get om (Logic.enemy pe)).
Proof.
  unfold Spec.breakdownV2. rewrite in_map_iff. intros [s [<- Hs]]. now split.
Qed.

(** C10. Every returned result carries one breakdown entry per non-empty
    enemy slot, in slot order; the entry's winrate is the dataset's recorded
    winrate when the hero has a record against that enemy and the null
    marker exactly when it has none.  The previous module does the same for
    the enemies it is given. *)
Theorem C10_breakdown_has_one_entry_per_selected_enemy :
  (forall (data : DraftPage.Dataset) (picks : list DraftPage.EnemyPick)
          (r : DraftPage.CounterResult),
      In r (DraftPage.candidateResults data picks) ->
      exists oppMap : DraftPage.OppMap,
        In (DraftPage.hero r, oppMap) (JsObject.entries data) /\
        (JsObject.wf data ->
         JsObject.get data (DraftPage.hero r) = Some oppMap) /\
        DraftPage.perEnemy r =
          map (fun s => DraftPage.mkPerEnemy s (JsObject.get oppMap s))
              (Spec.selectedHeroes picks) /\
        (forall pe, In pe (DraftPage.perEnemy r) ->
           (DraftPage.winrate pe = None <->
            ~ In (DraftPage.enemy pe) (JsObject.keys oppMap)) /\
           (forall wr, DraftPage.winrate pe = Some wr ->
                       In (DraftPage.enemy pe, wr) oppMap)))
  /\
  (forall (data : Logic.DataV2) (enemies : list Logic.EnemyPick)
          (r : Logic.Result),
      In r (Logic.scoreCandidates data enemies) ->
      let oppMap := Logic.oppMapOf data (Logic.hero r) in
      Logic.perEnemy r =
        map (fun s => Logic.mkPerEnemy
                        s (option_map Logic.rec_winrate (JsObject.get oppMap s)))
            (map Logic.slug enemies) /\
      (forall pe, In pe (Logic.perEnemy r) ->
         (Logic.winrate pe = None <->
          ~ In (Logic.enemy pe) (JsObject.keys oppMap)) /\
         (forall wr, Logic.winrate pe = Some wr ->
            exists rec, In (Logic.enemy pe, rec) oppMap /\
                        Logic.rec_winrate rec = wr))).
Proof.
  split.
  - intros data picks r Hr.
    apply In_candidateResults, In_candidates in Hr.
    destruct Hr as (h & om & Hin & _ & _ & ->). simpl.
    exists om. rewrite enemiesOf_slugs. repeat split.
    + assumption.
    + intros Hwf. now apply In_wf_get.
    + apply breakdown_entries in H. destruct H as [_ ->].
      apply get_None_not_key.
    + apply breakdown_entries in H. destruct H as [_ ->].
      apply get_None_not_key.
    + intros wr Hwr. apply breakdown_entries in H. destruct H as [_ E].
      rewrite E in Hwr. now apply get_In.
  - intros data enemies r Hr oppMap.
    apply In_scoreCandidates, In_candidatesV2 in Hr.
    destruct Hr as (h & _ & _ & _ & ->). simpl in *. subst oppMap.
    split; [reflexivity|]. intros pe Hpe.
    apply breakdownV2_entries in Hpe. destruct Hpe as [_ E]. rewrite E.
    destruct (JsObject.get (Logic.oppMapOf data h) (Logic.enemy pe)) as [rec|] eqn:G;
      simpl.
    + split.
      * split; [discriminate|]. intros Hn. apply get_None_not_key in Hn. congruence.
      * intros wr [= <-]. exists rec. split; [now apply get_In|reflexivity].
    + split; [|discriminate].
      split; [intros _; now apply get_None_not_key|reflexivity].
Qed.

Lemma C10_witness :
  exists oppMap : DraftPage.OppMap,
    In ("juggernaut"%string, oppMap) (JsObject.entries Example.jugData) /\
    [DraftPage.mkPerEnemy "axe" (Some 55)] =
      map (fun s => DraftPage.mkPerEnemy s (JsObject.get oppMap s))
          (Spec.selectedHeroes Example.axeOnly).
Proof.
  destruct (proj1 C10_breakdown_has_one_entry_per_selected_enemy
                  Example.jugData Example.axeOnly
                  Example.jugRow)
    as (om & Hin & _ & Hpe & _).
  - rewrite jugData_results. now left.
  - exists om. split; assumption.
Defined.

(** C6. Zero-weight elimination: a hero whose accumulated [weightTotal] over
    the selected enemies is not positive is absent from the results; so is,
    in the previous module, a hero whose [wsum] is not positive. *)
Theorem C6_nonpositive_weight_total_is_absent :
  (forall (data : DraftPage.Dataset) (picks : list DraftPage.EnemyPick)
          (H : string) (oppMap : DraftPage.OppMap),
      JsObject.wf data ->
      JsObject.get data H = Some oppMap ->
      DraftPage.weightTotal
        (DraftPage.scanEnemies oppMap (DraftPage.enemiesOf picks)) <= 0 ->
      forall r, In r (DraftPage.candidateResults data picks) ->
                DraftPage.hero r <> H)
  /\
  (forall (data : Logic.DataV2) (enemies : list Logic.EnemyPick) (H : string),
      Logic.wsum
        (Logic.scanEnemies (Logic.oppMapOf data H) enemies) <= 0 ->
      forall r, In r (Logic.scoreCandidates data enemies) ->
                Logic.hero r <> H).
Proof.
  split.
  - intros data picks H oppMap Hwf Hget Hw r Hr.
    rewrite scanEnemies_closed in Hw. simpl in Hw.
    apply In_candidateResults, In_candidates in Hr.
    destruct Hr as (h & om & Hin & _ & Hpos & ->). simpl. intros ->.
    apply (In_wf_get _ _ _ Hwf) in Hin.
    rewrite Hin in Hget. injection Hget as ->. lra.
  - intros data enemies H Hw r Hr.
    rewrite scanEnemiesV2_closed in Hw. simpl in Hw.
    apply In_scoreCandidates, In_candidatesV2 in Hr.
    destruct Hr as (h & _ & _ & Hpos & ->). simpl. intros ->. lra.
Qed.

(** C7. With no non-empty slot of positive weight the scoring returns the
    empty sequence, and so it does when no hero of the dataset has a record
    against any selected enemy; the function is total, so either way the
    empty sequence is an ordinary value. *)
Theorem C7_empty_result_is_a_normal_output :
  (forall (data : DraftPage.Dataset) (picks : list DraftPage.EnemyPick),
      (forall p, In p picks -> DraftPage.pick_hero p <> None ->
                 DraftPage.pick_weight p <= 0) ->
      DraftPage.candidateResults data picks = [])
  /\
  (forall (data : DraftPage.Dataset) (picks : list DraftPage.EnemyPick),
      (forall H oppMap s,
          In (H, oppMap) (JsObject.entries data) ->
          In s (Spec.selectedHeroes picks) ->
          JsObject.get oppMap s = None) ->
      DraftPage.candidateResults data picks = []).
Proof.
  split; intros data picks Hyp; apply no_element_nil; intros r Hr;
    apply In_candidateResults, In_candidates in Hr;
    destruct Hr as (h & om & Hin & _ & Hpos & _).
  - assert (Spec.matchedWeight (Spec.matched om (DraftPage.enemiesOf picks)) <= 0);
      [|lra].
    apply matchedWeight_nonpos. intros e He.
    apply In_enemiesOf in He. destruct He as (p & h' & Hp & Hh & _ & ->).
    apply Hyp; [assumption|congruence].
  - rewrite matched_nil in Hpos; [unfold Spec.matchedWeight in Hpos; simpl in Hpos; lra|].
    intros e He. apply (Hyp h om); [assumption|].
    rewrite <- enemiesOf_slugs. now apply in_map.
Qed.

Ltac prove_wf :=
  unfold JsObject.wf; cbv [JsObject.keys map fst];
  repeat (constructor; [simpl; intuition discriminate|]); constructor.

Lemma C6_witness : DraftPage.hero Example.jugRow <> "lina"%string.
Proof.
  apply (proj1 C6_nonpositive_weight_total_is_absent
               Example.data Example.axeAndEmpty "lina"%string
               [("zeus"%string, 50)]).
  - unfold Example.data. prove_wf.
  - reflexivity.
  - run_program. lra.
  - rewrite data_results_axe. now left.
Defined.

Lemma C7_witness :
  DraftPage.candidateResults Example.data Example.emptyAndAxe0 = [] /\
  DraftPage.candidateResults Example.jugData Example.zeusOnly = [].
Proof.
  split.
  - apply (proj1 C7_empty_result_is_a_normal_output).
    intros p [<-|[<-|[]]] Hh; simpl in *; [congruence|lra].
  - apply (proj2 C7_empty_result_is_a_normal_output).
    intros H om s [[= <- <-]|[]] [<-|[]]. reflexivity.
Defined.

(** C1. Every returned candidate has positive matched weight, and its
    combined score is [100 / (1 + exp (- L))] with [L] the weighted mean,
    over the selected enemies it has a record against, of the log-odds of
    the clamped winrates.  With juggernaut at 55 against axe and axe picked
    at weight 1, juggernaut is the one result and scores 55. *)
Theorem C1_combined_score_is_logistic_of_mean_log_odds :
  (forall (data : DraftPage.Dataset) (picks : list DraftPage.EnemyPick)
          (r : DraftPage.CounterResult),
      In r (DraftPage.candidateResults data picks) ->
      exists oppMap : DraftPage.OppMap,
        In (DraftPage.hero r, oppMap) (JsObject.entries data) /\
        (JsObject.wf data ->
         JsObject.get data (DraftPage.hero r) = Some oppMap) /\
        let m := Spec.matched oppMap (DraftPage.enemiesOf picks) in
        0 < Spec.sumOver fst m /\
        DraftPage.combined r =
          100 / (1 + exp (- (Spec.sumOver
                               (fun p => fst p *
                                         ln (Spec.clampedProb (snd p)
                                             / (1 - Spec.clampedProb (snd p))))
                               m
                             / Spec.sumOver fst m))))
  /\
  (exists r,
      DraftPage.candidateResults Example.jugData Example.axeOnly = [r] /\
      DraftPage.hero r = "juggernaut"%string /\
      DraftPage.combined r = 55).
Proof.
  split.
  - intros data picks r Hr.
    apply In_candidateResults, In_candidates in Hr.
    destruct Hr as (h & om & Hin & _ & Hpos & ->). simpl.
    exists om. repeat split; try assumption.
    intros Hwf. now apply In_wf_get.
  - exists Example.jugRow. split; [apply jugData_results|split; reflexivity].
Qed.

Lemma C1_witness :
  exists oppMap : DraftPage.OppMap,
    In ("zeus"%string, oppMap) (JsObject.entries Example.data) /\
    0 < Spec.sumOver fst
          (Spec.matched oppMap (DraftPage.enemiesOf Example.axeAndEmpty)) /\
    48 = Spec.combinedScore
           (Spec.matched oppMap (DraftPage.enemiesOf Example.axeAndEmpty)).
Proof.
  destruct (proj1 C1_combined_score_is_logistic_of_mean_log_odds
                  Example.data Example.axeAndEmpty Example.zeusRow)
    as (om & Hin & _ & Hpos & Hc).
  - rewrite data_results_axe. right. now left.
  - exists om. repeat split; assumption.
Defined.

(** ** Looking a hero up in the results *)

Lemma candidates_hero_key data es r :
  In r (DraftPage.candidates data es) ->
  In (DraftPage.hero r) (JsObject.keys data).
Proof.
  intros Hr. apply In_candidates in Hr.
  destruct Hr as (h & om & Hin & _ & _ & ->). simpl.
  unfold JsObject.keys. apply in_map_iff. now exists (h, om).
Qed.

Lemma candidates_cons en data es :
  DraftPage.candidates (en :: data) es =
  DraftPage.stepHero es (map DraftPage.w_enemy es) [] en
  ++ DraftPage.candidates data es.
Proof. now rewrite !candidates_closed. Qed.

Lemma candidates_NoDup data es :
  JsObject.wf data -> NoDup (map DraftPage.hero (DraftPage.candidates data es)).
Proof.
  unfold JsObject.wf. induction data as [|[h om] data IH]; intros Hwf.
  - constructor.
  - simpl in Hwf. inversion Hwf as [|? ? Hni Hnd]; subst.
    rewrite candidates_cons, stepHero_single.
    destruct (JsArray.has _ h); [now apply IH|].
    destruct (Rle_dec _ 0); [now apply IH|].
    simpl. constructor; [|now apply IH].
    intros Hin. apply in_map_iff in Hin. destruct Hin as (r & Hh & Hr).
    apply candidates_hero_key in Hr. rewrite Hh in Hr. contradiction.
Qed.

Lemma find_hero_unique H (l : list DraftPage.CounterResult) r :
  NoDup (map DraftPage.hero l) -> In r l -> DraftPage.hero r = H ->
  find (fun x => String.eqb (DraftPage.hero x) H) l = Some r.
Proof.
  induction l as [|x l IH]; simpl; [tauto|].
  intros Hnd [->|Hin] Hh; inversion Hnd as [|? ? Hni Hnd']; subst.
  - now rewrite String.eqb_refl.
  - destruct (String.eqb (DraftPage.hero x) (DraftPage.hero r)) eqn:E.
    + apply String.eqb_eq in E. exfalso. apply Hni. rewrite E. now apply in_map.
    + now apply IH.
Qed.

Lemma find_hero_none H (l : list DraftPage.CounterResult) :
  (forall r, In r l -> DraftPage.hero r <> H) ->
  find (fun x => String.eqb (DraftPage.hero x) H) l = None.
Proof.
  induction l as [|x l IH]; simpl; [reflexivity|]. intros Hall.
  destruct (String.eqb (DraftPage.hero x) H) eqn:E.
  - apply String.eqb_eq in E. exfalso. apply (Hall x); auto.
  - apply IH. intros r Hr. apply Hall. now right.
Qed.

(** The score of a dataset hero, read off the closed form of the loop. *)
Lemma scoreOf_closed data picks H om :
  JsObject.wf data -> JsObject.get data H = Some om ->
  DraftPage.selectedEnemySlugs picks <> [] ->
  Spec.scoreOf H (DraftPage.candidateResults data picks) =
  let m := Spec.matched om (DraftPage.enemiesOf picks) in
  if JsArray.has (Spec.selectedHeroes picks) H then None
  else if Rle_dec (Spec.matchedWeight m) 0 then None
       else Some (Spec.combinedScore m).
Proof.
  intros Hwf Hget Hsel. unfold Spec.scoreOf, DraftPage.candidateResults,
    DraftPage.useCounterResults.
  destruct (DraftPage.selectedEnemySlugs picks) as [|s ss]; [congruence|].
  cbv zeta. set (es := DraftPage.enemiesOf picks).
  set (res := JsArray.sort _ _).
  assert (Hnd : NoDup (map DraftPage.hero res)).
  { apply (Permutation_NoDup (l := map DraftPage.hero (DraftPage.candidates data es))).
    - apply Permutation_map. symmetry. apply sort_perm.
    - now apply candidates_NoDup. }
  assert (Hin : forall r, In r res <-> In r (DraftPage.candidates data es))
    by (intros r; apply In_sort).
  rewrite <- enemiesOf_slugs. fold es.
  destruct (JsArray.has (map DraftPage.w_enemy es) H) eqn:Hh.
  - rewrite find_hero_none; [reflexivity|].
    intros r Hr. apply Hin, In_candidates in Hr.
    destruct Hr as (h & om' & _ & Hni & _ & ->). simpl. intros ->.
    apply has_In in Hh. contradiction.
  - destruct (Rle_dec _ 0) as [Hle|Hgt].
    + rewrite find_hero_none; [reflexivity|].
      intros r Hr. apply Hin, In_candidates in Hr.
      destruct Hr as (h & om' & Hi & _ & Hpos & ->). simpl. intros ->.
      apply (In_wf_get _ _ _ Hwf) in Hi. rewrite Hi in Hget.
      injection Hget as ->. lra.
    + rewrite (find_hero_unique H res
                 (DraftPage.mkResult H (Spec.combinedScore (Spec.matched om es))
                    (Spec.breakdown om (map DraftPage.w_enemy es))));
        [reflexivity|assumption| |reflexivity].
      apply Hin, In_candidates. exists H, om.
      apply has_false_In in Hh. repeat split; try assumption.
      * now apply get_In.
      * lra.
Qed.

(** C5. Missing-data renormalisation: when hero [H] has a record against
    enemy [A] and none against enemy [B], both picked at weight 1, the
    combined score of candidate [H] with [A] and [B] selected is its
    combined score with [A] alone selected; when [H] is not [A] itself,
    that score is the one its record against [A] gives. *)
Theorem C5_missing_data_renormalization :
  forall (data : DraftPage.Dataset) (H : string) (oppMap : DraftPage.OppMap)
         (A B : DraftPage.Hero) (wr : R),
    JsObject.wf data ->
    JsObject.get data H = Some oppMap ->
    JsObject.get oppMap (DraftPage.slug A) = Some wr ->
    JsObject.get oppMap (DraftPage.slug B) = None ->
    H <> DraftPage.slug B ->
    DraftPage.slug A <> EmptyString ->
    Spec.scoreOf H (DraftPage.candidateResults data
                      [DraftPage.mkPick (Some A) 1; DraftPage.mkPick (Some B) 1])
    = Spec.scoreOf H (DraftPage.candidateResults data
                        [DraftPage.mkPick (Some A) 1])
    /\
    (H <> DraftPage.slug A ->
     Spec.scoreOf H (DraftPage.candidateResults data
                       [DraftPage.mkPick (Some A) 1])
     = Some (Spec.combinedScore [(1, wr)])).
Proof.
  intros data H oppMap A B wr Hwf Hget HA HB HneB HslugA.
  assert (HtA : truthy (DraftPage.slug A) = true)
    by (destruct (DraftPage.slug A); [congruence|reflexivity]).
  assert (Hm2 : Spec.matched oppMap
                  (DraftPage.enemiesOf
                     [DraftPage.mkPick (Some A) 1; DraftPage.mkPick (Some B) 1])
                = [(1, wr)])
    by (cbn; rewrite HA, HB; reflexivity).
  assert (Hm1 : Spec.matched oppMap
                  (DraftPage.enemiesOf [DraftPage.mkPick (Some A) 1])
                = [(1, wr)])
    by (cbn; rewrite HA; reflexivity).
  assert (HhB : String.eqb H (DraftPage.slug B) = false)
    by now apply String.eqb_neq.
  rewrite !(scoreOf_closed data _ H oppMap Hwf Hget);
    try (cbn; rewrite HtA; discriminate).
  cbv zeta. rewrite Hm1, Hm2.
  unfold JsArray.has. cbn [Spec.selectedHeroes flat_map DraftPage.pick_hero
                           app existsb].
  rewrite HhB, !orb_false_r. split; [reflexivity|].
  intros HneA. apply String.eqb_neq in HneA. rewrite HneA.
  destruct (Rle_dec _ 0) as [Hle|_]; [|reflexivity].
  unfold Spec.matchedWeight in Hle. simpl in Hle. lra.
Qed.

Lemma C5_witness :
  Spec.scoreOf "zeus"
    (DraftPage.candidateResults Example.data
       [DraftPage.mkPick (Some Example.axe) 1;
        DraftPage.mkPick (Some Example.juggernaut) 1])
  = Spec.scoreOf "zeus"
      (DraftPage.candidateResults Example.data
         [DraftPage.mkPick (Some Example.axe) 1]).
Proof.
  apply (C5_missing_data_renormalization
           Example.data "zeus"%string [("axe"%string, 48)]
           Example.axe Example.juggernaut 48).
  - unfold Example.data. prove_wf.
  - reflexivity.
  - reflexivity.
  - reflexivity.
  - discriminate.
  - discriminate.
Defined.

(** ** A slot of weight zero *)

Lemma sumOver_app {A : Type} (f : A -> R) l1 l2 :
  Spec.sumOver f (l1 ++ l2) = Spec.sumOver f l1 + Spec.sumOver f l2.
Proof. induction l1 as [|x l1 IH]; simpl; [lra|rewrite IH; lra]. Qed.

Lemma matched_app om e1 e2 :
  Spec.matched om (e1 ++ e2) = Spec.matched om e1 ++ Spec.matched om e2.
Proof. apply flat_map_app. Qed.

Lemma enemiesOf_app p1 p2 :
  DraftPage.enemiesOf (p1 ++ p2) =
  DraftPage.enemiesOf p1 ++ DraftPage.enemiesOf p2.
Proof. unfold DraftPage.enemiesOf. now rewrite filter_app, map_app. Qed.

Lemma selectedEnemySlugs_app p1 p2 :
  DraftPage.selectedEnemySlugs (p1 ++ p2) =
  DraftPage.selectedEnemySlugs p1 ++ DraftPage.selectedEnemySlugs p2.
Proof. unfold DraftPage.selectedEnemySlugs. now rewrite map_app, flat_map_app. Qed.

Lemma selectedHeroes_app p1 p2 :
  Spec.selectedHeroes (p1 ++ p2) =
  Spec.selectedHeroes p1 ++ Spec.selectedHeroes p2.
Proof. apply flat_map_app. Qed.

Lemma removeAt_middle {A : Type} (l1 l2 : list A) x :
  Spec.removeAt (List.length l1) (l1 ++ x :: l2) = l1 ++ l2.
Proof.
  unfold Spec.removeAt.
  rewrite firstn_app, firstn_all, Nat.sub_diag. simpl. rewrite app_nil_r.
  f_equal. induction l1 as [|y l1 IH]; simpl; [reflexivity|assumption].
Qed.

Lemma has_app xs ys x :
  JsArray.has (xs ++ ys) x = orb (JsArray.has xs x) (JsArray.has ys x).
Proof. unfold JsArray.has. apply existsb_app. Qed.

(** A selected hero of weight zero leaves both sums as they were. *)
Lemma matched_zero_slot om e1 e2 sh :
  let m0 := Spec.matched om (e1 ++ DraftPage.mkEnemy sh 0 :: e2) in
  let mE := Spec.matched om (e1 ++ e2) in
  Spec.matchedWeight m0 = Spec.matchedWeight mE /\
  Spec.combinedScore m0 = Spec.combinedScore mE.
Proof.
  cbv zeta. unfold Spec.combinedScore, Spec.combinedLogOdds, Spec.matchedWeight.
  rewrite !matched_app. change (DraftPage.mkEnemy sh 0 :: e2)
    with ([DraftPage.mkEnemy sh 0] ++ e2).
  rewrite matched_app, !sumOver_app.
  assert (Hw : Spec.sumOver fst (Spec.matched om [DraftPage.mkEnemy sh 0]) = 0)
    by (simpl; destruct (JsObject.get om sh); simpl; lra).
  assert (Hs : Spec.sumOver
                 (fun p => fst p * Spec.logOdds (Spec.clampedProb (snd p)))
                 (Spec.matched om [DraftPage.mkEnemy sh 0]) = 0)
    by (simpl; destruct (JsObject.get om sh); simpl; lra).
  rewrite Hw, Hs, !Rplus_0_l. split; reflexivity.
Qed.

Lemma stepHero_zero_slot om x e1 e2 sh :
  let es0 := e1 ++ DraftPage.mkEnemy sh 0 :: e2 in
  let esE := e1 ++ e2 in
  map (Spec.dropEntry (List.length e1))
      (DraftPage.stepHero es0 (map DraftPage.w_enemy es0) [] (x, om))
  = filter (Spec.isNot sh)
           (DraftPage.stepHero esE (map DraftPage.w_enemy esE) [] (x, om)).
Proof.
  cbv zeta. rewrite !stepHero_single.
  destruct (matched_zero_slot om e1 e2 sh) as [Hw Hs]. rewrite Hw, Hs.
  rewrite !map_app, !has_app. simpl map.
  destruct (JsArray.has (map DraftPage.w_enemy e1) x); [reflexivity|].
  simpl orb.
  destruct (String.eqb x sh) eqn:E.
  - simpl. destruct (JsArray.has _ x); [reflexivity|].
    destruct (Rle_dec _ 0); [reflexivity|].
    simpl. unfold Spec.isNot. simpl. now rewrite E.
  - simpl orb. destruct (JsArray.has _ x); [reflexivity|].
    destruct (Rle_dec _ 0); [reflexivity|].
    simpl. unfold Spec.isNot. simpl. rewrite E. simpl.
    unfold Spec.dropEntry. simpl. f_equal. f_equal.
    unfold Spec.breakdown. rewrite !map_app. simpl map.
    rewrite <- (length_map DraftPage.w_enemy e1).
    rewrite <- (length_map (fun s => DraftPage.mkPerEnemy s (JsObject.get om s))
                           (map DraftPage.w_enemy e1)).
    apply removeAt_middle.
Qed.

Lemma candidates_zero_slot data e1 e2 sh :
  map (Spec.dropEntry (List.length e1))
      (DraftPage.candidates data (e1 ++ DraftPage.mkEnemy sh 0 :: e2))
  = filter (Spec.isNot sh) (DraftPage.candidates data (e1 ++ e2)).
Proof.
  induction data as [|[x om] data IH].
  - reflexivity.
  - rewrite !candidates_cons, map_app, filter_app, IH. f_equal.
    apply stepHero_zero_slot.
Qed.

Lemma candidates_nil_nonpos data es :
  (forall e, In e es -> DraftPage.weight e <= 0) ->
  DraftPage.candidates data es = [].
Proof.
  intros Hw. apply no_element_nil. intros r Hr.
  apply In_candidates in Hr. destruct Hr as (h & om & _ & _ & Hpos & _).
  pose proof (matchedWeight_nonpos om es Hw). lra.
Qed.

Lemma slugsNamed_selected picks :
  Spec.slugsNamed picks ->
  DraftPage.selectedEnemySlugs picks = Spec.selectedHeroes picks.
Proof.
  unfold Spec.slugsNamed, DraftPage.selectedEnemySlugs, Spec.selectedHeroes.
  induction picks as [|p picks IH]; intros Hn; simpl; [reflexivity|].
  rewrite IH by (intros q h Hq; apply Hn; now right). f_equal.
  destruct (DraftPage.pick_hero p) as [h|] eqn:E; simpl; [|reflexivity].
  now rewrite (Hn p h) by (auto; now left).
Qed.

Lemma candidateResults_unfold data picks :
  DraftPage.candidateResults data picks =
  match DraftPage.selectedEnemySlugs picks with
  | [] => []
  | _ :: _ => JsArray.sort DraftPage.byCombinedDesc
                (DraftPage.candidates data (DraftPage.enemiesOf picks))
  end.
Proof. reflexivity. Qed.

Lemma sorted_zero_slot data e1 e2 sh :
  map (Spec.dropEntry (List.length e1))
      (JsArray.sort DraftPage.byCombinedDesc
         (DraftPage.candidates data (e1 ++ DraftPage.mkEnemy sh 0 :: e2)))
  = filter (Spec.isNot sh)
           (JsArray.sort DraftPage.byCombinedDesc
              (DraftPage.candidates data (e1 ++ e2))).
Proof.
  rewrite <- (sort_map DraftPage.byCombinedDesc DraftPage.byCombinedDesc)
    by reflexivity.
  rewrite candidates_zero_slot.
  symmetry. apply (filter_sort _ DraftPage.combined). reflexivity.
Qed.

(** ** The two scoring rules side by side *)

Lemma clampV2_inside x lo hi : lo <= x <= hi -> Logic.clamp x lo hi = x.
Proof.
  intros [H1 H2]. unfold Logic.clamp.
  rewrite (Rmin_right hi x) by assumption. now apply Rmax_right.
Qed.

Lemma dataV2_results :
  Logic.scoreCandidates Example.dataV2 Example.enemiesV2 = [Example.jugRowV2].
Proof.
  cbv - [Rplus Rmult Rminus Rdiv Ropp Rinv IZR Rle Rlt Rle_dec Req_dec_T
         Logic.clamp].
  settle_tests. rewrite !clampV2_inside by lra.
  unfold Example.jugRowV2. f_equal. f_equal. lra.
Qed.

Lemma pctToLogOdds_80 : DraftPage.pctToLogOdds 80 = ln 2 + ln 2.
Proof.
  unfold DraftPage.pctToLogOdds. rewrite clamp_inside by lra.
  replace (80 / 100 / (1 - 80 / 100)) with (2 * 2) by lra.
  apply ln_mult; lra.
Qed.

Lemma pctToLogOdds_50 : DraftPage.pctToLogOdds 50 = 0.
Proof.
  unfold DraftPage.pctToLogOdds. rewrite clamp_inside by lra.
  replace (50 / 100 / (1 - 50 / 100)) with 1 by lra.
  apply ln_1.
Qed.

Lemma logOddsToPct_ln2 : DraftPage.logOddsToPct (ln 2) = 200 / 3.
Proof.
  unfold DraftPage.logOddsToPct. rewrite exp_Ropp, exp_ln by lra. lra.
Qed.

Lemma forgotten_results :
  DraftPage.candidateResults (Logic.forgetMatches Example.dataV2)
                             Example.axeAndZeus
  = [Example.jugRowLogOdds].
Proof.
  run_program. rewrite pctToLogOdds_80, pctToLogOdds_50.
  replace ((0 + 1 * (ln 2 + ln 2) + 1 * 0) / (0 + 1 + 1)) with (ln 2) by lra.
  now rewrite logOddsToPct_ln2.
Qed.

(** C9. The two scoring modules follow different rules.  The previous one
    returns the weighted mean of the raw winrates (each held within 0 and
    100 percent); the draft page returns the logistic of the weighted mean
    of the log-odds.  On the same matchups and the same picks they can
    disagree: with juggernaut at 80 against axe and at 50 against zeus, both
    at weight 1, the previous module scores juggernaut 65 and the draft
    page 200/3. *)
Theorem C9_the_two_modules_disagree :
  (forall (data : Logic.DataV2) (enemies : list Logic.EnemyPick)
          (r : Logic.Result),
      In r (Logic.scoreCandidates data enemies) ->
      let m := Spec.matchedV2 (Logic.oppMapOf data (Logic.hero r)) enemies in
      Logic.combined r =
        100 * (Spec.sumOver (fun p => fst p * Rmax 0 (Rmin 1 (snd p / 100))) m
               / Spec.sumOver fst m))
  /\
  (forall (data : DraftPage.Dataset) (picks : list DraftPage.EnemyPick)
          (r : DraftPage.CounterResult),
      In r (DraftPage.candidateResults data picks) ->
      exists oppMap : DraftPage.OppMap,
        In (DraftPage.hero r, oppMap) (JsObject.entries data) /\
        let m := Spec.matched oppMap (DraftPage.enemiesOf picks) in
        DraftPage.combined r =
          100 / (1 + exp (- (Spec.sumOver
                               (fun p => fst p *
                                         Spec.logOdds (Spec.clampedProb (snd p)))
                               m
                             / Spec.sumOver fst m))))
  /\
  (exists (data : Logic.DataV2) (enemies : list Logic.EnemyPick)
          (picks : list DraftPage.EnemyPick)
          (rOld : Logic.Result) (rNew : DraftPage.CounterResult),
      map (fun e => (Logic.slug e, Logic.weight e)) enemies
      = map (fun e => (DraftPage.w_enemy e, DraftPage.weight e))
            (DraftPage.enemiesOf picks) /\
      In rOld (Logic.scoreCandidates data enemies) /\
      In rNew (DraftPage.candidateResults (Logic.forgetMatches data) picks) /\
      Logic.hero rOld = DraftPage.hero rNew /\
      Logic.combined rOld <> DraftPage.combined rNew).
Proof.
  split; [|split].
  - intros data enemies r Hr m.
    apply In_scoreCandidates, In_candidatesV2 in Hr.
    destruct Hr as (h & _ & _ & _ & ->). reflexivity.
  - intros data picks r Hr.
    apply In_candidateResults, In_candidates in Hr.
    destruct Hr as (h & om & Hin & _ & _ & ->).
    exists om. split; [assumption|reflexivity].
  - exists Example.dataV2, Example.enemiesV2, Example.axeAndZeus,
      Example.jugRowV2, Example.jugRowLogOdds.
    split; [reflexivity|].
    rewrite dataV2_results, forgotten_results.
    repeat split; try (now left). simpl. lra.
Qed.

Lemma C9_witness :
  Logic.combined Example.jugRowV2 =
  100 * (Spec.sumOver (fun p => fst p * Rmax 0 (Rmin 1 (snd p / 100)))
           (Spec.matchedV2 (Logic.oppMapOf Example.dataV2 "juggernaut")
                           Example.enemiesV2)
         / Spec.sumOver fst
             (Spec.matchedV2 (Logic.oppMapOf Example.dataV2 "juggernaut")
                             Example.enemiesV2)).
Proof.
  apply (proj1 C9_the_two_modules_disagree
               Example.dataV2 Example.enemiesV2 Example.jugRowV2).
  rewrite dataV2_results. now left.
Defined.

(** ** The role filter *)

Lemma includes_In xs x : JsArray.includes xs x = true <-> In x xs.
Proof. apply has_In. Qed.

Lemma ALL_ROLES_NoDup : NoDup DraftPage.ALL_ROLES.
Proof.
  unfold DraftPage.ALL_ROLES.
  repeat (constructor; [simpl; intuition discriminate|]). constructor.
Qed.

(** What [selectedRoles] always is: a duplicate-free part of the vocabulary. *)
Lemma reachable_invariant s :
  DraftPage.reachable s -> NoDup s /\ incl s DraftPage.ALL_ROLES.
Proof.
  induction 1 as [|s ev Hr [Hnd Hin] Hev].
  - split; [apply ALL_ROLES_NoDup|apply incl_refl].
  - destruct ev as [role| |]; simpl.
    + unfold DraftPage.toggleRole.
      destruct (JsArray.includes s role) eqn:E.
      * split; [now apply NoDup_filter|].
        intros x Hx. apply filter_In in Hx. apply Hin, Hx.
      * split.
        -- apply NoDup_rev in Hnd. rewrite <- (rev_involutive (s ++ [role])).
           apply NoDup_rev. rewrite rev_app_distr. simpl.
           constructor; [|assumption]. rewrite <- in_rev.
           intros Hc. apply includes_In in Hc. congruence.
        -- intros x Hx. apply in_app_iff in Hx.
           destruct Hx as [Hx|[<-|[]]]; [now apply Hin|exact Hev].
    + split; [apply ALL_ROLES_NoDup|apply incl_refl].
    + split; [constructor|intros x []].
Qed.

Lemma isFilteringActive_spec s :
  NoDup s -> incl s DraftPage.ALL_ROLES ->
  DraftPage.isFilteringActive s = false <->
  (s = [] \/ Spec.sameRoles s DraftPage.ALL_ROLES).
Proof.
  intros Hnd Hin.
  pose proof (NoDup_incl_length Hnd Hin) as Hlen.
  unfold DraftPage.isFilteringActive. rewrite andb_false_iff.
  rewrite !Nat.ltb_ge. split.
  - intros [H0|H5].
    + left. destruct s; [reflexivity|simpl in H0; lia].
    + right. intros role. split; [apply Hin|].
      now apply (NoDup_length_incl Hnd H5 Hin).
  - intros [->|Hsame]; [left; simpl; lia|]. right.
    apply NoDup_incl_length; [apply ALL_ROLES_NoDup|].
    intros role Hr. now apply Hsame.
Qed.

Lemma keepResult_spec rm sel r :
  DraftPage.keepResult rm sel r = true <->
  (DraftPage.rolesOf rm (DraftPage.hero r) <> [] /\
   Spec.intersects (DraftPage.rolesOf rm (DraftPage.hero r)) sel).
Proof.
  unfold DraftPage.keepResult, Spec.intersects.
  destruct (DraftPage.rolesOf rm (DraftPage.hero r)) as [|x roles] eqn:E.
  - simpl. split; [discriminate|]. intros [H _]. congruence.
  - cbn [List.length Nat.eqb]. rewrite existsb_exists. split.
    + intros [role [Hr Hs]]. split; [discriminate|].
      exists role. split; [assumption|now apply has_In].
    + intros [_ [role [Hr Hs]]]. exists role.
      split; [assumption|now apply has_In].
Qed.

Lemma keepResult_get rm sel r :
  DraftPage.keepResult rm sel r = true <->
  exists roles, JsObject.get rm (DraftPage.hero r) = Some roles /\
                roles <> [] /\ Spec.intersects roles sel.
Proof.
  rewrite keepResult_spec. unfold DraftPage.rolesOf.
  destruct (JsObject.get rm (DraftPage.hero r)) as [roles|]; split.
  - intros [Hne Hint]. now exists roles.
  - intros [roles' [[= <-] [Hne Hint]]]. now split.
  - intros [Hne _]. now contradiction Hne.
  - intros [roles' [E _]]. discriminate E.
Qed.

Lemma selection_narrowed :
  ~ (["carry"%string] = []
     \/ Spec.sameRoles ["carry"%string] DraftPage.ALL_ROLES).
Proof.
  intros [Hnil|Hsame]; [discriminate|].
  assert (Hmid : In "mid"%string ["carry"%string])
    by (apply Hsame; unfold DraftPage.ALL_ROLES; simpl; tauto).
  destruct Hmid as [Hc|[]]. discriminate.
Qed.

(** C8. With the selected roles a set of roles of the vocabulary: when the
    selection is empty or the whole vocabulary the results are displayed
    unchanged; otherwise the displayed results are the results filtered, in
    input order, down to exactly the candidates for which the role map
    holds a non-empty role set that meets the selection, so a hero the
    role map does not know, or knows with no roles, is dropped. *)
Theorem C8_role_filter :
  forall (results : list DraftPage.CounterResult)
         (roleMap : DraftPage.RoleMap) (selectedRoles : list string),
    NoDup selectedRoles ->
    incl selectedRoles DraftPage.ALL_ROLES ->
    (selectedRoles = [] \/ Spec.sameRoles selectedRoles DraftPage.ALL_ROLES ->
     DraftPage.displayedResults results roleMap selectedRoles = results)
    /\
    (~ (selectedRoles = [] \/ Spec.sameRoles selectedRoles DraftPage.ALL_ROLES) ->
     (exists keep : DraftPage.CounterResult -> bool,
         (forall r, keep r = true <->
                    exists roles,
                      JsObject.get roleMap (DraftPage.hero r) = Some roles /\
                      roles <> [] /\
                      Spec.intersects roles selectedRoles) /\
         DraftPage.displayedResults results roleMap selectedRoles
         = filter keep results) /\
     (forall r, In r (DraftPage.displayedResults results roleMap
                                                 selectedRoles) <->
                In r results /\
                exists roles,
                  JsObject.get roleMap (DraftPage.hero r) = Some roles /\
                  Spec.intersects roles selectedRoles) /\
     (forall r, JsObject.get roleMap (DraftPage.hero r) = None \/
                JsObject.get roleMap (DraftPage.hero r) = Some [] ->
                ~ In r (DraftPage.displayedResults results roleMap
                                                   selectedRoles))).
Proof.
  intros results roleMap selectedRoles Hnd Hin.
  pose proof (isFilteringActive_spec selectedRoles Hnd Hin) as Hact.
  unfold DraftPage.displayedResults. split.
  - intros Hoff. apply Hact in Hoff. now rewrite Hoff.
  - intros Hon.
    destruct (DraftPage.isFilteringActive selectedRoles) eqn:E;
      [|exfalso; apply Hon, Hact; reflexivity].
    simpl. split; [|split].
    + exists (DraftPage.keepResult roleMap selectedRoles).
      split; [intros r; apply keepResult_get|reflexivity].
    + intros r. rewrite filter_In, keepResult_get. split.
      * intros [Hr [roles [G [_ Hint]]]]. split; [assumption|].
        now exists roles.
      * intros [Hr [roles [G Hint]]]. split; [assumption|].
        exists roles. split; [assumption|]. split; [|assumption].
        destruct Hint as [role [Hrole _]]. intros ->. contradiction.
    + intros r Hr Hd. apply filter_In in Hd. destruct Hd as [_ Hk].
      apply keepResult_get in Hk. destruct Hk as [roles [G [Hne _]]].
      destruct Hr as [Hr|Hr]; rewrite Hr in G; [discriminate|].
      injection G as <-. now apply Hne.
Qed.

Lemma C8_witness :
  DraftPage.displayedResults [Example.jugRow; Example.zeusRow]
                             Example.roles DraftPage.ALL_ROLES
  = [Example.jugRow; Example.zeusRow]
  /\
  In Example.jugRow
     (DraftPage.displayedResults [Example.jugRow; Example.zeusRow]
                                 Example.roles ["carry"%string])
  /\
  ~ In Example.zeusRow
       (DraftPage.displayedResults [Example.jugRow; Example.zeusRow]
                                   [("juggernaut"%string, ["carry"%string])]
                                   ["carry"%string]).
Proof.
  assert (Hnd : NoDup ["carry"%string])
    by (repeat constructor; simpl; tauto).
  assert (Hin : incl ["carry"%string] DraftPage.ALL_ROLES)
    by (intros x [<-|[]]; now left).
  split; [|split].
  - apply (C8_role_filter [Example.jugRow; Example.zeusRow]
                          Example.roles DraftPage.ALL_ROLES).
    + apply ALL_ROLES_NoDup.
    + apply incl_refl.
    + right. intros role. reflexivity.
  - apply (proj1 (proj2 (proj2 (C8_role_filter
                                  [Example.jugRow; Example.zeusRow]
                                  Example.roles ["carry"%string] Hnd Hin)
                               selection_narrowed))
                 Example.jugRow).
    split; [now left|]. exists ["carry"%string].
    split; [reflexivity|]. exists "carry"%string. split; now left.
  - apply (proj2 (proj2 (proj2 (C8_role_filter
                                  [Example.jugRow; Example.zeusRow]
                                  [("juggernaut"%string, ["carry"%string])]
                                  ["carry"%string] Hnd Hin)
                               selection_narrowed))
                 Example.zeusRow).
    left. reflexivity.
Defined.

(** ** Loading *)

Lemma In_keys_set {V : Type} (o : JsObject.t V) k v x :
  In x (JsObject.keys (JsObject.set o k v)) <-> In x (JsObject.keys o) \/ x = k.
Proof.
  rewrite keys_set. destruct (JsArray.has (JsObject.keys o) k) eqn:E.
  - apply has_In in E. split; [auto|]. intros [H| ->]; assumption.
  - rewrite in_app_iff. simpl. split.
    + intros [H|[<-|[]]]; auto.
    + intros [H| ->]; auto.
Qed.

Section FrontendLoad.
Import DraftPage.

(** The loop when nothing throws: one [set] per shaped file. *)
Lemma fold_addFile_shaped fetched acc :
  ~ In Misshapen fetched ->
  fold_left (fun a f => match a with Some a => addFile a f | None => None end)
            (map settle fetched) (Some acc)
  = Some (fold_left
            (fun o f => JsObject.set o (toLowerCase (f_hero f))
                                     (buildMap (matchups f)))
            (parseable fetched) acc).
Proof.
  revert acc. unfold parseable.
  induction fetched as [|o fetched IH]; intros acc Hno; simpl; [reflexivity|].
  destruct o; simpl;
    try (apply IH; intros H; apply Hno; now right).
  exfalso. apply Hno. now left.
Qed.

Lemma fold_addFile_thrown files :
  fold_left (fun a f => match a with Some a => addFile a f | None => None end)
            files None = None.
Proof. induction files as [|f files IH]; simpl; [reflexivity|exact IH]. Qed.

Lemma fold_addFile_misshapen fetched acc :
  In Misshapen fetched ->
  fold_left (fun a f => match a with Some a => addFile a f | None => None end)
            (map settle fetched) (Some acc) = None.
Proof.
  revert acc. induction fetched as [|o fetched IH]; intros acc; simpl; [tauto|].
  intros [->|Hin]; simpl; [apply fold_addFile_thrown|].
  destruct o; simpl; try (now apply IH). apply fold_addFile_thrown.
Qed.

Lemma buildData_shaped fetched :
  ~ In Misshapen fetched ->
  buildData (map settle fetched)
  = Some (fold_left
            (fun o f => JsObject.set o (toLowerCase (f_hero f))
                                     (buildMap (matchups f)))
            (parseable fetched) JsObject.empty).
Proof. apply fold_addFile_shaped. Qed.

Lemma buildData_misshapen fetched :
  In Misshapen fetched -> buildData (map settle fetched) = None.
Proof. apply fold_addFile_misshapen. Qed.

Lemma buildData_Some fetched d :
  buildData (map settle fetched) = Some d ->
  ~ In Misshapen fetched /\
  d = fold_left
        (fun o f => JsObject.set o (toLowerCase (f_hero f))
                                 (buildMap (matchups f)))
        (parseable fetched) JsObject.empty.
Proof.
  intros H.
  assert (Hno : ~ In Misshapen fetched)
    by (intros Hin; rewrite buildData_misshapen in H; [discriminate|assumption]).
  split; [assumption|]. rewrite buildData_shaped in H by assumption.
  now injection H.
Qed.

Lemma load_Loaded fetched d :
  load fetched = Loaded d ->
  ~ In Misshapen fetched /\
  d = fold_left
        (fun o f => JsObject.set o (toLowerCase (f_hero f))
                                 (buildMap (matchups f)))
        (parseable fetched) JsObject.empty.
Proof.
  unfold load. destruct (buildData (map settle fetched)) as [d'|] eqn:E;
    [|discriminate].
  intros [= <-]. now apply buildData_Some.
Qed.

Lemma load_shaped fetched :
  ~ In Misshapen fetched ->
  load fetched
  = Loaded (fold_left
              (fun o f => JsObject.set o (toLowerCase (f_hero f))
                                       (buildMap (matchups f)))
              (parseable fetched) JsObject.empty).
Proof. intros H. unfold load. now rewrite buildData_shaped. Qed.

Lemma parseable_goodFiles fetched : parseable fetched = Spec.goodFiles fetched.
Proof.
  unfold parseable, Spec.goodFiles.
  induction fetched as [|o fetched IH]; simpl; [reflexivity|].
  rewrite IH. now destruct o.
Qed.

Lemma In_goodFiles fetched f :
  In f (Spec.goodFiles fetched) <-> In (Parsed f) fetched.
Proof.
  unfold Spec.goodFiles. rewrite in_flat_map. split.
  - intros [o [Ho Hf]]. destruct o; try contradiction.
    destruct Hf as [<-|[]]. assumption.
  - intros H. exists (Parsed f). split; [assumption|now left].
Qed.

End FrontendLoad.

Section ServerLoad.
Import Server.

(** The hero a decoded file is stored under, and what is stored. *)
Lemma stepFile_decoded data file obj :
  stepFile data (file, Decoded obj) =
  if negb (endsWith file ".json") then data
  else
    let st := readMatchups (match raw_matchups obj with
                            | Some ms => ms
                            | None => []
                            end) in
    if Nat.ltb 0 (List.length (JsObject.keys (fst st)))
    then JsObject.set data
           (toLowerCase (orElse (raw_hero obj) (basename file ".json")))
           (Logic.mkHeroData (fst st) (snd st))
    else data.
Proof.
  unfold stepFile. destruct (negb _); [reflexivity|].
  cbv zeta. now destruct (readMatchups _).
Qed.

Lemma stepFile_unreadable data entry :
  readable entry = false -> stepFile data entry = data.
Proof.
  destruct entry as [file [|obj]]; [|discriminate]. intros _.
  unfold stepFile. now destruct (negb _).
Qed.






End ServerLoad.

(** ** A slot of weight zero, in the previous module *)

Lemma matchedV2_app om e1 e2 :
  Spec.matchedV2 om (e1 ++ e2) = Spec.matchedV2 om e1 ++ Spec.matchedV2 om e2.
Proof. apply flat_map_app. Qed.

Lemma matchedV2_zero_slot om e1 e2 sh :
  let m0 := Spec.matchedV2 om (e1 ++ Logic.mkPick sh 0 :: e2) in
  let mE := Spec.matchedV2 om (e1 ++ e2) in
  Spec.matchedWeight m0 = Spec.matchedWeight mE /\
  Spec.rawAverage m0 = Spec.rawAverage mE.
Proof.
  cbv zeta. unfold Spec.rawAverage, Spec.matchedWeight.
  rewrite !matchedV2_app.
  change (Logic.mkPick sh 0 :: e2) with ([Logic.mkPick sh 0] ++ e2).
  rewrite matchedV2_app, !sumOver_app.
  assert (Hw : Spec.sumOver fst (Spec.matchedV2 om [Logic.mkPick sh 0]) = 0)
    by (simpl; destruct (JsObject.get om sh); simpl; lra).
  assert (Hs : Spec.sumOver (fun p => fst p * Rmax 0 (Rmin 1 (snd p / 100)))
                            (Spec.matchedV2 om [Logic.mkPick sh 0]) = 0)
    by (simpl; destruct (JsObject.get om sh); simpl; lra).
  rewrite Hw, Hs, !Rplus_0_l. split; reflexivity.
Qed.

Lemma stepHeroV2_zero_slot data x e1 e2 sh :
  let es0 := e1 ++ Logic.mkPick sh 0 :: e2 in
  let esE := e1 ++ e2 in
  map (Spec.dropEntryV2 (List.length e1))
      (Logic.stepHero data es0 (map Logic.slug es0) [] x)
  = filter (Spec.isNotV2 sh)
           (Logic.stepHero data esE (map Logic.slug esE) [] x).
Proof.
  cbv zeta. rewrite !stepHeroV2_single.
  destruct (matchedV2_zero_slot (Logic.oppMapOf data x) e1 e2 sh) as [Hw Hs].
  rewrite Hw, Hs. rewrite !map_app, !has_app. simpl map.
  destruct (JsArray.has (map Logic.slug e1) x); [reflexivity|].
  simpl orb.
  destruct (String.eqb x sh) eqn:E.
  - simpl. destruct (JsArray.has _ x); [reflexivity|].
    destruct (Rle_dec _ 0); [reflexivity|].
    simpl. unfold Spec.isNotV2. simpl. now rewrite E.
  - simpl orb. destruct (JsArray.has _ x); [reflexivity|].
    destruct (Rle_dec _ 0); [reflexivity|].
    simpl. unfold Spec.isNotV2. simpl. rewrite E. simpl.
    unfold Spec.dropEntryV2. simpl. f_equal. f_equal.
    unfold Spec.breakdownV2. rewrite !map_app. simpl map.
    rewrite <- (length_map Logic.slug e1).
    rewrite <- (length_map
                  (fun s => Logic.mkPerEnemy
                              s (option_map Logic.rec_winrate
                                   (JsObject.get (Logic.oppMapOf data x) s)))
                  (map Logic.slug e1)).
    apply removeAt_middle.
Qed.

Lemma candidatesV2_zero_slot data e1 e2 sh :
  map (Spec.dropEntryV2 (List.length e1))
      (Logic.candidates data (e1 ++ Logic.mkPick sh 0 :: e2))
  = filter (Spec.isNotV2 sh) (Logic.candidates data (e1 ++ e2)).
Proof.
  unfold Logic.candidates. rewrite !fold_stepHeroV2. simpl app.
  induction (JsObject.keys data) as [|x hs IH].
  - reflexivity.
  - simpl flat_map. rewrite map_app, filter_app, IH. f_equal.
    apply stepHeroV2_zero_slot.
Qed.

Lemma scoreCandidates_zero_slot data e1 e2 sh :
  map (Spec.dropEntryV2 (List.length e1))
      (Logic.scoreCandidates data (e1 ++ Logic.mkPick sh 0 :: e2))
  = filter (Spec.isNotV2 sh) (Logic.scoreCandidates data (e1 ++ e2)).
Proof.
  unfold Logic.scoreCandidates.
  rewrite <- (sort_map Logic.byCombinedDesc Logic.byCombinedDesc)
    by reflexivity.
  rewrite candidatesV2_zero_slot.
  symmetry. apply (filter_sort _ Logic.combined). reflexivity.
Qed.

Lemma enemiesOfV2_app data s1 s2 :
  Logic.enemiesOf data (s1 ++ s2) =
  Logic.enemiesOf data s1 ++ Logic.enemiesOf data s2.
Proof. unfold Logic.enemiesOf. now rewrite filter_app, map_app. Qed.

(** C3, as the code has it.  Give hero [h] weight 0 in a slot that was
    empty: no aggregate moves.  With the breakdown entry of that slot
    dropped, the results are those of the empty-slot run without candidate
    [h]: the same candidates in the same order, with the same combined
    scores and the same remaining breakdown entries.  What differs is that
    [h] is no longer a candidate and that every breakdown has an entry for
    [h] at the slot's position.  The previous module behaves the same for a
    slot its page passes on. *)
Theorem C3_zero_weight_slot_changes_no_score :
  (forall (data : DraftPage.Dataset) (pre post : list DraftPage.EnemyPick)
          (h : DraftPage.Hero) (w : R),
      Spec.slugsNamed (pre ++ post) ->
      let zeroed := pre ++ DraftPage.mkPick (Some h) 0 :: post in
      let emptied := pre ++ DraftPage.mkPick None w :: post in
      let k := List.length (Spec.selectedHeroes pre) in
      map (Spec.dropEntry k) (DraftPage.candidateResults data zeroed)
      = filter (Spec.isNot (DraftPage.slug h))
               (DraftPage.candidateResults data emptied)
      /\
      (forall r, In r (DraftPage.candidateResults data zeroed) ->
                 DraftPage.hero r <> DraftPage.slug h /\
                 exists wr, nth_error (DraftPage.perEnemy r) k
                            = Some (DraftPage.mkPerEnemy (DraftPage.slug h) wr)))
  /\
  (forall (data : Logic.DataV2) (pre post : list Logic.EnemySlot)
          (h : string) (w : R),
      Logic.usable data (Logic.mkSlot (Some h) 0) = true ->
      let zeroed := pre ++ Logic.mkSlot (Some h) 0 :: post in
      let emptied := pre ++ Logic.mkSlot None w :: post in
      let k := List.length (Logic.enemiesOf data pre) in
      map (Spec.dropEntryV2 k) (Logic.results data zeroed)
      = filter (Spec.isNotV2 h) (Logic.results data emptied)).
Proof.
  split; [|intros data pre post h w Hh zeroed emptied k;
           unfold Logic.results, zeroed, emptied;
           change (Logic.mkSlot (Some h) 0 :: post)
             with ([Logic.mkSlot (Some h) 0] ++ post);
           change (Logic.mkSlot None w :: post)
             with ([Logic.mkSlot None w] ++ post);
           rewrite !enemiesOfV2_app;
           unfold Logic.enemiesOf at 2 5; simpl filter; rewrite Hh;
           apply scoreCandidates_zero_slot].
  intros data pre post h w Hnamed zeroed emptied k.
  assert (He0 : DraftPage.enemiesOf zeroed =
                DraftPage.enemiesOf pre
                ++ DraftPage.mkEnemy (DraftPage.slug h) 0
                   :: DraftPage.enemiesOf post).
  { unfold zeroed.
    change (DraftPage.mkPick (Some h) 0 :: post)
      with ([DraftPage.mkPick (Some h) 0] ++ post).
    now rewrite !enemiesOf_app. }
  assert (HeE : DraftPage.enemiesOf emptied =
                DraftPage.enemiesOf pre ++ DraftPage.enemiesOf post).
  { unfold emptied.
    change (DraftPage.mkPick None w :: post)
      with ([DraftPage.mkPick None w] ++ post).
    now rewrite !enemiesOf_app. }
  assert (Hk : k = List.length (DraftPage.enemiesOf pre)).
  { unfold k. now rewrite <- enemiesOf_slugs, length_map. }
  split.
  - rewrite !candidateResults_unfold, He0, HeE, Hk.
    assert (HsE : DraftPage.selectedEnemySlugs emptied =
                  Spec.selectedHeroes (pre ++ post)).
    { rewrite <- slugsNamed_selected by assumption. unfold emptied.
      change (DraftPage.mkPick None w :: post)
        with ([DraftPage.mkPick None w] ++ post).
      now rewrite !selectedEnemySlugs_app. }
    destruct (DraftPage.selectedEnemySlugs emptied) as [|s ss] eqn:EE.
    + (* nothing else is selected: the zero-weight hero stands alone *)
      symmetry in HsE. rewrite <- enemiesOf_slugs in HsE.
      apply map_eq_nil in HsE. rewrite enemiesOf_app in HsE.
      apply app_eq_nil in HsE. destruct HsE as [-> ->]. simpl app.
      rewrite candidates_nil_nonpos.
      * now destruct (DraftPage.selectedEnemySlugs zeroed).
      * intros e [<-|[]]. simpl. lra.
    + destruct (DraftPage.selectedEnemySlugs zeroed) as [|s0 ss0] eqn:E0.
      * exfalso. unfold zeroed, emptied in *.
        change (DraftPage.mkPick None w :: post)
          with ([DraftPage.mkPick None w] ++ post) in EE.
        change (DraftPage.mkPick (Some h) 0 :: post)
          with ([DraftPage.mkPick (Some h) 0] ++ post) in E0.
        rewrite !selectedEnemySlugs_app in *.
        apply app_eq_nil in E0. destruct E0 as [E1 E2].
        apply app_eq_nil in E2. destruct E2 as [_ E2].
        rewrite E1, E2 in EE. discriminate.
      * apply sorted_zero_slot.
  - intros r Hr. apply In_candidateResults, In_candidates in Hr.
    destruct Hr as (x & om & _ & Hni & _ & ->). simpl. split.
    + intros ->. apply Hni. rewrite He0, map_app, in_app_iff. right. now left.
    + exists (JsObject.get om (DraftPage.slug h)).
      rewrite He0, Hk, map_app. unfold Spec.breakdown. rewrite map_app.
      rewrite nth_error_app2; rewrite !length_map; [|lia].
      now rewrite Nat.sub_diag.
Qed.

(** C3 as stated fails: with axe picked at weight 1, putting zeus into the
    empty slot at weight 0 removes candidate zeus and adds a zeus entry to
    juggernaut's breakdown. *)
Lemma C3_counterexample :
  DraftPage.candidateResults Example.data Example.axeAndZeus0
  <> DraftPage.candidateResults Example.data Example.axeAndEmpty.
Proof.
  rewrite data_results_zeus0, data_results_axe. discriminate.
Qed.

Lemma C3_witness :
  map (Spec.dropEntry 1)
      (DraftPage.candidateResults Example.data Example.axeAndZeus0)
  = filter (Spec.isNot "zeus")
           (DraftPage.candidateResults Example.data Example.axeAndEmpty).
Proof.
  apply (proj1 C3_zero_weight_slot_changes_no_score
           Example.data [DraftPage.mkPick (Some Example.axe) 1] []
           Example.zeus 0).
  intros p h [<-|[]] [= <-]. reflexivity.
Defined.

(** ** The two conversions, in exact arithmetic *)

Lemma div_between S W lo hi :
  0 < W -> lo * W <= S <= hi * W -> lo <= S / W <= hi.
Proof.
  intros HW [H1 H2]. pose proof (Rinv_0_lt_compat W HW) as HiW.
  replace lo with (lo * W * / W) by (field; lra).
  replace hi with (hi * W * / W) by (field; lra).
  unfold Rdiv. split; apply Rmult_le_compat_r; lra.
Qed.

Lemma clamp_between x lo hi :
  lo <= hi -> lo <= DraftPage.clamp x lo hi <= hi.
Proof.
  intros H. unfold DraftPage.clamp, Rmax, Rmin.
  destruct (Rle_dec hi x); destruct (Rle_dec lo _); lra.
Qed.

Lemma clamp_monotone x y lo hi :
  x <= y -> DraftPage.clamp x lo hi <= DraftPage.clamp y lo hi.
Proof.
  intros H. unfold DraftPage.clamp.
  apply Rle_max_compat_l, Rle_min_compat_l. exact H.
Qed.

Lemma ln_monotone x y : 0 < x -> x <= y -> ln x <= ln y.
Proof.
  intros Hx [Hlt| ->]; [left; now apply ln_increasing|right; reflexivity].
Qed.

Lemma odds_monotone c d :
  0 < c -> c <= d -> d < 1 -> 0 < c / (1 - c) <= d / (1 - d).
Proof.
  intros Hc Hcd Hd. split.
  - apply Rdiv_lt_0_compat; lra.
  - apply (Rmult_le_reg_r ((1 - c) * (1 - d))); [nra|].
    replace (c / (1 - c) * ((1 - c) * (1 - d))) with (c * (1 - d))
      by (field; lra).
    replace (d / (1 - d) * ((1 - c) * (1 - d))) with (d * (1 - c))
      by (field; lra).
    nra.
Qed.

Lemma pctToLogOdds_monotone p q :
  p <= q -> DraftPage.pctToLogOdds p <= DraftPage.pctToLogOdds q.
Proof.
  intros H. unfold DraftPage.pctToLogOdds. cbv zeta.
  pose proof (clamp_between (p / 100) 0.005 0.995 ltac:(lra)) as Hp.
  pose proof (clamp_between (q / 100) 0.005 0.995 ltac:(lra)) as Hq.
  pose proof (clamp_monotone (p / 100) (q / 100) 0.005 0.995 ltac:(lra)) as Hm.
  assert (H0 : 0 < DraftPage.clamp (p / 100) 0.005 0.995) by lra.
  assert (H1 : DraftPage.clamp (q / 100) 0.005 0.995 < 1) by lra.
  destruct (odds_monotone _ _ H0 Hm H1) as [Hpos Hle].
  now apply ln_monotone.
Qed.

Lemma logOddsToPct_increasing a b :
  a < b -> DraftPage.logOddsToPct a < DraftPage.logOddsToPct b.
Proof.
  intros H. unfold DraftPage.logOddsToPct. cbv zeta.
  pose proof (exp_pos (- a)) as Ha. pose proof (exp_pos (- b)) as Hb.
  assert (Hexp : exp (- b) < exp (- a)) by (apply exp_increasing; lra).
  apply Rmult_lt_compat_l; [lra|].
  unfold Rdiv. rewrite !Rmult_1_l.
  apply Rinv_lt_contravar; [nra|lra].
Qed.

Lemma logOddsToPct_monotone a b :
  a <= b -> DraftPage.logOddsToPct a <= DraftPage.logOddsToPct b.
Proof.
  intros [Hlt| ->]; [left; now apply logOddsToPct_increasing|right; reflexivity].
Qed.

Lemma roundtrip_clamped p :
  DraftPage.logOddsToPct (DraftPage.pctToLogOdds p)
  = 100 * DraftPage.clamp (p / 100) 0.005 0.995.
Proof.
  unfold DraftPage.logOddsToPct, DraftPage.pctToLogOdds. cbv zeta.
  pose proof (clamp_between (p / 100) 0.005 0.995 ltac:(lra)) as Hc.
  set (c := DraftPage.clamp (p / 100) 0.005 0.995) in *.
  rewrite exp_Ropp, exp_ln by (apply Rdiv_lt_0_compat; lra).
  field. lra.
Qed.

(** Split [Rmax] and [Rmin] into their cases, innermost test first. *)
Ltac case_clamp :=
  unfold DraftPage.clamp, Logic.clamp, Rmax, Rmin;
  repeat match goal with
         | |- context [Rle_dec ?a ?b] =>
             lazymatch b with
             | context [Rle_dec] => fail
             | _ => destruct (Rle_dec a b)
             end
         end;
  lra.

Lemma clamp_mirror x :
  DraftPage.clamp (1 - x) 0.005 0.995 = 1 - DraftPage.clamp x 0.005 0.995.
Proof.
  case_clamp.
Qed.

Lemma roundtrip_percent p :
  DraftPage.logOddsToPct (DraftPage.pctToLogOdds p) = Rmax 0.5 (Rmin 99.5 p).
Proof. rewrite roundtrip_clamped. case_clamp. Qed.

Lemma pctToLogOdds_odd p :
  DraftPage.pctToLogOdds (100 - p) = - DraftPage.pctToLogOdds p.
Proof.
  unfold DraftPage.pctToLogOdds. cbv zeta.
  replace ((100 - p) / 100) with (1 - p / 100) by lra.
  rewrite clamp_mirror.
  pose proof (clamp_between (p / 100) 0.005 0.995 ltac:(lra)) as Hc.
  set (c := DraftPage.clamp (p / 100) 0.005 0.995) in *.
  replace ((1 - c) / (1 - (1 - c))) with (/ (c / (1 - c))) by (field; lra).
  apply ln_Rinv. apply Rdiv_lt_0_compat; lra.
Qed.

Lemma pctToLogOdds_100 : DraftPage.pctToLogOdds 100 = ln 199.
Proof.
  unfold DraftPage.pctToLogOdds. cbv zeta.
  replace (DraftPage.clamp (100 / 100) 0.005 0.995) with 0.995
    by case_clamp.
  f_equal. lra.
Qed.

Lemma pctToLogOdds_0 : DraftPage.pctToLogOdds 0 = - ln 199.
Proof. rewrite <- pctToLogOdds_100, <- pctToLogOdds_odd. f_equal. lra. Qed.

Lemma pctToLogOdds_range p : - ln 199 <= DraftPage.pctToLogOdds p <= ln 199.
Proof.
  rewrite <- pctToLogOdds_0, <- pctToLogOdds_100.
  unfold DraftPage.pctToLogOdds. cbv zeta.
  pose proof (clamp_between (p / 100) 0.005 0.995 ltac:(lra)) as Hc.
  assert (H0 : DraftPage.clamp (0 / 100) 0.005 0.995 = 0.005)
    by case_clamp.
  assert (H1 : DraftPage.clamp (100 / 100) 0.005 0.995 = 0.995)
    by case_clamp.
  rewrite H0, H1.
  set (c := DraftPage.clamp (p / 100) 0.005 0.995) in *.
  split; apply ln_monotone;
    try (apply Rdiv_lt_0_compat; lra);
    apply odds_monotone; lra.
Qed.

Lemma logOddsToPct_range a : 0 < DraftPage.logOddsToPct a < 100.
Proof.
  unfold DraftPage.logOddsToPct. cbv zeta. pose proof (exp_pos (- a)) as He.
  split.
  - apply Rmult_lt_0_compat; [lra|]. apply Rdiv_lt_0_compat; lra.
  - assert (1 / (1 + exp (- a)) < 1); [|lra].
    apply (Rmult_lt_reg_r (1 + exp (- a))); [lra|].
    replace (1 / (1 + exp (- a)) * (1 + exp (- a))) with 1 by (field; lra).
    lra.
Qed.

Lemma logOddsToPct_mirror a :
  DraftPage.logOddsToPct (- a) = 100 - DraftPage.logOddsToPct a.
Proof.
  unfold DraftPage.logOddsToPct. cbv zeta. rewrite Ropp_involutive.
  rewrite (exp_Ropp a). pose proof (exp_pos a). field. lra.
Qed.

Lemma pctToLogOdds_bounded_bounds p :
  DraftPage.pctToLogOdds 0.5 <= DraftPage.pctToLogOdds p
  <= DraftPage.pctToLogOdds 99.5.
Proof.
  unfold DraftPage.pctToLogOdds. cbv zeta.
  pose proof (clamp_between (p / 100) 0.005 0.995 ltac:(lra)) as Hc.
  rewrite (clamp_inside (0.5 / 100)), (clamp_inside (99.5 / 100)) by lra.
  set (c := DraftPage.clamp (p / 100) 0.005 0.995) in *.
  split; apply ln_monotone;
    try (apply Rdiv_lt_0_compat; lra);
    apply odds_monotone; lra.
Qed.

(** ** Bounds on the combined score, in exact arithmetic *)

Lemma sumOver_between (g : R -> R) (m : list (R * R)) lo hi :
  (forall p, In p m -> 0 <= fst p /\ lo <= g (snd p) <= hi) ->
  lo * Spec.sumOver fst m
  <= Spec.sumOver (fun p => fst p * g (snd p)) m
  <= hi * Spec.sumOver fst m.
Proof.
  induction m as [|x m IH]; intros H; simpl; [lra|].
  destruct (H x (or_introl eq_refl)) as [Hw Hg].
  assert (IH' := IH (fun p Hp => H p (or_intror Hp))). nra.
Qed.

Lemma matched_weights om es p :
  In p (Spec.matched om es) ->
  exists e, In e es /\ fst p = DraftPage.weight e.
Proof.
  unfold Spec.matched. rewrite in_flat_map. intros [e [He Hp]].
  destruct (JsObject.get om (DraftPage.w_enemy e)); [|contradiction].
  destruct Hp as [<-|[]]. now exists e.
Qed.

Lemma matchedV2_weights om es p :
  In p (Spec.matchedV2 om es) ->
  exists e, In e es /\ fst p = Logic.weight e.
Proof.
  unfold Spec.matchedV2. rewrite in_flat_map. intros [e [He Hp]].
  destruct (JsObject.get om (Logic.slug e)); [|contradiction].
  destruct Hp as [<-|[]]. now exists e.
Qed.

Lemma sliderWeight_nonneg w : Spec.sliderWeight w -> 0 <= w <= 1.
Proof. unfold Spec.sliderWeight. lra. Qed.

Lemma draftSlots_nonneg picks :
  Spec.draftSlots picks ->
  forall p, In p picks -> 0 <= DraftPage.pick_weight p.
Proof.
  intros [_ H] p Hp. apply sliderWeight_nonneg. now apply H.
Qed.

Lemma combined_in_clamp_range data picks r :
  (forall p, In p picks -> 0 <= DraftPage.pick_weight p) ->
  In r (DraftPage.candidates data (DraftPage.enemiesOf picks)) ->
  0.5 <= DraftPage.combined r <= 99.5.
Proof.
  intros Hw Hr.
  apply In_candidates in Hr.
  destruct Hr as (h & om & _ & _ & Hpos & ->). simpl.
  set (m := Spec.matched om (DraftPage.enemiesOf picks)) in *.
  unfold Spec.combinedScore. rewrite <- logOddsToPct_spec.
  assert (Hb : DraftPage.pctToLogOdds 0.5 <= Spec.combinedLogOdds m
               <= DraftPage.pctToLogOdds 99.5).
  { unfold Spec.combinedLogOdds. apply div_between; [exact Hpos|].
    apply (sumOver_between
             (fun wr => Spec.logOdds (Spec.clampedProb wr))).
    intros p Hp. split.
    - apply matched_weights in Hp. destruct Hp as (e & He & ->).
      apply In_enemiesOf in He. destruct He as (q & _ & Hq & _ & _ & ->).
      now apply Hw.
    - rewrite <- pctToLogOdds_spec.
      destruct (pctToLogOdds_bounded_bounds (snd p)) as [Hl Hu]. lra. }
  destruct Hb as [Hl Hu].
  apply logOddsToPct_monotone in Hl. apply logOddsToPct_monotone in Hu.
  rewrite logOdds_roundtrip in Hl, Hu by lra. lra.
Qed.

(** Settle that sample picks are five slots with slider weights. *)
Ltac prove_slots :=
  split; [reflexivity|];
  let p := fresh "p" in
  let H := fresh "H" in
  intros p H; simpl in H;
  repeat (destruct H as [<-|H];
          [unfold Spec.sliderWeight; simpl; lra|]);
  contradiction.

(** ** The ranking *)

Lemma sort_constant_key {A : Type} (cmp : A -> A -> R) (key : A -> R)
      (l : list A) :
  (forall a b, cmp a b = key b - key a) ->
  (forall a b, In a l -> In b l -> key a = key b) ->
  JsArray.sort cmp l = l.
Proof.
  intros Hcmp. induction l as [|x l IH]; intros Hk; simpl; [reflexivity|].
  rewrite IH by (intros a b Ha Hb; apply Hk; now right).
  apply (insert_head cmp key Hcmp). apply Forall_forall. intros z Hz.
  right. apply Hk; [now right|now left].
Qed.

Lemma candidatesV2_hero_key data es r :
  In r (Logic.candidates data es) -> In (Logic.hero r) (JsObject.keys data).
Proof.
  intros Hr. apply In_candidatesV2 in Hr.
  now destruct Hr as (h & Hin & _ & _ & ->).
Qed.

Lemma flat_stepHeroV2_NoDup data es hs :
  NoDup hs ->
  NoDup (map Logic.hero
             (flat_map (Logic.stepHero data es (map Logic.slug es) []) hs))
  /\ (forall r, In r (flat_map (Logic.stepHero data es (map Logic.slug es) [])
                               hs) -> In (Logic.hero r) hs).
Proof.
  induction 1 as [|h hs Hni Hnd [IH1 IH2]]; simpl.
  - split; [constructor|tauto].
  - rewrite stepHeroV2_single.
    destruct (JsArray.has _ h); [split; [assumption|auto]|].
    destruct (Rle_dec _ 0); [split; [assumption|auto]|].
    simpl. split.
    + constructor; [|assumption]. intros Hin. apply in_map_iff in Hin.
      destruct Hin as (r & Hh & Hr). apply IH2 in Hr. rewrite Hh in Hr.
      contradiction.
    + intros r [<-|Hr]; [now left|right; auto].
Qed.

(** X6. The results are the candidates of the scoring loop, each once, ranked
    by combined score, largest first; this holds in both modules. *)
Theorem results_are_ranked_candidates :
  (forall (data : DraftPage.Dataset) (picks : list DraftPage.EnemyPick),
      StronglySorted
        (fun a b => DraftPage.combined b <= DraftPage.combined a)
        (DraftPage.candidateResults data picks) /\
      (DraftPage.selectedEnemySlugs picks <> [] ->
       Permutation (DraftPage.candidateResults data picks)
                   (DraftPage.candidates data (DraftPage.enemiesOf picks))))
  /\
  (forall (data : Logic.DataV2) (enemies : list Logic.EnemyPick),
      StronglySorted (fun a b => Logic.combined b <= Logic.combined a)
                     (Logic.scoreCandidates data enemies) /\
      Permutation (Logic.scoreCandidates data enemies)
                  (Logic.candidates data enemies)).
Proof.
  split.
  - intros data picks. rewrite candidateResults_unfold.
    destruct (DraftPage.selectedEnemySlugs picks) as [|s ss].
    + split; [constructor|congruence].
    + split; [|intros _; apply sort_perm].
      apply (sort_descending DraftPage.byCombinedDesc DraftPage.combined).
      reflexivity.
  - intros data enemies. split; [|apply sort_perm].
    apply (sort_descending Logic.byCombinedDesc Logic.combined).
    reflexivity.
Qed.

(** X7. Candidates that tie on the combined score keep the order in which the
    dataset lists them: whatever set of equally scored candidates one
    selects, it appears in the results in loop order. *)
Theorem ties_keep_dataset_order :
  forall (data : DraftPage.Dataset) (picks : list DraftPage.EnemyPick)
         (among : DraftPage.CounterResult -> bool),
    DraftPage.selectedEnemySlugs picks <> [] ->
    (forall a b,
        In a (DraftPage.candidates data (DraftPage.enemiesOf picks)) ->
        In b (DraftPage.candidates data (DraftPage.enemiesOf picks)) ->
        among a = true -> among b = true ->
        DraftPage.combined a = DraftPage.combined b) ->
    filter among (DraftPage.candidateResults data picks)
    = filter among (DraftPage.candidates data (DraftPage.enemiesOf picks)).
Proof.
  intros data picks among Hsel Htie. rewrite candidateResults_unfold.
  destruct (DraftPage.selectedEnemySlugs picks) as [|s ss]; [congruence|].
  rewrite (filter_sort DraftPage.byCombinedDesc DraftPage.combined)
    by reflexivity.
  apply (sort_constant_key _ DraftPage.combined); [reflexivity|].
  intros a b Ha Hb. apply filter_In in Ha, Hb.
  destruct Ha as [Ha Pa], Hb as [Hb Pb]. now apply Htie.
Qed.

(** X8. Over a dataset with one entry per hero, no hero is listed twice in
    the results, every listed hero is a hero of the dataset, and there are
    at most as many results as dataset heroes; this holds in both
    modules. *)
Theorem result_heroes_are_distinct_dataset_heroes :
  (forall (data : DraftPage.Dataset) (picks : list DraftPage.EnemyPick),
      JsObject.wf data ->
      NoDup (map DraftPage.hero (DraftPage.candidateResults data picks)) /\
      incl (map DraftPage.hero (DraftPage.candidateResults data picks))
           (JsObject.keys data) /\
      (List.length (DraftPage.candidateResults data picks)
       <= List.length (JsObject.keys data))%nat)
  /\
  (forall (data : Logic.DataV2) (enemies : list Logic.EnemyPick),
      JsObject.wf data ->
      NoDup (map Logic.hero (Logic.scoreCandidates data enemies)) /\
      incl (map Logic.hero (Logic.scoreCandidates data enemies))
           (JsObject.keys data) /\
      (List.length (Logic.scoreCandidates data enemies)
       <= List.length (JsObject.keys data))%nat).
Proof.
  split.
  - intros data picks Hwf.
    assert (Hnd : NoDup (map DraftPage.hero
                             (DraftPage.candidateResults data picks))).
    { rewrite candidateResults_unfold.
      destruct (DraftPage.selectedEnemySlugs picks); [constructor|].
      apply (Permutation_NoDup
               (l := map DraftPage.hero
                         (DraftPage.candidates data (DraftPage.enemiesOf picks)))).
      - apply Permutation_map. symmetry. apply sort_perm.
      - now apply candidates_NoDup. }
    assert (Hin : incl (map DraftPage.hero
                            (DraftPage.candidateResults data picks))
                       (JsObject.keys data)).
    { intros h Hh. apply in_map_iff in Hh. destruct Hh as (r & <- & Hr).
      apply In_candidateResults in Hr. now apply candidates_hero_key in Hr. }
    repeat split; try assumption.
    rewrite <- (length_map DraftPage.hero). now apply NoDup_incl_length.
  - intros data enemies Hwf.
    destruct (flat_stepHeroV2_NoDup data enemies (JsObject.keys data) Hwf)
      as [Hnd0 _].
    assert (Hnd : NoDup (map Logic.hero (Logic.scoreCandidates data enemies))).
    { apply (Permutation_NoDup
               (l := map Logic.hero (Logic.candidates data enemies))).
      - apply Permutation_map. symmetry. apply sort_perm.
      - unfold Logic.candidates. rewrite fold_stepHeroV2. exact Hnd0. }
    assert (Hin : incl (map Logic.hero (Logic.scoreCandidates data enemies))
                       (JsObject.keys data)).
    { intros h Hh. apply in_map_iff in Hh. destruct Hh as (r & <- & Hr).
      apply In_scoreCandidates in Hr. now apply candidatesV2_hero_key in Hr. }
    repeat split; try assumption.
    rewrite <- (length_map Logic.hero). now apply NoDup_incl_length.
Qed.

Lemma result_heroes_witness :
  NoDup (map DraftPage.hero
             (DraftPage.candidateResults Example.data Example.axeAndEmpty)).
Proof.
  apply (proj1 result_heroes_are_distinct_dataset_heroes
               Example.data Example.axeAndEmpty).
  unfold Example.data. prove_wf.
Defined.

Lemma tieData_candidates :
  DraftPage.candidates Example.tieData (DraftPage.enemiesOf Example.axeOnly)
  = [Example.linaRow; Example.lionRow].
Proof.
  run_program. rewrite !score_single by lra. reflexivity.
Qed.

Lemma ties_witness :
  filter (fun _ => true)
         (DraftPage.candidateResults Example.tieData Example.axeOnly)
  = filter (fun _ => true)
           (DraftPage.candidates Example.tieData
                                 (DraftPage.enemiesOf Example.axeOnly)).
Proof.
  apply (ties_keep_dataset_order Example.tieData Example.axeOnly
                                 (fun _ => true)).
  - discriminate.
  - rewrite tieData_candidates.
    intros a b [<-|[<-|[]]] [<-|[<-|[]]] _ _; reflexivity.
Defined.

(** ** Only relative weights matter, in exact arithmetic *)

Lemma selectedEnemySlugs_scale c picks :
  DraftPage.selectedEnemySlugs (Spec.scalePicks c picks)
  = DraftPage.selectedEnemySlugs picks.
Proof.
  unfold DraftPage.selectedEnemySlugs, Spec.scalePicks.
  now rewrite map_map.
Qed.

Lemma enemiesOf_scale c picks :
  DraftPage.enemiesOf (Spec.scalePicks c picks)
  = map (fun e => DraftPage.mkEnemy (DraftPage.w_enemy e)
                                    (c * DraftPage.weight e))
        (DraftPage.enemiesOf picks).
Proof.
  unfold DraftPage.enemiesOf, Spec.scalePicks.
  induction picks as [|[[h|] w] picks IH]; simpl; [reflexivity| |exact IH].
  now rewrite IH.
Qed.

Lemma matched_scale c om es :
  Spec.matched om
    (map (fun e => DraftPage.mkEnemy (DraftPage.w_enemy e)
                                     (c * DraftPage.weight e)) es)
  = map (fun p => (c * fst p, snd p)) (Spec.matched om es).
Proof.
  induction es as [|e es IH]; simpl; [reflexivity|].
  rewrite IH. destruct (JsObject.get om (DraftPage.w_enemy e)); reflexivity.
Qed.

Lemma sumOver_scale (g : R -> R) c m :
  Spec.sumOver (fun p => fst p * g (snd p))
               (map (fun p => (c * fst p, snd p)) m)
  = c * Spec.sumOver (fun p => fst p * g (snd p)) m.
Proof. induction m as [|x m IH]; simpl; [lra|rewrite IH; lra]. Qed.

Lemma matchedWeight_scale c m :
  Spec.matchedWeight (map (fun p => (c * fst p, snd p)) m)
  = c * Spec.matchedWeight m.
Proof.
  unfold Spec.matchedWeight.
  induction m as [|x m IH]; simpl; [lra|rewrite IH; lra].
Qed.

Lemma stepHero_scale c es h om :
  0 < c ->
  let es' := map (fun e => DraftPage.mkEnemy (DraftPage.w_enemy e)
                                             (c * DraftPage.weight e)) es in
  DraftPage.stepHero es' (map DraftPage.w_enemy es') [] (h, om)
  = DraftPage.stepHero es (map DraftPage.w_enemy es) [] (h, om).
Proof.
  intros Hc es'. rewrite !stepHero_single. subst es'.
  rewrite matched_scale, matchedWeight_scale, map_map. simpl.
  destruct (JsArray.has _ h); [reflexivity|].
  destruct (Rle_dec (c * _) 0) as [H1|H1], (Rle_dec _ 0) as [H2|H2];
    try reflexivity; try (exfalso; nra).
  f_equal. f_equal.
  unfold Spec.combinedScore, Spec.combinedLogOdds.
  rewrite (sumOver_scale (fun wr => Spec.logOdds (Spec.clampedProb wr))),
    matchedWeight_scale.
  do 4 f_equal. field. lra.
Qed.

(** ** Slot order does not matter to the exact scores *)

Lemma scoreOf_absent data picks H :
  JsObject.get data H = None ->
  Spec.scoreOf H (DraftPage.candidateResults data picks) = None.
Proof.
  intros Hget. unfold Spec.scoreOf. rewrite find_hero_none; [reflexivity|].
  intros r Hr <-. apply In_candidateResults, candidates_hero_key in Hr.
  apply get_None_not_key in Hget. contradiction.
Qed.

Lemma matched_of_picks om picks :
  Spec.matched om (DraftPage.enemiesOf picks)
  = flat_map
      (fun p => match DraftPage.pick_hero p with
                | Some h =>
                    match JsObject.get om (DraftPage.slug h) with
                    | Some wr => [(DraftPage.pick_weight p, wr)]
                    | None => []
                    end
                | None => []
                end)
      picks.
Proof.
  induction picks as [|[[h|] w] picks IH]; simpl; [reflexivity| |exact IH].
  unfold DraftPage.enemiesOf in *. simpl. now rewrite IH.
Qed.

Lemma sumOver_perm {A : Type} (f : A -> R) l l' :
  Permutation l l' -> Spec.sumOver f l = Spec.sumOver f l'.
Proof. induction 1; simpl; lra. Qed.

Lemma has_perm xs ys x :
  Permutation xs ys -> JsArray.has xs x = JsArray.has ys x.
Proof.
  intros HP. destruct (JsArray.has ys x) eqn:E.
  - apply has_In. apply has_In in E. now apply (Permutation_in _ (Permutation_sym HP)).
  - apply has_false_In. apply has_false_In in E. intros Hin. apply E.
    now apply (Permutation_in _ HP).
Qed.

Lemma scoreOf_perm data picks picks' H :
  JsObject.wf data ->
  Permutation picks picks' ->
  Spec.scoreOf H (DraftPage.candidateResults data picks)
  = Spec.scoreOf H (DraftPage.candidateResults data picks').
Proof.
  intros Hwf HP.
  destruct (JsObject.get data H) as [om|] eqn:Hget;
    [|now rewrite !scoreOf_absent].
  assert (Hsl : Permutation (DraftPage.selectedEnemySlugs picks)
                            (DraftPage.selectedEnemySlugs picks')).
  { unfold DraftPage.selectedEnemySlugs.
    now apply Permutation_flat_map, Permutation_map. }
  destruct (DraftPage.selectedEnemySlugs picks) as [|s ss] eqn:E.
  - apply Permutation_nil in Hsl.
    unfold DraftPage.candidateResults. now rewrite E, Hsl.
  - assert (E' : DraftPage.selectedEnemySlugs picks' <> []).
    { intros Hn. rewrite Hn in Hsl. apply Permutation_sym, Permutation_nil in Hsl.
      discriminate. }
    rewrite !(scoreOf_closed data _ H om Hwf Hget) by congruence.
    cbv zeta.
    assert (Hm : Permutation (Spec.matched om (DraftPage.enemiesOf picks))
                             (Spec.matched om (DraftPage.enemiesOf picks'))).
    { rewrite !matched_of_picks. now apply Permutation_flat_map. }
    assert (Hh : Permutation (Spec.selectedHeroes picks)
                             (Spec.selectedHeroes picks'))
      by now apply Permutation_flat_map.
    rewrite (has_perm _ _ H Hh).
    unfold Spec.combinedScore, Spec.combinedLogOdds, Spec.matchedWeight.
    rewrite (sumOver_perm fst _ _ Hm).
    now rewrite (sumOver_perm
                   (fun p => fst p * Spec.logOdds (Spec.clampedProb (snd p)))
                   _ _ Hm).
Qed.

(** ** Better records never lower a score *)

Lemma matched_noWorse om om' es :
  Spec.noWorse om om' ->
  (forall e, In e es -> 0 <= DraftPage.weight e) ->
  Spec.matchedWeight (Spec.matched om es)
  = Spec.matchedWeight (Spec.matched om' es) /\
  Spec.sumOver (fun p => fst p * Spec.logOdds (Spec.clampedProb (snd p)))
               (Spec.matched om es)
  <= Spec.sumOver (fun p => fst p * Spec.logOdds (Spec.clampedProb (snd p)))
                  (Spec.matched om' es).
Proof.
  intros Hnw. unfold Spec.matchedWeight.
  induction es as [|e es IH]; intros Hw; simpl; [split; lra|].
  destruct IH as [IHw IHs]; [intros; apply Hw; now right|].
  assert (He : 0 <= DraftPage.weight e) by (apply Hw; now left).
  specialize (Hnw (DraftPage.w_enemy e)).
  destruct (JsObject.get om (DraftPage.w_enemy e)) as [a|],
           (JsObject.get om' (DraftPage.w_enemy e)) as [b|];
    try contradiction; simpl; [|split; assumption].
  pose proof (pctToLogOdds_monotone a b Hnw) as Hm.
  rewrite !pctToLogOdds_spec in Hm. split; [lra|nra].
Qed.

(** X13. Take two datasets, each with one entry per hero, in which hero [H] has
    records against the same opponents, none lower in the second.  With no
    negative weight among the picks, [H] is listed by both or by neither,
    and its combined score over the second dataset is at least its score
    over the first. *)
Theorem better_records_never_lower_the_score :
  forall (data data' : DraftPage.Dataset) (picks : list DraftPage.EnemyPick)
         (H : string) (om om' : DraftPage.OppMap),
    JsObject.wf data -> JsObject.wf data' ->
    JsObject.get data H = Some om -> JsObject.get data' H = Some om' ->
    Spec.noWorse om om' ->
    (forall p, In p picks -> 0 <= DraftPage.pick_weight p) ->
    Spec.optLe (Spec.scoreOf H (DraftPage.candidateResults data picks))
               (Spec.scoreOf H (DraftPage.candidateResults data' picks)).
Proof.
  intros data data' picks H om om' Hwf Hwf' Hg Hg' Hnw Hw.
  destruct (DraftPage.selectedEnemySlugs picks) as [|s ss] eqn:E.
  - unfold DraftPage.candidateResults. rewrite E. exact I.
  - rewrite (scoreOf_closed data picks H om Hwf Hg) by congruence.
    rewrite (scoreOf_closed data' picks H om' Hwf' Hg') by congruence.
    cbv zeta.
    destruct (matched_noWorse om om' (DraftPage.enemiesOf picks) Hnw)
      as [Hmw Hs].
    { intros e He. apply In_enemiesOf in He.
      destruct He as (p & _ & Hp & _ & _ & ->). now apply Hw. }
    destruct (JsArray.has _ H); [exact I|].
    rewrite <- Hmw.
    destruct (Rle_dec _ 0) as [|Hpos]; [exact I|]. simpl.
    unfold Spec.combinedScore. rewrite <- !logOddsToPct_spec.
    apply logOddsToPct_monotone. unfold Spec.combinedLogOdds.
    rewrite <- Hmw. unfold Rdiv. apply Rmult_le_compat_r; [|exact Hs].
    left. apply Rinv_0_lt_compat. lra.
Qed.

Lemma better_records_witness :
  Spec.optLe
    (Spec.scoreOf "juggernaut"
       (DraftPage.candidateResults Example.data Example.axeAndZeus))
    (Spec.scoreOf "juggernaut"
       (DraftPage.candidateResults Example.betterData Example.axeAndZeus)).
Proof.
  apply (better_records_never_lower_the_score
           Example.data Example.betterData Example.axeAndZeus
           "juggernaut"%string
           [("axe"%string, 55); ("zeus"%string, 40)]
           [("axe"%string, 55); ("zeus"%string, 45)]).
  - unfold Example.data. prove_wf.
  - unfold Example.betterData. prove_wf.
  - reflexivity.
  - reflexivity.
  - intros k. cbn [JsObject.get].
    destruct (String.eqb "axe" k); [lra|].
    destruct (String.eqb "zeus" k); [lra|exact I].
  - intros p [<-|[<-|[]]]; simpl; lra.
Defined.

(** ** What a lookup in a loaded object finds *)

Lemma fold_set_get {A V : Type} (key : A -> string) (val : A -> V)
      (xs : list A) (o0 : JsObject.t V) (k : string) :
  JsObject.get
    (fold_left (fun o x => JsObject.set o (key x) (val x)) xs o0) k
  = match find (fun x => String.eqb (key x) k) (rev xs) with
    | Some x => Some (val x)
    | None => JsObject.get o0 k
    end.
Proof.
  induction xs as [|x xs IH] using rev_ind; [reflexivity|].
  rewrite fold_left_app, rev_app_distr. simpl.
  destruct (String.eqb (key x) k) eqn:E.
  - apply String.eqb_eq in E. subst k. apply get_set_same.
  - apply String.eqb_neq in E. rewrite get_set_other by assumption. exact IH.
Qed.

Lemma lowerAscii_idempotent c : lowerAscii (lowerAscii c) = lowerAscii c.
Proof.
  destruct c as [[] [] [] [] [] [] [] []]; reflexivity.
Qed.

Lemma toLowerCase_idempotent s : toLowerCase (toLowerCase s) = toLowerCase s.
Proof.
  induction s as [|c s IH]; simpl; [reflexivity|].
  now rewrite lowerAscii_idempotent, IH.
Qed.

Lemma fold_set_keys {A V : Type} (key : A -> string) (val : A -> V)
      (xs : list A) (o0 : JsObject.t V) (k : string) :
  In k (JsObject.keys
          (fold_left (fun o x => JsObject.set o (key x) (val x)) xs o0)) ->
  In k (JsObject.keys o0) \/ exists x, In x xs /\ key x = k.
Proof.
  induction xs as [|x xs IH] using rev_ind; [auto|].
  rewrite fold_left_app. simpl. rewrite In_keys_set. intros [H| ->].
  - destruct (IH H) as [H0|[y [Hy E]]]; [now left|].
    right. exists y. split; [apply in_app_iff; now left|assumption].
  - right. exists x. split; [apply in_app_iff; right; now left|reflexivity].
Qed.

Lemma fold_set_keys_conv {A V : Type} (key : A -> string) (val : A -> V)
      (xs : list A) (o0 : JsObject.t V) (k : string) :
  In k (JsObject.keys o0) \/ (exists x, In x xs /\ key x = k) ->
  In k (JsObject.keys
          (fold_left (fun o x => JsObject.set o (key x) (val x)) xs o0)).
Proof.
  induction xs as [|x xs IH] using rev_ind.
  - intros [H|[x [[] _]]]. exact H.
  - rewrite fold_left_app. simpl. rewrite In_keys_set.
    intros [H|[y [Hy E]]].
    + left. apply IH. now left.
    + apply in_app_iff in Hy. destruct Hy as [Hy|[->|[]]].
      * left. apply IH. right. now exists y.
      * now right.
Qed.

Lemma fold_set_wf {A V : Type} (key : A -> string) (val : A -> V)
      (xs : list A) (o0 : JsObject.t V) :
  JsObject.wf o0 ->
  JsObject.wf (fold_left (fun o x => JsObject.set o (key x) (val x)) xs o0).
Proof.
  revert o0. induction xs as [|x xs IH]; intros o0 H; simpl; [exact H|].
  apply IH. now apply wf_set.
Qed.


Lemma buildMap_get ms k :
  JsObject.get (DraftPage.buildMap ms) k
  = option_map
      DraftPage.m_winrate
      (find (fun m => String.eqb (toLowerCase (DraftPage.opponent m)) k)
            (rev ms)).
Proof.
  unfold DraftPage.buildMap.
  rewrite (fold_set_get (fun m => toLowerCase (DraftPage.opponent m))
                        DraftPage.m_winrate).
  now destruct (find _ _).
Qed.

Lemma loaded_get fetched d h :
  DraftPage.load fetched = DraftPage.Loaded d ->
  JsObject.get d h
  = option_map
      (fun f => DraftPage.buildMap (DraftPage.matchups f))
      (find (fun f => String.eqb (toLowerCase (DraftPage.f_hero f)) h)
            (rev (DraftPage.parseable fetched))).
Proof.
  intros Hload. apply load_Loaded in Hload. destruct Hload as [_ ->].
  rewrite (fold_set_get (fun f => toLowerCase (DraftPage.f_hero f))
                        (fun f => DraftPage.buildMap (DraftPage.matchups f))).
  now destruct (find _ _).
Qed.

Lemma loaded_wf fetched d :
  DraftPage.load fetched = DraftPage.Loaded d -> JsObject.wf d.
Proof.
  intros Hload. apply load_Loaded in Hload. destruct Hload as [_ ->].
  apply (fold_set_wf (fun f => toLowerCase (DraftPage.f_hero f))
                     (fun f => DraftPage.buildMap (DraftPage.matchups f))).
  constructor.
Qed.

Lemma loaded_keys fetched d h :
  DraftPage.load fetched = DraftPage.Loaded d ->
  In h (JsObject.keys d) <->
  exists f, In (DraftPage.Parsed f) fetched /\
            toLowerCase (DraftPage.f_hero f) = h.
Proof.
  intros Hload. apply load_Loaded in Hload. destruct Hload as [_ ->].
  rewrite parseable_goodFiles. split.
  - intros Hk.
    apply (fold_set_keys (fun f => toLowerCase (DraftPage.f_hero f))
             (fun f => DraftPage.buildMap (DraftPage.matchups f))) in Hk.
    destruct Hk as [[]|[f [Hf E]]]. exists f.
    split; [now apply In_goodFiles|assumption].
  - intros [f [Hf E]].
    apply (fold_set_keys_conv (fun f => toLowerCase (DraftPage.f_hero f))
             (fun f => DraftPage.buildMap (DraftPage.matchups f))).
    right. exists f. split; [now apply In_goodFiles|assumption].
Qed.



(** X14. What the loaded dataset holds for a key: when no body aborts the
    load, the hero's map is the one built from the last parseable file
    naming that hero (compared in lower case), and within a file the
    winrate stored for an opponent is that of the last matchup row naming
    it; a key no file or row names is absent. *)
Theorem loaded_dataset_lookup :
  (forall fetched : list DraftPage.FetchOutcome,
      ~ In DraftPage.Misshapen fetched ->
      exists d : DraftPage.Dataset,
        DraftPage.load fetched = DraftPage.Loaded d /\
        forall h : string,
          JsObject.get d h
          = option_map
              (fun f => DraftPage.buildMap (DraftPage.matchups f))
              (find (fun f => String.eqb (toLowerCase (DraftPage.f_hero f)) h)
                    (rev (DraftPage.parseable fetched))))
  /\
  (forall (ms : list DraftPage.Matchup) (k : string),
      JsObject.get (DraftPage.buildMap ms) k
      = option_map
          DraftPage.m_winrate
          (find (fun m => String.eqb (toLowerCase (DraftPage.opponent m)) k)
                (rev ms))).
Proof.
  split.
  - intros fetched Hno. eexists. split; [now apply load_shaped|].
    intros h. apply (loaded_get fetched). now apply load_shaped.
  - apply buildMap_get.
Qed.

Lemma loaded_dataset_witness :
  exists d : DraftPage.Dataset,
    DraftPage.load Example.fetched = DraftPage.Loaded d /\
    forall h : string,
      JsObject.get d h
      = option_map
          (fun f => DraftPage.buildMap (DraftPage.matchups f))
          (find (fun f => String.eqb (toLowerCase (DraftPage.f_hero f)) h)
                (rev (DraftPage.parseable Example.fetched))).
Proof.
  apply (proj1 loaded_dataset_lookup Example.fetched).
  intros [H|[H|[]]]; discriminate H.
Defined.

(** X15. Every key of a loaded dataset, hero or opponent, is in lower case; a
    slug with an upper-case letter therefore finds nothing. *)
Theorem loaded_keys_are_lower_case :
  forall (fetched : list DraftPage.FetchOutcome) (d : DraftPage.Dataset)
         (h : string) (oppMap : DraftPage.OppMap),
    DraftPage.load fetched = DraftPage.Loaded d ->
    In (h, oppMap) (JsObject.entries d) ->
    toLowerCase h = h /\
    (forall k, In k (JsObject.keys oppMap) -> toLowerCase k = k) /\
    (forall s, toLowerCase s <> s ->
               JsObject.get d s = None /\ JsObject.get oppMap s = None).
Proof.
  intros fetched d h om Hload Hin.
  assert (Hkeys : forall k, In k (JsObject.keys d) -> toLowerCase k = k).
  { intros k Hk. apply (loaded_keys fetched d k Hload) in Hk.
    destruct Hk as [f [_ <-]]. apply toLowerCase_idempotent. }
  assert (Hmap : forall ms k, In k (JsObject.keys (DraftPage.buildMap ms))
                              -> toLowerCase k = k).
  { intros ms k Hk. unfold DraftPage.buildMap in Hk.
    apply (fold_set_keys (fun m => toLowerCase (DraftPage.opponent m))
                         DraftPage.m_winrate) in Hk.
    destruct Hk as [[]|[m [_ <-]]]. apply toLowerCase_idempotent. }
  assert (Hom : exists ms, om = DraftPage.buildMap ms).
  { assert (G : JsObject.get d h = Some om)
      by (apply In_wf_get; [exact (loaded_wf fetched d Hload)|exact Hin]).
    rewrite (loaded_get fetched d h Hload) in G.
    destruct (find _ _) as [f|]; [|discriminate].
    injection G as <-. now exists (DraftPage.matchups f). }
  destruct Hom as [ms ->].
  repeat split.
  - apply Hkeys. unfold JsObject.keys. apply in_map_iff.
    now exists (h, DraftPage.buildMap ms).
  - apply Hmap.
  - apply get_None_not_key. intros Hk. apply Hkeys in Hk. contradiction.
  - apply get_None_not_key. intros Hk. apply Hmap in Hk. contradiction.
Qed.

Lemma loaded_keys_witness :
  toLowerCase "juggernaut" = "juggernaut"%string.
Proof.
  refine (proj1 (loaded_keys_are_lower_case
                   Example.fetched Example.jugData "juggernaut"%string
                   [("axe"%string, 55)] _ _)).
  - reflexivity.
  - now left.
Defined.




(** ** The server's dataset *)

Lemma In_set_inv {V : Type} (o : JsObject.t V) k v k' v' :
  In (k', v') (JsObject.set o k v) -> (k', v') = (k, v) \/ In (k', v') o.
Proof.
  induction o as [|[k0 v0] o IH]; simpl.
  - intros [H|[]]. left. now symmetry.
  - destruct (String.eqb k0 k); simpl.
    + intros [H|H]; [left; now symmetry|right; now right].
    + intros [H|H]; [right; now left|].
      destruct (IH H) as [E|Hin]; [now left|right; now right].
Qed.

Lemma truthy_toLowerCase s : truthy (toLowerCase s) = truthy s.
Proof. now destruct s. Qed.

Lemma truthy_nonempty s : truthy s = true -> s <> EmptyString.
Proof. destruct s; [discriminate|discriminate]. Qed.

Section ServerRows.
Import Server.

Lemma stepMatchup_cases st m :
  stepMatchup st m =
  if usableRow m
  then (JsObject.set (fst st)
          (toLowerCase (orElse (raw_opponent m) EmptyString))
          (Logic.mkOppRec
             (match raw_winrate m with Some wr => wr | None => 0 end)
             (match raw_matches m with Some mt => mt | None => 0 end)),
        snd st + match raw_matches m with Some mt => mt | None => 0 end)
  else st.
Proof.
  unfold stepMatchup, usableRow, orElse. destruct st as [o t].
  destruct (raw_opponent m) as [s|], (raw_winrate m), (raw_matches m);
    simpl; try reflexivity.
  rewrite truthy_toLowerCase.
  destruct (truthy s) eqn:E; [now rewrite E|reflexivity].
Qed.

End ServerRows.

Section ServerInvariant.
Import Server.

Lemma stepMatchup_good st m :
  goodOpponents (fst st) -> goodOpponents (fst (stepMatchup st m)).
Proof.
  intros [Hwf Hk]. rewrite stepMatchup_cases.
  destruct (usableRow m) eqn:U; [|now split]. simpl. split.
  - now apply wf_set.
  - intros k Hin. apply In_keys_set in Hin. destruct Hin as [Hin| ->]; [auto|].
    unfold usableRow in U. unfold orElse.
    destruct (raw_opponent m) as [s|]; [|discriminate].
    destruct (raw_winrate m); [|discriminate].
    destruct (raw_matches m); [|discriminate].
    rewrite U. split; [|apply toLowerCase_idempotent].
    apply truthy_nonempty. now rewrite truthy_toLowerCase.
Qed.

Lemma fold_stepMatchup_good ms st :
  goodOpponents (fst st) -> goodOpponents (fst (fold_left stepMatchup ms st)).
Proof.
  revert st. induction ms as [|m ms IH]; intros st H; simpl; [assumption|].
  now apply IH, stepMatchup_good.
Qed.

Lemma readMatchups_good ms : goodOpponents (fst (readMatchups ms)).
Proof.
  apply fold_stepMatchup_good. split; [constructor|intros k []].
Qed.

Lemma fold_stepMatchup_unusable ms st :
  forallb (fun m => negb (usableRow m)) ms = true ->
  fold_left stepMatchup ms st = st.
Proof.
  revert st. induction ms as [|m ms IH]; intros st H; simpl; [reflexivity|].
  simpl in H. apply andb_prop in H. destruct H as [Hm Hms].
  rewrite stepMatchup_cases. apply negb_true_iff in Hm. rewrite Hm.
  now apply IH.
Qed.

Lemma stepMatchup_keeps_keys st m k :
  In k (JsObject.keys (fst st)) ->
  In k (JsObject.keys (fst (stepMatchup st m))).
Proof.
  intros H. rewrite stepMatchup_cases. destruct (usableRow m); [|assumption].
  simpl. apply In_keys_set. now left.
Qed.

Lemma fold_stepMatchup_keeps_keys ms st k :
  In k (JsObject.keys (fst st)) ->
  In k (JsObject.keys (fst (fold_left stepMatchup ms st))).
Proof.
  revert st. induction ms as [|m ms IH]; intros st H; simpl; [assumption|].
  now apply IH, stepMatchup_keeps_keys.
Qed.

Lemma fold_stepMatchup_usable ms st :
  existsb usableRow ms = true ->
  JsObject.keys (fst (fold_left stepMatchup ms st)) <> [].
Proof.
  revert st. induction ms as [|m ms IH]; intros st H; simpl in *;
    [discriminate|].
  destruct (usableRow m) eqn:U; [|now apply IH].
  assert (Hk : In (toLowerCase (orElse (raw_opponent m) EmptyString))
                  (JsObject.keys (fst (stepMatchup st m)))).
  { rewrite stepMatchup_cases, U. simpl. apply In_keys_set. now right. }
  apply (fold_stepMatchup_keeps_keys ms) in Hk.
  intros E. rewrite E in Hk. contradiction.
Qed.

Lemma stepFile_entries data entry h hd :
  In (h, hd) (stepFile data entry) ->
  In (h, hd) data \/
  (toLowerCase h = h /\ Logic.opponents hd <> [] /\
   goodOpponents (Logic.opponents hd)).
Proof.
  destruct entry as [file [|obj]].
  - rewrite stepFile_unreadable by reflexivity. auto.
  - rewrite stepFile_decoded. destruct (negb _); [auto|]. cbv zeta.
    destruct (Nat.ltb _ _) eqn:L; [|auto].
    intros Hin. apply In_set_inv in Hin. destruct Hin as [[= -> ->]|Hin];
      [right|now left].
    simpl. split; [|split].
    + apply toLowerCase_idempotent.
    + apply Nat.ltb_lt in L. intros E. unfold JsObject.keys in L.
      rewrite E in L. simpl in L. lia.
    + apply readMatchups_good.
Qed.

End ServerInvariant.

(** X17. Every hero the server's [loadData] returns is stored under a
    lower-case key and has at least one opponent; its opponents are stored
    one per key, under non-empty lower-case keys. *)
Theorem server_dataset_is_well_formed :
  forall (dir : list (string * Server.ReadOutcome))
         (h : string) (hd : Logic.HeroData),
    In (h, hd) (JsObject.entries (Server.loadData dir)) ->
    toLowerCase h = h /\
    Logic.opponents hd <> [] /\
    Server.goodOpponents (Logic.opponents hd).
Proof.
  intros dir h hd. unfold Server.loadData, JsObject.entries.
  assert (Hgen : forall data,
             (forall h hd, In (h, hd) data ->
                toLowerCase h = h /\ Logic.opponents hd <> [] /\
                Server.goodOpponents (Logic.opponents hd)) ->
             In (h, hd) (fold_left Server.stepFile dir data) ->
             toLowerCase h = h /\ Logic.opponents hd <> [] /\
             Server.goodOpponents (Logic.opponents hd)).
  { induction dir as [|e dir IH]; intros data Hd; simpl; [apply Hd|].
    apply IH. intros h' hd' Hin. apply stepFile_entries in Hin.
    destruct Hin as [Hin|Hok]; [now apply Hd|exact Hok]. }
  apply Hgen. intros h' hd' [].
Qed.

Lemma listing_loaded :
  Server.loadData Example.listing
  = [("axe"%string,
      Logic.mkHeroData [("zeus"%string, Logic.mkOppRec 52 1000)] (0 + 1000))].
Proof. reflexivity. Qed.

Lemma server_dataset_witness :
  toLowerCase "axe" = "axe"%string /\
  [("zeus"%string, Logic.mkOppRec 52 1000)] <> [] /\
  Server.goodOpponents [("zeus"%string, Logic.mkOppRec 52 1000)].
Proof.
  apply (server_dataset_is_well_formed
           Example.listing "axe"%string
           (Logic.mkHeroData [("zeus"%string, Logic.mkOppRec 52 1000)]
                             (0 + 1000))).
  rewrite listing_loaded. now left.
Defined.

(** ** File names *)

Lemma length_append s t :
  String.length (s ++ t) = (String.length s + String.length t)%nat.
Proof. induction s as [|c s IH]; simpl; [reflexivity|now rewrite IH]. Qed.

Lemma substring_whole t : substring 0 (String.length t) t = t.
Proof. induction t as [|c t IH]; simpl; [reflexivity|now rewrite IH]. Qed.

Lemma substring_suffix s t :
  substring (String.length s) (String.length t) (s ++ t) = t.
Proof.
  induction s as [|c s IH]; simpl; [apply substring_whole|exact IH].
Qed.

Lemma substring_prefix s t : substring 0 (String.length s) (s ++ t) = s.
Proof.
  induction s as [|c s IH]; simpl; [now destruct t|now rewrite IH].
Qed.

Lemma endsWith_append s t : Server.endsWith (s ++ t) t = true.
Proof.
  unfold Server.endsWith. rewrite length_append.
  replace (String.length s + String.length t - String.length t)%nat
    with (String.length s) by lia.
  rewrite substring_suffix, String.eqb_refl.
  apply andb_true_iff. split; [apply Nat.leb_le; lia|reflexivity].
Qed.

Lemma basename_append s t : Server.basename (s ++ t) t = s.
Proof.
  unfold Server.basename. rewrite endsWith_append, length_append.
  replace (String.length s + String.length t - String.length t)%nat
    with (String.length s) by lia.
  apply substring_prefix.
Qed.

Section ServerRecords.
Import Server.

Lemma fold_stepMatchup_closed ms st :
  fold_left stepMatchup ms st
  = (fold_left (fun o r => JsObject.set o (fst r) (snd r))
               (Spec.usableRowsOf ms) (fst st),
     fold_left (fun t r => t + Logic.rec_matches (snd r))
               (Spec.usableRowsOf ms) (snd st)).
Proof.
  revert st. induction ms as [|m ms IH]; intros [o t]; [reflexivity|].
  cbn [fold_left]. rewrite IH. unfold Spec.usableRowsOf.
  cbn [flat_map]. rewrite !fold_left_app.
  unfold stepMatchup, orElse.
  destruct (raw_opponent m) as [[|c s]|], (raw_winrate m) as [wr|],
    (raw_matches m) as [mt|]; reflexivity.
Qed.

Lemma readMatchups_closed obj :
  readMatchups (match raw_matchups obj with Some ms => ms | None => [] end)
  = (fold_left (fun o r => JsObject.set o (fst r) (snd r))
               (Spec.usableRows obj) JsObject.empty,
     Spec.matchTotal (Spec.usableRows obj)).
Proof.
  unfold readMatchups, Spec.usableRows, Spec.matchTotal.
  rewrite fold_stepMatchup_closed. now destruct (raw_matchups obj).
Qed.

End ServerRecords.

(** X18. A readable [.json] file with at least one row that carries data is
    stored under its [hero] field in lower case or, when the field is
    missing or empty, under the file name without [.json], in lower case.
    The entry has one record per opponent its rows name: the winrate and
    match count of the last such row; its match total is the sum over all
    rows that carry data, repeated opponents included. *)
Theorem server_file_is_stored_under_its_hero :
  forall (data : Logic.DataV2) (stem : string) (obj : Server.RawFile),
    Spec.usableRows obj <> [] ->
    exists hd : Logic.HeroData,
      JsObject.get
        (Server.stepFile data ((stem ++ ".json")%string, Server.Decoded obj))
        (toLowerCase (Server.orElse (Server.raw_hero obj) stem))
      = Some hd /\
      JsObject.wf (Logic.opponents hd) /\
      (forall k, JsObject.get (Logic.opponents hd) k
                 = Spec.lastRecord (Spec.usableRows obj) k) /\
      Logic.totalMatches hd = Spec.matchTotal (Spec.usableRows obj).
Proof.
  intros data stem obj Hrows. rewrite stepFile_decoded.
  rewrite endsWith_append, basename_append. simpl negb. cbv zeta.
  rewrite readMatchups_closed. cbn [fst snd].
  set (o := fold_left (fun o r => JsObject.set o (fst r) (snd r))
                      (Spec.usableRows obj) JsObject.empty).
  assert (Hk : JsObject.keys o <> []).
  { destruct (Spec.usableRows obj) as [|r rows] eqn:E; [congruence|].
    assert (Hin : In (fst r) (JsObject.keys o)).
    { apply (fold_set_keys_conv fst snd). right. exists r.
      split; [now left|reflexivity]. }
    intros En. rewrite En in Hin. contradiction. }
  destruct (JsObject.keys o) as [|k ks] eqn:E; [congruence|].
  cbn [List.length Nat.ltb Nat.leb].
  eexists. split; [apply get_set_same|]. cbn [Logic.opponents Logic.totalMatches].
  split; [|split; [|reflexivity]].
  - apply (fold_set_wf fst snd). constructor.
  - intros k'. unfold o, Spec.lastRecord. rewrite (fold_set_get fst snd).
    now destruct (find _ _).
Qed.

Lemma server_file_witness :
  exists hd : Logic.HeroData,
    JsObject.get
      (Server.stepFile JsObject.empty
                       (("axe" ++ ".json")%string,
                        Server.Decoded Example.axeFile))
      (toLowerCase (Server.orElse (Server.raw_hero Example.axeFile) "axe"))
    = Some hd /\
    JsObject.wf (Logic.opponents hd) /\
    (forall k, JsObject.get (Logic.opponents hd) k
               = Spec.lastRecord (Spec.usableRows Example.axeFile) k) /\
    Logic.totalMatches hd = Spec.matchTotal (Spec.usableRows Example.axeFile).
Proof.
  apply (server_file_is_stored_under_its_hero
           JsObject.empty "axe"%string Example.axeFile).
  discriminate.
Defined.

(** X19. A directory entry adds nothing to the server's dataset when its name
    does not end in [.json], when it cannot be read or parsed, or when it
    has no usable row (as the patch metadata file has none): the dataset
    is the one the other entries give. *)
Theorem server_skips_entries_without_data :
  forall (before after : list (string * Server.ReadOutcome))
         (file : string) (outcome : Server.ReadOutcome),
    (Server.endsWith file ".json" = false \/
     outcome = Server.Unreadable \/
     exists obj, outcome = Server.Decoded obj /\
                 forallb (fun m => negb (Server.usableRow m))
                         (Server.rowsOf obj) = true) ->
    Server.loadData (before ++ (file, outcome) :: after)
    = Server.loadData (before ++ after).
Proof.
  intros before after file outcome Hskip. unfold Server.loadData.
  rewrite !fold_left_app. cbn [fold_left]. f_equal.
  destruct Hskip as [Hext|[->|(obj & -> & Hrows)]].
  - unfold Server.stepFile. now rewrite Hext.
  - now apply stepFile_unreadable.
  - rewrite stepFile_decoded. destruct (negb _); [reflexivity|]. cbv zeta.
    fold (Server.rowsOf obj). unfold Server.readMatchups.
    now rewrite fold_stepMatchup_unusable.
Qed.

Lemma server_skips_witness :
  Server.loadData
    ([("axe.json"%string, Server.Decoded Example.axeFile)]
       ++ ("metadata.json"%string, Server.Decoded Example.metadataFile)
       :: [("notes.txt"%string, Server.Unreadable)])
  = Server.loadData
      ([("axe.json"%string, Server.Decoded Example.axeFile)]
         ++ [("notes.txt"%string, Server.Unreadable)]).
Proof.
  apply (server_skips_entries_without_data
           [("axe.json"%string, Server.Decoded Example.axeFile)]
           [("notes.txt"%string, Server.Unreadable)]
           "metadata.json"%string (Server.Decoded Example.metadataFile)).
  right. right. exists Example.metadataFile. split; reflexivity.
Defined.

(** ** Which heroes are listed *)

(** X9. Over a dataset with one entry per hero and with some hero selected, a
    dataset hero is listed exactly when it is not itself selected and the
    weights of the selected enemies it has a record against add up to a
    positive total. *)
Theorem listed_exactly_when_rankable :
  forall (data : DraftPage.Dataset) (picks : list DraftPage.EnemyPick)
         (H : string) (oppMap : DraftPage.OppMap),
    JsObject.wf data ->
    JsObject.get data H = Some oppMap ->
    DraftPage.selectedEnemySlugs picks <> [] ->
    (exists r, In r (DraftPage.candidateResults data picks) /\
               DraftPage.hero r = H)
    <->
    (~ In H (Spec.selectedHeroes picks) /\
     0 < DraftPage.weightTotal
           (DraftPage.scanEnemies oppMap (DraftPage.enemiesOf picks))).
Proof.
  intros data picks H om Hwf Hget Hsel.
  rewrite scanEnemies_closed. simpl. rewrite <- enemiesOf_slugs. split.
  - intros (r & Hr & <-). apply In_candidateResults, In_candidates in Hr.
    destruct Hr as (h & om' & Hin & Hni & Hpos & ->). simpl in *.
    apply (In_wf_get _ _ _ Hwf) in Hin. rewrite Hin in Hget.
    injection Hget as ->. now split.
  - intros [Hni Hpos].
    exists (DraftPage.mkResult
              H (Spec.combinedScore
                   (Spec.matched om (DraftPage.enemiesOf picks)))
              (Spec.breakdown om
                 (map DraftPage.w_enemy (DraftPage.enemiesOf picks)))).
    split; [|reflexivity].
    rewrite candidateResults_unfold.
    destruct (DraftPage.selectedEnemySlugs picks); [congruence|].
    apply In_sort, In_candidates. exists H, om.
    repeat split; try assumption. now apply get_In.
Qed.

Lemma listed_witness :
  (exists r, In r (DraftPage.candidateResults Example.data Example.axeAndEmpty)
             /\ DraftPage.hero r = "zeus"%string)
  <->
  (~ In "zeus"%string (Spec.selectedHeroes Example.axeAndEmpty) /\
   0 < DraftPage.weightTotal
         (DraftPage.scanEnemies [("axe"%string, 48)]
                                (DraftPage.enemiesOf Example.axeAndEmpty))).
Proof.
  apply (listed_exactly_when_rankable
           Example.data Example.axeAndEmpty "zeus"%string
           [("axe"%string, 48)]).
  - unfold Example.data. prove_wf.
  - reflexivity.
  - discriminate.
Defined.

Lemma enemiesOf_knownSlugs data slots :
  map Logic.slug (Logic.enemiesOf data slots) = Spec.knownSlugs data slots.
Proof.
  unfold Logic.enemiesOf, Spec.knownSlugs.
  induction slots as [|s slots IH]; [reflexivity|].
  cbn [filter flat_map]. unfold Logic.usable at 1.
  destruct (Logic.slot_slug s) as [[|c sl]|] eqn:E; [exact IH| |exact IH].
  cbn [truthy andb].
  destruct (JsObject.get data (String c sl)) as [hd|] eqn:G.
  - assert (Hh : JsArray.has (JsObject.keys data) (String c sl) = true).
    { apply has_In. apply get_In in G. unfold JsObject.keys.
      apply in_map_iff. now exists (String c sl, hd). }
    rewrite Hh. cbn [map app]. rewrite IH. f_equal.
    unfold Logic.slotSlug. now rewrite E.
  - apply get_None_not_key, has_false_In in G. rewrite G. exact IH.
Qed.

(** X20. The previous page scores only the slots whose slug is a non-empty key
    of the dataset.  Any other slot (empty, or naming a hero the dataset
    does not have) is dropped before scoring, so the results are those of
    the remaining slots; and every result is a hero of the dataset outside
    those slots, with one breakdown entry per such slot, in slot order,
    carrying the hero's recorded winrate against it or nothing. *)
Theorem old_page_ignores_unknown_slots :
  (forall (data : Logic.DataV2) (before after : list Logic.EnemySlot)
          (slot : Logic.EnemySlot),
      (Logic.slot_slug slot = None \/
       Logic.slot_slug slot = Some EmptyString \/
       exists s, Logic.slot_slug slot = Some s /\
                 JsObject.get data s = None) ->
      Logic.results data (before ++ slot :: after)
      = Logic.results data (before ++ after))
  /\
  (forall (data : Logic.DataV2) (slots : list Logic.EnemySlot)
          (r : Logic.Result),
      In r (Logic.results data slots) ->
      In (Logic.hero r) (JsObject.keys data) /\
      ~ In (Logic.hero r) (Spec.knownSlugs data slots) /\
      Logic.perEnemy r
      = map (fun s =>
               Logic.mkPerEnemy
                 s (option_map Logic.rec_winrate
                               (JsObject.get (Logic.oppMapOf data (Logic.hero r))
                                             s)))
            (Spec.knownSlugs data slots)).
Proof.
  split.
  - intros data before after slot Hslot. unfold Logic.results. f_equal.
    unfold Logic.enemiesOf. rewrite !filter_app. simpl filter.
    assert (Hu : Logic.usable data slot = false).
    { unfold Logic.usable.
      destruct Hslot as [->|[->|(s & -> & Hget)]]; try reflexivity.
      apply get_None_not_key, has_false_In in Hget. rewrite Hget.
      apply andb_false_r. }
    now rewrite Hu.
  - intros data slots r Hr. unfold Logic.results in Hr.
    apply In_scoreCandidates, In_candidatesV2 in Hr.
    destruct Hr as (h & Hin & Hno & _ & ->).
    rewrite enemiesOf_knownSlugs in *. cbn [Logic.hero Logic.perEnemy].
    split; [assumption|]. split; [assumption|reflexivity].
Qed.

Lemma dataTwoV2_results :
  Logic.results Example.dataTwoV2 [Example.axeSlot] = [Example.jugRowAxeV2].
Proof.
  cbv - [Rplus Rmult Rminus Rdiv Ropp Rinv IZR Rle Rlt Rle_dec Req_dec_T
         Logic.clamp].
  settle_tests. rewrite !clampV2_inside by lra.
  unfold Example.jugRowAxeV2. f_equal. f_equal. lra.
Qed.

Lemma old_page_witness :
  Logic.results Example.dataTwoV2 [Example.axeSlot] = [Example.jugRowAxeV2] /\
  Logic.results Example.dataTwoV2
                ([Example.axeSlot] ++ Example.techiesSlot :: [])
  = Logic.results Example.dataTwoV2 ([Example.axeSlot] ++ []).
Proof.
  split; [exact dataTwoV2_results|].
  apply (proj1 old_page_ignores_unknown_slots
               Example.dataTwoV2 [Example.axeSlot] [] Example.techiesSlot).
  right. right. exists "techies"%string. split; reflexivity.
Defined.

(** ** The role selection *)

Lemma In_toggleRole s role x :
  In x (DraftPage.toggleRole s role) <->
  (In role s /\ In x s /\ x <> role) \/ (~ In role s /\ (In x s \/ x = role)).
Proof.
  unfold DraftPage.toggleRole.
  destruct (JsArray.includes s role) eqn:E.
  - apply includes_In in E. rewrite filter_In, negb_true_iff, String.eqb_neq.
    tauto.
  - assert (Hni : ~ In role s)
      by (intros Hin; apply includes_In in Hin; congruence).
    rewrite in_app_iff. simpl. split.
    + intros [H|[<-|[]]]; right; auto.
    + intros [[H _]|[_ [H| ->]]]; [contradiction|now left|right; now left].
Qed.

(** X22. Toggling a role flips its membership in the selection and touches no
    other role; toggling it twice gives back a selection with the same
    roles, and the very same list when the role was not selected. *)
Theorem toggling_a_role_flips_it :
  forall (s : list string) (role : string),
    (In role (DraftPage.toggleRole s role) <-> ~ In role s) /\
    (forall x, x <> role ->
               (In x (DraftPage.toggleRole s role) <-> In x s)) /\
    Spec.sameRoles (DraftPage.toggleRole (DraftPage.toggleRole s role) role) s /\
    (~ In role s ->
     DraftPage.toggleRole (DraftPage.toggleRole s role) role = s).
Proof.
  intros s role.
  assert (H1 : forall t, In role (DraftPage.toggleRole t role) <-> ~ In role t)
    by (intros t; rewrite In_toggleRole; tauto).
  assert (H2 : forall t x, x <> role ->
                 (In x (DraftPage.toggleRole t role) <-> In x t))
    by (intros t x Hx; rewrite In_toggleRole; tauto).
  split; [apply H1|]. split; [intros x Hx; now apply H2|]. split.
  - intros x. destruct (string_dec x role) as [->|Hne].
    + rewrite H1, H1. destruct (in_dec string_dec role s); tauto.
    + now rewrite !H2 by assumption.
  - intros Hni. unfold DraftPage.toggleRole at 2.
    destruct (JsArray.includes s role) eqn:E;
      [apply includes_In in E; contradiction|].
    unfold DraftPage.toggleRole.
    assert (Hin : JsArray.includes (s ++ [role]) role = true)
      by (apply includes_In, in_app_iff; right; now left).
    rewrite Hin, filter_app. simpl. rewrite String.eqb_refl. simpl.
    rewrite app_nil_r. apply forallb_filter_id.
    apply forallb_forall. intros x Hx. apply negb_true_iff, String.eqb_neq.
    intros ->. contradiction.
Qed.

(** X23. Whatever the buttons of the dialog have done, the selection is a
    duplicate-free list of roles of the vocabulary, and the filter is
    active exactly when it is neither empty nor the whole vocabulary. *)
Theorem selection_is_always_a_role_set :
  forall s : list string,
    DraftPage.reachable s ->
    NoDup s /\
    incl s DraftPage.ALL_ROLES /\
    (List.length s <= 5)%nat /\
    (DraftPage.isFilteringActive s = true <->
     s <> [] /\ ~ Spec.sameRoles s DraftPage.ALL_ROLES).
Proof.
  intros s Hs. destruct (reachable_invariant s Hs) as [Hnd Hin].
  repeat split; try assumption.
  - apply (NoDup_incl_length Hnd Hin).
  - intros -> . discriminate.
  - intros Hsame.
    assert (Hoff : DraftPage.isFilteringActive s = false)
      by (apply isFilteringActive_spec; auto).
    congruence.
  - intros [Hne Hns].
    destruct (DraftPage.isFilteringActive s) eqn:E; [reflexivity|].
    apply isFilteringActive_spec in E; try assumption. tauto.
Qed.

Lemma selection_witness :
  NoDup (DraftPage.toggleRole DraftPage.ALL_ROLES "mid").
Proof.
  apply (selection_is_always_a_role_set
           (DraftPage.toggleRole DraftPage.ALL_ROLES "mid")).
  apply (DraftPage.reach_step DraftPage.ALL_ROLES (DraftPage.Toggle "mid")).
  - apply DraftPage.reach_init.
  - simpl. tauto.
Defined.

(** ** What the table shows *)

Lemma useHeroRoles_as_fold files :
  DraftPage.useHeroRoles files
  = fold_left (fun o e => JsObject.set o (fst e) (snd e))
              (Spec.roleEntries files) JsObject.empty.
Proof.
  unfold DraftPage.useHeroRoles, Spec.roleEntries.
  generalize (@JsObject.empty (list string)).
  induction files as [|f files IH]; intros o; simpl; [reflexivity|].
  rewrite fold_left_app, <- IH. f_equal.
  destruct f as [f|]; simpl; [|reflexivity].
  destruct (DraftPage.rf_hero f) as [h|]; [|reflexivity].
  now destruct (truthy h).
Qed.

Lemma StronglySorted_filter {A : Type} (R : A -> A -> Prop)
      (p : A -> bool) (l : list A) :
  StronglySorted R l -> StronglySorted R (filter p l).
Proof.
  induction 1 as [|a l Hs IH Ha]; simpl; [constructor|].
  destruct (p a); [|assumption]. constructor; [assumption|].
  apply Forall_forall. intros x Hx. apply filter_In in Hx.
  rewrite Forall_forall in Ha. apply Ha, Hx.
Qed.

Lemma filter_idempotent {A : Type} (p : A -> bool) (l : list A) :
  filter p (filter p l) = filter p l.
Proof.
  induction l as [|a l IH]; simpl; [reflexivity|].
  destruct (p a) eqn:E; simpl; [rewrite E; now f_equal|assumption].
Qed.

(** X24. The rows of the table are still ranked by combined score, largest
    first, whatever roles are selected; every row is one of the results;
    filtering what is displayed once more changes nothing. *)
Theorem displayed_rows_stay_ranked :
  forall (data : DraftPage.Dataset) (picks : list DraftPage.EnemyPick)
         (roleMap : DraftPage.RoleMap) (selectedRoles : list string),
    let results := DraftPage.candidateResults data picks in
    let shown := DraftPage.displayedResults results roleMap selectedRoles in
    StronglySorted (fun a b => DraftPage.combined b <= DraftPage.combined a)
                   shown /\
    incl shown results /\
    DraftPage.displayedResults shown roleMap selectedRoles = shown.
Proof.
  intros data picks roleMap selectedRoles results shown.
  assert (Hs : StronglySorted
                 (fun a b => DraftPage.combined b <= DraftPage.combined a)
                 results).
  { unfold results. rewrite candidateResults_unfold.
    destruct (DraftPage.selectedEnemySlugs picks); [constructor|].
    apply (sort_descending DraftPage.byCombinedDesc DraftPage.combined).
    reflexivity. }
  unfold shown, DraftPage.displayedResults.
  destruct (DraftPage.isFilteringActive selectedRoles); simpl.
  - split; [now apply StronglySorted_filter|]. split.
    + intros r Hr. apply filter_In in Hr. apply Hr.
    + apply filter_idempotent.
  - split; [assumption|]. split; [apply incl_refl|reflexivity].
Qed.

(** X25. A hero for which no role file set a non-empty role list (the fetch
    failed, the file has no [hero], or its [roles] is not an array or is
    empty) is never displayed while the role filter is active. *)
Theorem hero_without_roles_is_hidden_by_an_active_filter :
  forall (results : list DraftPage.CounterResult)
         (files : list (option DraftPage.RoleFile))
         (selectedRoles : list string) (r : DraftPage.CounterResult),
    (forall roles, In (DraftPage.hero r, roles) (Spec.roleEntries files) ->
                   roles = []) ->
    DraftPage.isFilteringActive selectedRoles = true ->
    ~ In r (DraftPage.displayedResults
              results (DraftPage.useHeroRoles files) selectedRoles).
Proof.
  intros results files sel r Hnone Hact.
  unfold DraftPage.displayedResults. rewrite Hact. simpl.
  intros Hin. apply filter_In in Hin. destruct Hin as [_ Hk].
  apply keepResult_spec in Hk. destruct Hk as [Hne _]. apply Hne.
  unfold DraftPage.rolesOf. rewrite useHeroRoles_as_fold.
  rewrite (fold_set_get fst snd).
  destruct (find _ _) as [[h roles]|] eqn:F; [|reflexivity].
  apply find_some in F. destruct F as [Hin Heq]. simpl in *.
  apply String.eqb_eq in Heq. subst h. apply Hnone.
  now apply in_rev.
Qed.

Lemma hidden_witness :
  ~ In Example.zeusRow
       (DraftPage.displayedResults
          [Example.jugRow; Example.zeusRow]
          (DraftPage.useHeroRoles Example.roleFiles)
          ["carry"%string]).
Proof.
  apply (hero_without_roles_is_hidden_by_an_active_filter
           [Example.jugRow; Example.zeusRow] Example.roleFiles
           ["carry"%string] Example.zeusRow).
  - intros roles [E|[]]. discriminate E.
  - reflexivity.
Defined.

(** ** One hero file more or less *)

Lemma without_set_other {V : Type} (o : JsObject.t V) h k v :
  k <> h ->
  filter (fun e => negb (String.eqb (fst e) h)) (JsObject.set o k v)
  = JsObject.set (filter (fun e => negb (String.eqb (fst e) h)) o) k v.
Proof.
  intros Hne. induction o as [|[k0 v0] o IH]; simpl.
  - apply String.eqb_neq in Hne. now rewrite Hne.
  - destruct (String.eqb k0 k) eqn:E; simpl.
    + apply String.eqb_eq in E. subst k0.
      apply String.eqb_neq in Hne. rewrite Hne. simpl.
      now rewrite String.eqb_refl.
    + destruct (String.eqb k0 h); simpl; [exact IH|].
      now rewrite E, IH.
Qed.

Lemma without_set_same {V : Type} (o : JsObject.t V) h v :
  filter (fun e => negb (String.eqb (fst e) h)) (JsObject.set o h v)
  = filter (fun e => negb (String.eqb (fst e) h)) o.
Proof.
  induction o as [|[k0 v0] o IH]; simpl.
  - now rewrite String.eqb_refl.
  - destruct (String.eqb k0 h) eqn:E; simpl.
    + now rewrite String.eqb_refl.
    + now rewrite E, IH.
Qed.

Lemma without_fold_set files (acc : DraftPage.Dataset) h :
  (forall g, In g files -> toLowerCase (DraftPage.f_hero g) <> h) ->
  filter (fun e => negb (String.eqb (fst e) h))
         (fold_left
            (fun o f => JsObject.set o (toLowerCase (DraftPage.f_hero f))
                                     (DraftPage.buildMap (DraftPage.matchups f)))
            files acc)
  = fold_left
      (fun o f => JsObject.set o (toLowerCase (DraftPage.f_hero f))
                               (DraftPage.buildMap (DraftPage.matchups f)))
      files (filter (fun e => negb (String.eqb (fst e) h)) acc).
Proof.
  revert acc. induction files as [|f files IH]; intros acc Hother; simpl;
    [reflexivity|].
  rewrite IH by (intros g Hg; apply Hother; now right).
  f_equal. apply without_set_other. apply Hother. now left.
Qed.

Lemma parseable_app xs ys :
  DraftPage.parseable (xs ++ ys)
  = DraftPage.parseable xs ++ DraftPage.parseable ys.
Proof. unfold DraftPage.parseable. apply flat_map_app. Qed.

Lemma candidates_without data es h :
  DraftPage.candidates
    (filter (fun e => negb (String.eqb (fst e) h)) data) es
  = filter (Spec.isNot h) (DraftPage.candidates data es).
Proof.
  induction data as [|[k om] data IH]; [reflexivity|].
  assert (Hstep : filter (Spec.isNot h)
                         (DraftPage.stepHero es (map DraftPage.w_enemy es) []
                                             (k, om))
                  = if String.eqb k h then []
                    else DraftPage.stepHero es (map DraftPage.w_enemy es) []
                                            (k, om)).
  { rewrite stepHero_single.
    destruct (JsArray.has _ k); [now destruct (String.eqb k h)|].
    destruct (Rle_dec _ 0); [now destruct (String.eqb k h)|].
    simpl. unfold Spec.isNot. simpl. now destruct (String.eqb k h). }
  rewrite (candidates_cons (k, om) data), filter_app, Hstep, <- IH.
  cbn [filter fst]. destruct (String.eqb k h); cbn [negb].
  - reflexivity.
  - now rewrite candidates_cons.
Qed.

(** X16. Losing one hero file costs that one candidate and nothing else: when
    the fetch of a hero's file fails, does not parse or gives a falsy body
    instead of succeeding (no other file naming that hero), the load still
    publishes a dataset, and the results are the same rows in the same
    order, with the same scores and breakdowns, minus that hero's row. *)
Theorem a_failed_hero_file_only_removes_that_candidate :
  forall (before after : list DraftPage.FetchOutcome)
         (failed : DraftPage.FetchOutcome)
         (f : DraftPage.MatchupFile) (picks : list DraftPage.EnemyPick)
         (d : DraftPage.Dataset),
    (failed = DraftPage.NetworkError \/ failed = DraftPage.ParseError \/
     failed = DraftPage.Falsy) ->
    (forall g, In (DraftPage.Parsed g) (before ++ after) ->
               toLowerCase (DraftPage.f_hero g)
               <> toLowerCase (DraftPage.f_hero f)) ->
    DraftPage.load (before ++ DraftPage.Parsed f :: after)
    = DraftPage.Loaded d ->
    exists d' : DraftPage.Dataset,
      DraftPage.load (before ++ failed :: after) = DraftPage.Loaded d' /\
      DraftPage.candidateResults d' picks
      = filter (Spec.isNot (toLowerCase (DraftPage.f_hero f)))
               (DraftPage.candidateResults d picks).
Proof.
  intros before after failed f picks d Hfail Hother Hload.
  set (h := toLowerCase (DraftPage.f_hero f)) in *.
  apply load_Loaded in Hload. destruct Hload as [Hno ->].
  assert (Hno' : ~ In DraftPage.Misshapen (before ++ failed :: after)).
  { intros Hin. apply in_app_iff in Hin. destruct Hin as [Hin|[E|Hin]].
    - apply Hno. apply in_app_iff. now left.
    - subst failed. destruct Hfail as [H|[H|H]]; discriminate H.
    - apply Hno. apply in_app_iff. right. now right. }
  eexists. split; [exact (load_shaped _ Hno')|].
  assert (Hb : forall g, In g (DraftPage.parseable before) ->
                         toLowerCase (DraftPage.f_hero g) <> h).
  { intros g Hg. apply Hother. rewrite parseable_goodFiles in Hg.
    apply In_goodFiles in Hg. apply in_app_iff. now left. }
  assert (Ha : forall g, In g (DraftPage.parseable after) ->
                         toLowerCase (DraftPage.f_hero g) <> h).
  { intros g Hg. apply Hother. rewrite parseable_goodFiles in Hg.
    apply In_goodFiles in Hg. apply in_app_iff. now right. }
  assert (Hskip : DraftPage.parseable [failed] = []).
  { destruct Hfail as [H|[H|H]]; rewrite H; reflexivity. }
  assert (Hdata :
            fold_left
              (fun o g => JsObject.set o (toLowerCase (DraftPage.f_hero g))
                            (DraftPage.buildMap (DraftPage.matchups g)))
              (DraftPage.parseable (before ++ failed :: after)) JsObject.empty
            = filter (fun e => negb (String.eqb (fst e) h))
                (fold_left
                   (fun o g => JsObject.set o (toLowerCase (DraftPage.f_hero g))
                                 (DraftPage.buildMap (DraftPage.matchups g)))
                   (DraftPage.parseable (before ++ DraftPage.Parsed f :: after))
                   JsObject.empty)).
  { change (failed :: after) with ([failed] ++ after).
    change (DraftPage.Parsed f :: after)
      with ([DraftPage.Parsed f] ++ after).
    rewrite !parseable_app, Hskip, !fold_left_app.
    cbn [app DraftPage.parseable flat_map DraftPage.settle fold_left].
    rewrite (without_fold_set _ _ h Ha). fold h.
    rewrite without_set_same.
    rewrite (without_fold_set _ _ h Hb). reflexivity. }
  rewrite Hdata, !candidateResults_unfold.
  destruct (DraftPage.selectedEnemySlugs picks); [reflexivity|].
  rewrite candidates_without.
  symmetry. apply (filter_sort _ DraftPage.combined). reflexivity.
Qed.

Lemma twoFiles_results :
  DraftPage.candidateResults Example.twoData Example.axeOnly
  = [Example.jugRow; Example.zeusRow].
Proof.
  rewrite candidateResults_unfold.
  assert (E : DraftPage.candidates Example.twoData
                                   (DraftPage.enemiesOf Example.axeOnly)
              = [Example.jugRow; Example.zeusRow])
    by (run_program; rewrite !score_single by lra; reflexivity).
  rewrite E. run_program. reflexivity.
Qed.

Lemma failed_file_witness :
  DraftPage.candidateResults Example.twoData Example.axeOnly
  = [Example.jugRow; Example.zeusRow] /\
  exists d' : DraftPage.Dataset,
    DraftPage.load
      ([] ++ DraftPage.NetworkError :: [DraftPage.Parsed Example.zeusFile])
    = DraftPage.Loaded d' /\
    DraftPage.candidateResults d' Example.axeOnly
    = filter (Spec.isNot (toLowerCase (DraftPage.f_hero Example.jugFile)))
             (DraftPage.candidateResults Example.twoData Example.axeOnly).
Proof.
  split; [exact twoFiles_results|].
  apply (a_failed_hero_file_only_removes_that_candidate
           [] [DraftPage.Parsed Example.zeusFile] DraftPage.NetworkError
           Example.jugFile Example.axeOnly Example.twoData).
  - now left.
  - intros g [E|[]]. injection E as <-. discriminate.
  - reflexivity.
Defined.

(** ** Where the two modules agree *)

Lemma get_forgotten (om : JsObject.t Logic.OppRec) k :
  JsObject.get (map (fun o => (fst o, Logic.rec_winrate (snd o))) om) k
  = option_map Logic.rec_winrate (JsObject.get om k).
Proof.
  induction om as [|[k0 rec] om IH]; simpl; [reflexivity|].
  destruct (String.eqb k0 k); [reflexivity|exact IH].
Qed.

Lemma enemiesOf_asPick enemies :
  DraftPage.enemiesOf (map Spec.asPick enemies)
  = map (fun e => DraftPage.mkEnemy (Logic.slug e) (Logic.weight e)) enemies.
Proof.
  unfold DraftPage.enemiesOf.
  induction enemies as [|e enemies IH]; simpl; [reflexivity|].
  f_equal. exact IH.
Qed.

Lemma matched_forgotten om enemies :
  Spec.matched (map (fun o => (fst o, Logic.rec_winrate (snd o))) om)
               (map (fun e => DraftPage.mkEnemy (Logic.slug e) (Logic.weight e))
                    enemies)
  = Spec.matchedV2 om enemies.
Proof.
  induction enemies as [|e enemies IH]; simpl; [reflexivity|].
  rewrite get_forgotten, IH.
  now destruct (JsObject.get om (Logic.slug e)).
Qed.

Lemma rows_agree_step data enemies h hd :
  JsObject.get data h = Some hd ->
  let es := map (fun e => DraftPage.mkEnemy (Logic.slug e) (Logic.weight e))
                enemies in
  map Spec.rowOf
      (DraftPage.stepHero es (map DraftPage.w_enemy es) []
         (h, map (fun o => (fst o, Logic.rec_winrate (snd o)))
                 (Logic.opponents hd)))
  = map Spec.rowOfV2
        (Logic.stepHero data enemies (map Logic.slug enemies) [] h).
Proof.
  intros Hget es. rewrite stepHero_single, stepHeroV2_single.
  unfold Logic.oppMapOf. rewrite Hget. subst es.
  rewrite matched_forgotten, map_map. simpl.
  destruct (JsArray.has _ h); [reflexivity|].
  destruct (Rle_dec _ 0); [reflexivity|].
  simpl. unfold Spec.rowOf, Spec.rowOfV2. simpl. do 2 f_equal.
  unfold Spec.breakdown, Spec.breakdownV2. rewrite !map_map. simpl.
  apply map_ext. intros s. now rewrite get_forgotten.
Qed.

Lemma rows_agree_candidates data enemies sub :
  (forall h hd, In (h, hd) sub -> JsObject.get data h = Some hd) ->
  let es := map (fun e => DraftPage.mkEnemy (Logic.slug e) (Logic.weight e))
                enemies in
  map Spec.rowOf (DraftPage.candidates (Logic.forgetMatches sub) es)
  = map Spec.rowOfV2
        (flat_map (Logic.stepHero data enemies (map Logic.slug enemies) [])
                  (JsObject.keys sub)).
Proof.
  intros Hsub es. induction sub as [|[h hd] sub IH]; [reflexivity|].
  simpl. rewrite candidates_cons, !map_app. f_equal.
  - apply rows_agree_step. apply Hsub. now left.
  - apply IH. intros h' hd' Hin. apply Hsub. now right.
Qed.

(** X21. On the same matchups and the same enemies (non-empty slugs, one
    dataset entry per hero) the two modules list the same heroes with the
    same per-enemy breakdowns: before ranking, row for row in the same
    order; after ranking, as the same collection of rows.  Only the
    combined scores, and with them the ranks, can differ. *)
Theorem the_two_modules_list_the_same_rows :
  forall (data : Logic.DataV2) (enemies : list Logic.EnemyPick),
    JsObject.wf data ->
    (forall e, In e enemies -> Logic.slug e <> EmptyString) ->
    map Spec.rowOfV2 (Logic.candidates data enemies)
    = map Spec.rowOf
          (DraftPage.candidates (Logic.forgetMatches data)
             (DraftPage.enemiesOf (map Spec.asPick enemies)))
    /\
    Permutation
      (map Spec.rowOfV2 (Logic.scoreCandidates data enemies))
      (map Spec.rowOf
           (DraftPage.candidateResults (Logic.forgetMatches data)
                                       (map Spec.asPick enemies))).
Proof.
  intros data enemies Hwf Hslugs.
  assert (Hrows : map Spec.rowOfV2 (Logic.candidates data enemies)
                  = map Spec.rowOf
                        (DraftPage.candidates (Logic.forgetMatches data)
                           (DraftPage.enemiesOf (map Spec.asPick enemies)))).
  { rewrite enemiesOf_asPick. unfold Logic.candidates.
    rewrite fold_stepHeroV2. simpl app. symmetry.
    apply rows_agree_candidates. intros h hd Hin. now apply In_wf_get. }
  split; [exact Hrows|].
  rewrite candidateResults_unfold.
  destruct enemies as [|e enemies].
  - simpl. unfold Logic.scoreCandidates.
    replace (Logic.candidates data []) with (@nil Logic.Result);
      [constructor|].
    symmetry. apply no_element_nil. intros r Hr.
    apply In_candidatesV2 in Hr. destruct Hr as (h & _ & _ & Hpos & _).
    unfold Spec.matchedWeight in Hpos. simpl in Hpos. lra.
  - assert (Hsel : DraftPage.selectedEnemySlugs (map Spec.asPick (e :: enemies))
                   <> []).
    { simpl. unfold DraftPage.selectedEnemySlugs. simpl.
      assert (He : truthy (Logic.slug e) = true).
      { specialize (Hslugs e (or_introl eq_refl)).
        destruct (Logic.slug e); [congruence|reflexivity]. }
      rewrite He. discriminate. }
    destruct (DraftPage.selectedEnemySlugs (map Spec.asPick (e :: enemies)));
      [congruence|].
    unfold Logic.scoreCandidates.
    rewrite (Permutation_map Spec.rowOfV2 (sort_perm _ _)).
    rewrite (Permutation_map Spec.rowOf (sort_perm _ _)).
    now rewrite Hrows.
Qed.

Lemma same_rows_witness :
  map Spec.rowOfV2 (Logic.candidates Example.dataV2 Example.enemiesV2)
  = map Spec.rowOf
        (DraftPage.candidates (Logic.forgetMatches Example.dataV2)
           (DraftPage.enemiesOf (map Spec.asPick Example.enemiesV2))).
Proof.
  apply (the_two_modules_list_the_same_rows Example.dataV2 Example.enemiesV2).
  - unfold Example.dataV2. prove_wf.
  - intros e [<-|[<-|[]]]; discriminate.
Defined.

(** ** From log-odds to a percentage and back, in exact arithmetic *)

Lemma ln_199_pos : 0 < ln 199.
Proof. rewrite <- ln_1. apply ln_increasing; lra. Qed.

Lemma logOdds_back lo :
  - ln 199 <= lo <= ln 199 ->
  DraftPage.pctToLogOdds (DraftPage.logOddsToPct lo) = lo.
Proof.
  intros [Hl Hu].
  assert (Hhi : DraftPage.logOddsToPct (ln 199) = 99.5).
  { unfold DraftPage.logOddsToPct. cbv zeta.
    rewrite exp_Ropp, exp_ln by lra. lra. }
  assert (Hlo : DraftPage.logOddsToPct (- ln 199) = 0.5).
  { unfold DraftPage.logOddsToPct. cbv zeta.
    rewrite Ropp_involutive, exp_ln by lra. lra. }
  apply logOddsToPct_monotone in Hl. apply logOddsToPct_monotone in Hu.
  rewrite Hlo in Hl. rewrite Hhi in Hu.
  unfold DraftPage.pctToLogOdds. cbv zeta.
  rewrite clamp_inside by lra.
  unfold DraftPage.logOddsToPct in *. cbv zeta in *.
  pose proof (exp_pos (- lo)) as He.
  replace (100 * (1 / (1 + exp (- lo))) / 100
           / (1 - 100 * (1 / (1 + exp (- lo))) / 100))
    with (/ exp (- lo)) by (field; lra).
  rewrite <- exp_Ropp, Ropp_involutive. apply ln_exp.
Qed.

(** ** The error of the arithmetic in doubles *)

Lemma Rabs_bound x e : Rabs x <= e <-> - e <= x <= e.
Proof.
  unfold Rabs. destruct (Rcase_abs x); lra.
Qed.

Lemma ln_le_minus z : 0 < z -> ln z <= z - 1.
Proof.
  intros Hz. destruct (Rle_dec z (exp (z - 1))) as [H|H].
  - rewrite <- (ln_exp (z - 1)). destruct H as [H|H].
    + left. now apply ln_increasing.
    + right. now rewrite H at 1.
  - exfalso. apply H. pose proof (exp_ineq1_le (z - 1)). lra.
Qed.

Lemma ln_ratio x y : 0 < x -> 0 < y -> ln x - ln y <= (x - y) / y.
Proof.
  intros Hx Hy.
  pose proof (ln_le_minus (x / y) ltac:(now apply Rdiv_lt_0_compat)) as H.
  unfold Rdiv at 1 in H.
  rewrite ln_mult, ln_Rinv in H
    by (try apply Rinv_0_lt_compat; assumption).
  replace ((x - y) / y) with (x / y - 1) by (field; lra). exact H.
Qed.

(** A relative error of [r] moves the logarithm by at most [2 r]. *)
Lemma ln_rel x y r :
  0 < y -> 0 <= r <= 1 / 2 -> - (r * y) <= x - y <= r * y ->
  - (2 * r) <= ln x - ln y <= 2 * r.
Proof.
  intros Hy Hr Hx.
  assert (Hx0 : 0 < x) by nra.
  pose proof (ln_ratio x y Hx0 Hy) as H1.
  pose proof (ln_ratio y x Hy Hx0) as H2.
  assert (H3 : (x - y) / y <= r).
  { apply (Rmult_le_reg_r y); [assumption|].
    replace ((x - y) / y * y) with (x - y) by (field; lra). lra. }
  assert (H4 : (y - x) / x <= 2 * r).
  { apply (Rmult_le_reg_r x); [assumption|].
    replace ((y - x) / x * x) with (y - x) by (field; lra). nra. }
  lra.
Qed.

Lemma exp_8 : 256 <= exp 8.
Proof.
  pose proof (exp_ineq1_le 1) as H1.
  assert (H2 : 4 <= exp 2)
    by (replace 2 with (1 + 1) by lra; rewrite exp_plus; nra).
  assert (H4 : 16 <= exp 4)
    by (replace 4 with (2 + 2) by lra; rewrite exp_plus; nra).
  replace 8 with (4 + 4) by lra. rewrite exp_plus. nra.
Qed.

Lemma ln_199_le : ln 199 <= 8.
Proof.
  rewrite <- (ln_exp 8). left. apply ln_increasing; [lra|].
  pose proof exp_8. lra.
Qed.

(** The logistic curve is nowhere steeper than 100 per unit of log-odds. *)
Lemma logOddsToPct_lipschitz a b :
  a <= b ->
  0 <= DraftPage.logOddsToPct b - DraftPage.logOddsToPct a <= 100 * (b - a).
Proof.
  intros Hab. pose proof (logOddsToPct_monotone a b Hab) as Hm.
  split; [lra|].
  unfold DraftPage.logOddsToPct. cbv zeta.
  pose proof (exp_pos (- a)) as Ha. pose proof (exp_pos (- b)) as Hb.
  assert (Hexp : exp (- b) = exp (- a) * exp (- (b - a)))
    by (rewrite <- exp_plus; f_equal; lra).
  pose proof (exp_ineq1_le (- (b - a))) as Ht.
  set (ea := exp (- a)) in *. set (eb := exp (- b)) in *.
  assert (Hu : (1 / (1 + ea)) * (1 + ea) = 1) by (field; lra).
  assert (Hv : (1 / (1 + eb)) * (1 + eb) = 1) by (field; lra).
  set (u := 1 / (1 + ea)) in *. set (v := 1 / (1 + eb)) in *.
  assert (Hu0 : 0 < u) by (unfold u; apply Rdiv_lt_0_compat; lra).
  assert (Hv0 : 0 < v) by (unfold v; apply Rdiv_lt_0_compat; lra).
  assert (Hdiff : v - u = u * v * (ea - eb)) by nra.
  assert (Hue : u * ea <= 1) by nra.
  assert (Hv1 : v <= 1) by nra.
  assert (Hd : ea - eb <= ea * (b - a)) by nra.
  assert (Hk : u * v * (ea - eb) <= b - a).
  { assert (H1 : u * v * (ea - eb) <= u * v * (ea * (b - a))).
    { apply Rmult_le_compat_l; [nra|exact Hd]. }
    assert (H2 : u * v * (ea * (b - a)) = (u * ea) * v * (b - a)) by ring.
    assert (H3 : (u * ea) * v <= 1) by nra.
    assert (H4 : (u * ea) * v * (b - a) <= 1 * (b - a)).
    { apply Rmult_le_compat_r; [lra|exact H3]. }
    lra. }
  lra.
Qed.

Lemma logOddsToPct_near a b e :
  - e <= a - b <= e ->
  - (100 * e) <= DraftPage.logOddsToPct a - DraftPage.logOddsToPct b
  <= 100 * e.
Proof.
  intros H. destruct (Rle_dec a b) as [Hab|Hab].
  - pose proof (logOddsToPct_lipschitz a b Hab). lra.
  - pose proof (logOddsToPct_lipschitz b a ltac:(lra)). lra.
Qed.

(** Near 0.5 to 99.5 percent, [pctToLogOdds] is no steeper than 8 per
    percentage point. *)
Lemma pctToLogOdds_near z z' e :
  0 <= e <= 1 / 10 -> - e <= z' - z <= e ->
  - (8 * e) <= DraftPage.pctToLogOdds z' - DraftPage.pctToLogOdds z <= 8 * e.
Proof.
  intros He Hz. unfold DraftPage.pctToLogOdds. cbv zeta.
  pose proof (clamp_between (z / 100) 0.005 0.995 ltac:(lra)) as Hc.
  pose proof (clamp_between (z' / 100) 0.005 0.995 ltac:(lra)) as Hc'.
  assert (Hcc : - (e / 100)
                <= DraftPage.clamp (z' / 100) 0.005 0.995
                   - DraftPage.clamp (z / 100) 0.005 0.995
                <= e / 100).
  { destruct (Rle_dec z z') as [H|H].
    - pose proof (clamp_monotone (z / 100) (z' / 100) 0.005 0.995
                                 ltac:(lra)) as Hm.
      split; [lra|]. unfold DraftPage.clamp, Rmax, Rmin in *.
      repeat match goal with
             | |- context [Rle_dec ?a ?b] =>
                 lazymatch b with
                 | context [Rle_dec] => fail
                 | _ => destruct (Rle_dec a b)
                 end
             end; lra.
    - pose proof (clamp_monotone (z' / 100) (z / 100) 0.005 0.995
                                 ltac:(lra)) as Hm.
      split; [|lra]. unfold DraftPage.clamp, Rmax, Rmin in *.
      repeat match goal with
             | |- context [Rle_dec ?a ?b] =>
                 lazymatch b with
                 | context [Rle_dec] => fail
                 | _ => destruct (Rle_dec a b)
                 end
             end; lra. }
  set (c := DraftPage.clamp (z / 100) 0.005 0.995) in *.
  set (c' := DraftPage.clamp (z' / 100) 0.005 0.995) in *.
  pose proof (ln_rel c' c (2 * e) ltac:(lra) ltac:(lra) ltac:(nra)) as H1.
  pose proof (ln_rel (1 - c') (1 - c) (2 * e) ltac:(lra) ltac:(lra)
                     ltac:(nra)) as H2.
  assert (E : forall a, 0 < a < 1 -> ln (a / (1 - a)) = ln a - ln (1 - a)).
  { intros a Ha. unfold Rdiv.
    rewrite ln_mult, ln_Rinv by (try apply Rinv_0_lt_compat; lra). lra. }
  rewrite !E by lra. lra.
Qed.

Section RoundingError.

Variables (err : R) (rnd flog fexp : R -> R).
Hypothesis Hstd : Rounded.standardModel err rnd flog fexp.

Lemma err_small : 0 <= err <= 1 / 1000000000000000.
Proof. apply Hstd. Qed.

Lemma rnd_zero : rnd 0 = 0.
Proof. apply Hstd. Qed.

Lemma rnd_near x B :
  - B <= x <= B -> - (err * (B + 1)) <= rnd x - x <= err * (B + 1).
Proof.
  intros HB. destruct Hstd as (He & _ & Hr & _).
  pose proof (Hr x) as H. apply Rabs_bound in H.
  assert (HA : Rabs x <= B) by (apply Rabs_bound; lra).
  assert (0 <= Rabs x) by apply Rabs_pos.
  nra.
Qed.

Lemma rnd_rel x :
  - (err * (Rabs x + 1)) <= rnd x - x <= err * (Rabs x + 1).
Proof.
  destruct Hstd as (He & _ & Hr & _).
  pose proof (Hr x) as H. now apply Rabs_bound in H.
Qed.

(** The clamped probability is off by at most [3 err]. *)
Lemma clamp_rounded x :
  - (3 * err)
  <= DraftPage.clamp (rnd x) (rnd 0.005) (rnd 0.995)
     - DraftPage.clamp x 0.005 0.995
  <= 3 * err.
Proof.
  pose proof err_small as He.
  pose proof (rnd_rel x) as Hq.
  pose proof (rnd_near 0.005 0.005 ltac:(lra)) as Hlo.
  pose proof (rnd_near 0.995 0.995 ltac:(lra)) as Hhi.
  unfold Rabs in Hq. destruct (Rcase_abs x) as [Hx|Hx];
    unfold DraftPage.clamp, Rmax, Rmin;
    repeat match goal with
           | |- context [Rle_dec ?a ?b] =>
               lazymatch b with
               | context [Rle_dec] => fail
               | _ => destruct (Rle_dec a b)
               end
           end; try nra.
Qed.

(** [pctToLogOdds] in doubles is off by at most [4200 err]. *)
Lemma pctToLogOdds_rounded pct :
  - (4200 * err)
  <= Rounded.pctToLogOdds rnd flog pct - DraftPage.pctToLogOdds pct
  <= 4200 * err.
Proof.
  pose proof err_small as He.
  unfold Rounded.pctToLogOdds, DraftPage.pctToLogOdds,
    Rounded.div, Rounded.sub. cbv zeta.
  pose proof (clamp_rounded (pct / 100)) as Hp.
  pose proof (clamp_between (pct / 100) 0.005 0.995 ltac:(lra)) as Hpr.
  pose proof (pctToLogOdds_range pct) as Hrange.
  unfold DraftPage.pctToLogOdds in Hrange. cbv zeta in Hrange.
  set (p := DraftPage.clamp (pct / 100) 0.005 0.995) in *.
  set (p' := DraftPage.clamp (rnd (pct / 100)) (rnd 0.005) (rnd 0.995)) in *.
  pose proof (rnd_near (1 - p') 1 ltac:(lra)) as Hd.
  set (d' := rnd (1 - p')) in *.
  assert (Hp0 : 0 < p') by lra.
  assert (Hd0 : 0 < d') by lra.
  pose proof (ln_rel p' p (600 * err) ltac:(lra) ltac:(lra) ltac:(nra))
    as Hlp.
  pose proof (ln_rel d' (1 - p) (1000 * err) ltac:(lra) ltac:(lra)
                     ltac:(nra)) as Hld.
  assert (Hq : 1 <= 250 * (p' / d')).
  { apply (Rmult_le_reg_r d'); [assumption|].
    replace (250 * (p' / d') * d') with (250 * p') by (field; lra). lra. }
  pose proof (rnd_rel (p' / d')) as Ho.
  rewrite (Rabs_pos_eq (p' / d')) in Ho
    by (left; now apply Rdiv_lt_0_compat).
  set (q := p' / d') in *.
  pose proof (ln_rel (rnd q) q (251 * err) ltac:(lra) ltac:(lra)
                     ltac:(nra)) as Hlo.
  assert (Ho0 : 0 < rnd q) by nra.
  assert (Hlq : ln q = ln p' - ln d').
  { unfold q, Rdiv. rewrite ln_mult, ln_Rinv
      by (try apply Rinv_0_lt_compat; assumption). lra. }
  assert (Hlpd : ln (p / (1 - p)) = ln p - ln (1 - p)).
  { unfold Rdiv. rewrite ln_mult, ln_Rinv
      by (try apply Rinv_0_lt_compat; lra). lra. }
  destruct Hstd as (_ & _ & _ & Hlog & _).
  pose proof (Hlog (rnd q) Ho0) as Hf. apply Rabs_bound in Hf.
  pose proof ln_199_le as H199.
  assert (Hln : Rabs (ln (rnd q)) <= 9) by (apply Rabs_bound; lra).
  assert (0 <= Rabs (ln (rnd q))) by apply Rabs_pos.
  nra.
Qed.

(** [logOddsToPct] in doubles is off by at most [1000 err]. *)
Lemma logOddsToPct_rounded lo :
  - 700 <= lo ->
  - (1000 * err)
  <= Rounded.logOddsToPct rnd fexp lo - DraftPage.logOddsToPct lo
  <= 1000 * err.
Proof.
  intros Hlo. pose proof err_small as He.
  unfold Rounded.logOddsToPct, DraftPage.logOddsToPct,
    Rounded.div, Rounded.add, Rounded.mul. cbv zeta.
  destruct Hstd as (_ & _ & _ & _ & Hexp).
  pose proof (Hexp (- lo) ltac:(lra)) as He'. apply Rabs_bound in He'.
  pose proof (exp_pos (- lo)) as Hpos.
  set (e := exp (- lo)) in *. set (e' := fexp (- lo)) in *.
  pose proof (rnd_rel (1 + e')) as Hs.
  rewrite (Rabs_pos_eq (1 + e')) in Hs by nra.
  set (s' := rnd (1 + e')) in *.
  assert (Hs' : - (4 * err * (1 + e)) <= s' - (1 + e) <= 4 * err * (1 + e))
    by nra.
  assert (Hs0 : 0.99 * (1 + e) <= s') by nra.
  assert (Hi : (1 / s') * s' = 1) by (field; nra).
  assert (Hi0 : (1 / (1 + e)) * (1 + e) = 1) by (field; lra).
  set (i := 1 / s') in *. set (i0 := 1 / (1 + e)) in *.
  assert (Hipos : 0 < i) by (unfold i; apply Rdiv_lt_0_compat; nra).
  assert (Hi0pos : 0 < i0) by (unfold i0; apply Rdiv_lt_0_compat; lra).
  assert (Hi1 : i <= 1.02) by nra.
  assert (Hi01 : i0 <= 1) by nra.
  assert (Hdiff : i - i0 = i * i0 * ((1 + e) - s')) by nra.
  assert (Hii : - (5 * err) <= i - i0 <= 5 * err).
  { rewrite Hdiff.
    assert (Hk : i * i0 * (1 + e) = i) by nra.
    split; nra. }
  pose proof (rnd_near i 1.02 ltac:(lra)) as Hp.
  set (p' := rnd i) in *.
  pose proof (rnd_near (100 * p') 103 ltac:(lra)) as Hr.
  lra.
Qed.

(** The round trip through doubles. *)
Lemma roundtrip_rounded p :
  - (430000 * err)
  <= Rounded.logOddsToPct rnd fexp (Rounded.pctToLogOdds rnd flog p)
     - Rmax 0.5 (Rmin 99.5 p)
  <= 430000 * err.
Proof.
  pose proof err_small as He.
  pose proof (pctToLogOdds_rounded p) as HP.
  pose proof (pctToLogOdds_range p) as Hr. pose proof ln_199_le as H199.
  set (y' := Rounded.pctToLogOdds rnd flog p) in *.
  pose proof (logOddsToPct_rounded y' ltac:(lra)) as HL.
  pose proof (logOddsToPct_near y' (DraftPage.pctToLogOdds p) (4200 * err)
                                ltac:(lra)) as HN.
  rewrite roundtrip_percent in HN. lra.
Qed.

Lemma logOdds_back_rounded lo :
  - ln 199 <= lo <= ln 199 ->
  - (20000 * err)
  <= Rounded.pctToLogOdds rnd flog (Rounded.logOddsToPct rnd fexp lo) - lo
  <= 20000 * err.
Proof.
  intros Hlo. pose proof err_small as He. pose proof ln_199_le as H199.
  pose proof (logOddsToPct_rounded lo ltac:(lra)) as HL.
  set (z' := Rounded.logOddsToPct rnd fexp lo) in *.
  pose proof (pctToLogOdds_rounded z') as HP.
  pose proof (pctToLogOdds_near (DraftPage.logOddsToPct lo) z' (1000 * err)
                                ltac:(lra) ltac:(lra)) as HN.
  rewrite (logOdds_back lo Hlo) in HN. lra.
Qed.

(** The parts of [pctToLogOdds] keep their signs under rounding. *)
Lemma pctToLogOdds_parts pct :
  let p := DraftPage.clamp (rnd (pct / 100)) (rnd 0.005) (rnd 0.995) in
  0 < p /\ 0 < rnd (1 - p) /\ 0 < rnd (p / rnd (1 - p)).
Proof.
  cbv zeta. pose proof err_small as He.
  pose proof (clamp_rounded (pct / 100)) as Hp.
  pose proof (clamp_between (pct / 100) 0.005 0.995 ltac:(lra)) as Hpr.
  set (p' := DraftPage.clamp (rnd (pct / 100)) (rnd 0.005) (rnd 0.995)) in *.
  pose proof (rnd_near (1 - p') 1 ltac:(lra)) as Hd.
  set (d' := rnd (1 - p')) in *.
  assert (Hp0 : 0 < p') by lra.
  assert (Hd0 : 0 < d') by lra.
  assert (Hq : 1 <= 250 * (p' / d')).
  { apply (Rmult_le_reg_r d'); [assumption|].
    replace (250 * (p' / d') * d') with (250 * p') by (field; lra). lra. }
  pose proof (rnd_rel (p' / d')) as Ho.
  rewrite (Rabs_pos_eq (p' / d')) in Ho
    by (left; now apply Rdiv_lt_0_compat).
  repeat split; try assumption. nra.
Qed.

Hypothesis Hmono : Rounded.monotoneModel rnd flog fexp.

Lemma div_monotone a b c d :
  0 < a -> a <= b -> 0 < d -> d <= c -> a / c <= b / d.
Proof.
  intros Ha Hab Hd Hdc.
  apply (Rmult_le_reg_r (c * d)); [nra|].
  replace (a / c * (c * d)) with (a * d) by (field; lra).
  replace (b / d * (c * d)) with (b * c) by (field; lra).
  nra.
Qed.

Lemma pctToLogOdds_rounded_monotone p q :
  p <= q -> Rounded.pctToLogOdds rnd flog p <= Rounded.pctToLogOdds rnd flog q.
Proof.
  intros Hpq. destruct Hmono as (Hr & Hl & _).
  destruct (pctToLogOdds_parts p) as (Hp0 & Hdp & Hop).
  destruct (pctToLogOdds_parts q) as (Hq0 & Hdq & Hoq).
  unfold Rounded.pctToLogOdds, Rounded.div, Rounded.sub. cbv zeta.
  assert (Hc : DraftPage.clamp (rnd (p / 100)) (rnd 0.005) (rnd 0.995)
               <= DraftPage.clamp (rnd (q / 100)) (rnd 0.005) (rnd 0.995))
    by (apply clamp_monotone, Hr; lra).
  set (p' := DraftPage.clamp (rnd (p / 100)) (rnd 0.005) (rnd 0.995)) in *.
  set (q' := DraftPage.clamp (rnd (q / 100)) (rnd 0.005) (rnd 0.995)) in *.
  assert (Hd : rnd (1 - q') <= rnd (1 - p')) by (apply Hr; lra).
  apply Hl; [assumption|]. apply Hr. now apply div_monotone.
Qed.

Lemma logOddsToPct_rounded_monotone a b :
  - 700 <= a -> a <= b ->
  Rounded.logOddsToPct rnd fexp a <= Rounded.logOddsToPct rnd fexp b.
Proof.
  intros Ha Hab. destruct Hmono as (Hr & _ & Hf).
  pose proof err_small as He.
  unfold Rounded.logOddsToPct, Rounded.div, Rounded.add, Rounded.mul.
  cbv zeta.
  assert (Hpos : forall x, - 700 <= x -> 0 < rnd (1 + fexp (- x))).
  { intros x Hx. destruct Hstd as (_ & _ & _ & _ & Hexp).
    pose proof (Hexp (- x) ltac:(lra)) as He'. apply Rabs_bound in He'.
    pose proof (exp_pos (- x)) as Hp.
    pose proof (rnd_rel (1 + fexp (- x))) as Hs.
    rewrite (Rabs_pos_eq (1 + fexp (- x))) in Hs by nra. nra. }
  assert (He1 : fexp (- b) <= fexp (- a)) by (apply Hf; lra).
  assert (Hs : rnd (1 + fexp (- b)) <= rnd (1 + fexp (- a)))
    by (apply Hr; lra).
  apply Hr. apply Rmult_le_compat_l; [lra|]. apply Hr.
  apply div_monotone; try lra. apply Hpos. lra.
Qed.

(** One enemy more: the rounded accumulators still track the exact ones. *)
Lemma stepEnemy_tracks om a' a e n :
  Rounded.tracks err n a' a -> 0 <= n <= 4 ->
  Spec.sliderWeight (DraftPage.weight e) ->
  Rounded.tracks err (n + 1)
                 (Rounded.stepEnemy rnd flog om a' e)
                 (DraftPage.stepEnemy om a e).
Proof.
  intros (Hpe & Hws & Hwt & Hmean & Htot & Hzero) Hn Hw.
  pose proof err_small as He.
  unfold Rounded.tracks, Rounded.stepEnemy, DraftPage.stepEnemy.
  destruct (JsObject.get om (DraftPage.w_enemy e)) as [wr|]; simpl.
  - pose proof (pctToLogOdds_rounded wr) as HP.
    pose proof (pctToLogOdds_range wr) as Hr. pose proof ln_199_le as H199.
    set (lo' := Rounded.pctToLogOdds rnd flog wr) in *.
    set (lo := DraftPage.pctToLogOdds wr) in *.
    set (w := DraftPage.weight e) in *.
    assert (Hw01 : 0 <= w <= 1) by (destruct Hw; lra).
    unfold Rounded.add, Rounded.mul.
    assert (Hprod : - (4200 * err) <= w * lo' - w * lo <= 4200 * err) by nra.
    assert (Hwl : - 8 * w <= w * lo <= 8 * w) by nra.
    pose proof (rnd_near (w * lo') 9 ltac:(nra)) as Ht.
    set (t' := rnd (w * lo')) in *.
    pose proof (rnd_near (DraftPage.weightedSum a' + t') 50 ltac:(nra)) as Hs.
    pose proof (rnd_near (DraftPage.weightTotal a' + w) 6 ltac:(nra)) as Hs2.
    split; [now rewrite Hpe|]. split; [nra|]. split; [nra|].
    split; [nra|]. split; [lra|].
    destruct Hw as [Hw0|Hw1].
    + destruct Hzero as [[Hz Hz']|Hz]; [left|right; lra].
      split; [lra|]. rewrite Hz', Hw0, Rplus_0_r. apply rnd_zero.
    + right. lra.
  - split; [now rewrite Hpe|]. split; [nra|]. split; [nra|].
    split; [lra|]. split; [lra|]. exact Hzero.
Qed.

Lemma fold_stepEnemy_tracks om es :
  forall a' a n,
    Rounded.tracks err n a' a -> 0 <= n ->
    n + INR (List.length es) <= 5 ->
    (forall e, In e es -> Spec.sliderWeight (DraftPage.weight e)) ->
    Rounded.tracks err (n + INR (List.length es))
                   (fold_left (Rounded.stepEnemy rnd flog om) es a')
                   (fold_left (DraftPage.stepEnemy om) es a).
Proof.
  induction es as [|e es IH]; intros a' a n Ht Hn Hlen Hw.
  - simpl. now rewrite Rplus_0_r.
  - cbn [fold_left]. cbn [List.length] in *. rewrite S_INR in *.
    pose proof (pos_INR (List.length es)) as Hl.
    replace (n + (INR (List.length es) + 1))
      with ((n + 1) + INR (List.length es)) by lra.
    apply IH.
    + apply stepEnemy_tracks; [assumption|lra|apply Hw; now left].
    + lra.
    + lra.
    + intros e' He'. apply Hw. now right.
Qed.

Lemma scanEnemies_tracks om es :
  INR (List.length es) <= 5 ->
  (forall e, In e es -> Spec.sliderWeight (DraftPage.weight e)) ->
  Rounded.tracks err 5 (Rounded.scanEnemies rnd flog om es)
                 (DraftPage.scanEnemies om es).
Proof.
  intros Hlen Hw. pose proof err_small as He.
  assert (H0 : Rounded.tracks err 0 DraftPage.acc0 DraftPage.acc0).
  { unfold Rounded.tracks. simpl. repeat split; lra. }
  pose proof (fold_stepEnemy_tracks om es _ _ 0 H0 ltac:(lra) ltac:(lra) Hw)
    as (Hpe & Hws & Hwt & Hmean & Htot & Hzero).
  pose proof (pos_INR (List.length es)) as Hl.
  unfold Rounded.scanEnemies, DraftPage.scanEnemies.
  split; [assumption|]. split; [nra|]. split; [nra|].
  split; [assumption|]. split; [lra|assumption].
Qed.

(** The weighted mean of the log-odds, computed in doubles. *)
Lemma quotient_rounded S' S T' T :
  - (21500 * err) <= S' - S <= 21500 * err ->
  - (50 * err) <= T' - T <= 50 * err ->
  - (8 * T) <= S <= 8 * T -> 1 / 10 <= T <= 5 ->
  - (230000 * err) <= rnd (S' / T') - S / T <= 230000 * err.
Proof.
  intros HS HT Hmean HT5. pose proof err_small as He.
  assert (HT' : 0.099 <= T') by lra.
  assert (Hj : (S' / T') * T' = S') by (field; lra).
  assert (Hq : (S / T) * T = S) by (field; lra).
  set (j := S' / T') in *. set (q := S / T) in *.
  assert (Hq8 : - 8 <= q <= 8) by nra.
  assert (Hd : (j - q) * T' = (S' - S) - q * (T' - T)) by nra.
  assert (Hb : - (21900 * err) <= (j - q) * T' <= 21900 * err) by nra.
  assert (Hjq : - (222000 * err) <= j - q <= 222000 * err) by nra.
  pose proof (rnd_near j 9 ltac:(lra)) as Hr.
  lra.
Qed.

Lemma combined_rounded S' S T' T :
  - (21500 * err) <= S' - S <= 21500 * err ->
  - (50 * err) <= T' - T <= 50 * err ->
  - (8 * T) <= S <= 8 * T -> 1 / 10 <= T <= 5 ->
  - (24000000 * err)
  <= Rounded.logOddsToPct rnd fexp (Rounded.div rnd S' T')
     - DraftPage.logOddsToPct (S / T)
  <= 24000000 * err.
Proof.
  intros HS HT Hmean HT5. pose proof err_small as He.
  pose proof (quotient_rounded S' S T' T HS HT Hmean HT5) as Hq.
  assert (Hq8 : - 8 <= S / T <= 8).
  { assert (Hq0 : (S / T) * T = S) by (field; lra). nra. }
  unfold Rounded.div. set (q' := rnd (S' / T')) in *.
  pose proof (logOddsToPct_rounded q' ltac:(lra)) as HL.
  pose proof (logOddsToPct_near q' (S / T) (230000 * err) ltac:(lra)) as HN.
  lra.
Qed.

(** One dataset entry: the rounded loop pushes a row exactly when the
    exact loop does, for the same hero and with the same breakdown, and
    the two combined scores agree up to rounding. *)
Lemma stepHero_rounded es h om :
  INR (List.length es) <= 5 ->
  (forall e, In e es -> Spec.sliderWeight (DraftPage.weight e)) ->
  Forall2 (Rounded.within (24000000 * err))
          (Rounded.stepHero rnd flog fexp es (map DraftPage.w_enemy es) []
                            (h, om))
          (DraftPage.stepHero es (map DraftPage.w_enemy es) [] (h, om)).
Proof.
  intros Hlen Hw. pose proof err_small as He.
  unfold Rounded.stepHero, DraftPage.stepHero.
  destruct (JsArray.has _ h); [constructor|]. cbv zeta.
  pose proof (scanEnemies_tracks om es Hlen Hw)
    as (Hpe & Hws & Hwt & Hmean & Htot & Hzero).
  set (a' := Rounded.scanEnemies rnd flog om es) in *.
  set (a := DraftPage.scanEnemies om es) in *.
  destruct Hzero as [[Hz Hz']|Hz].
  - destruct (Rle_dec (DraftPage.weightTotal a') 0); [|lra].
    destruct (Rle_dec (DraftPage.weightTotal a) 0); [|lra].
    constructor.
  - destruct (Rle_dec (DraftPage.weightTotal a') 0); [lra|].
    destruct (Rle_dec (DraftPage.weightTotal a) 0); [lra|].
    simpl. constructor; [|constructor].
    split; [reflexivity|]. split; [exact Hpe|]. simpl.
    apply combined_rounded; lra.
Qed.

Lemma Forall2_flat_map {A B C : Type} (P : B -> C -> Prop)
      (f : A -> list B) (g : A -> list C) (l : list A) :
  (forall x, In x l -> Forall2 P (f x) (g x)) ->
  Forall2 P (flat_map f l) (flat_map g l).
Proof.
  induction l as [|x l IH]; intros H; simpl; [constructor|].
  apply Forall2_app; [apply H; now left|].
  apply IH. intros y Hy. apply H. now right.
Qed.

Lemma stepHero_rounded_app es eset out entry :
  Rounded.stepHero rnd flog fexp es eset out entry
  = out ++ Rounded.stepHero rnd flog fexp es eset [] entry.
Proof.
  unfold Rounded.stepHero. destruct entry as [h om].
  destruct (JsArray.has eset h); [now rewrite app_nil_r|]. cbv zeta.
  destruct (Rle_dec _ 0); [now rewrite app_nil_r|reflexivity].
Qed.

Lemma candidates_rounded_closed data es :
  Rounded.candidates rnd flog fexp data es
  = flat_map (Rounded.stepHero rnd flog fexp es (map DraftPage.w_enemy es) [])
             data.
Proof.
  unfold Rounded.candidates, JsObject.entries.
  assert (H : forall out,
             fold_left (Rounded.stepHero rnd flog fexp es
                                         (map DraftPage.w_enemy es)) data out
             = out ++ flat_map (Rounded.stepHero rnd flog fexp es
                                  (map DraftPage.w_enemy es) []) data).
  { induction data as [|en data IH]; intros out; simpl.
    - now rewrite app_nil_r.
    - rewrite IH, (stepHero_rounded_app es _ out en).
      now rewrite <- app_assoc. }
  apply (H []).
Qed.

Lemma candidates_rounded data es :
  INR (List.length es) <= 5 ->
  (forall e, In e es -> Spec.sliderWeight (DraftPage.weight e)) ->
  Forall2 (Rounded.within (24000000 * err))
          (Rounded.candidates rnd flog fexp data es)
          (DraftPage.candidates data es).
Proof.
  intros Hlen Hw. rewrite candidates_rounded_closed, candidates_closed.
  apply Forall2_flat_map. intros [h om] _. now apply stepHero_rounded.
Qed.

End RoundingError.

(** ** What the page returns in doubles *)

Lemma Forall2_In_l {A B : Type} (P : A -> B -> Prop) l l' x :
  Forall2 P l l' -> In x l -> exists y, In y l' /\ P x y.
Proof.
  induction 1 as [|a b l l' Hab _ IH]; intros Hin; [contradiction|].
  destruct Hin as [->|Hin].
  - exists b. split; [now left|assumption].
  - destruct (IH Hin) as [y [Hy HP]]. exists y. split; [now right|assumption].
Qed.

Lemma Forall2_In_r {A B : Type} (P : A -> B -> Prop) l l' y :
  Forall2 P l l' -> In y l' -> exists x, In x l /\ P x y.
Proof.
  induction 1 as [|a b l l' Hab _ IH]; intros Hin; [contradiction|].
  destruct Hin as [->|Hin].
  - exists a. split; [now left|assumption].
  - destruct (IH Hin) as [x [Hx HP]]. exists x. split; [now right|assumption].
Qed.

Lemma enemiesOf_slots picks :
  Spec.draftSlots picks ->
  INR (List.length (DraftPage.enemiesOf picks)) <= 5 /\
  forall e, In e (DraftPage.enemiesOf picks) ->
            Spec.sliderWeight (DraftPage.weight e).
Proof.
  intros [Hlen Hw]. split.
  - unfold DraftPage.enemiesOf. rewrite length_map.
    pose proof (filter_length_le DraftPage.isHero picks) as H.
    rewrite Hlen in H. apply le_INR in H. simpl in H. lra.
  - intros e He. apply In_enemiesOf in He.
    destruct He as (p & _ & Hp & _ & _ & ->). now apply Hw.
Qed.

Lemma In_rounded_results rnd flog fexp data picks r :
  In r (Rounded.candidateResults rnd flog fexp data picks) <->
  DraftPage.selectedEnemySlugs picks <> [] /\
  In r (Rounded.candidates rnd flog fexp data (DraftPage.enemiesOf picks)).
Proof.
  unfold Rounded.candidateResults, Rounded.useCounterResults.
  destruct (DraftPage.selectedEnemySlugs picks) as [|s ss].
  - split; [contradiction|]. intros [H _]. now contradiction H.
  - cbv zeta. rewrite In_sort. split; [|tauto]. intros H.
    split; [discriminate|assumption].
Qed.

Lemma In_exact_results data picks r :
  In r (DraftPage.candidateResults data picks) <->
  DraftPage.selectedEnemySlugs picks <> [] /\
  In r (DraftPage.candidates data (DraftPage.enemiesOf picks)).
Proof.
  rewrite candidateResults_unfold.
  destruct (DraftPage.selectedEnemySlugs picks) as [|s ss].
  - split; [contradiction|]. intros [H _]. now contradiction H.
  - rewrite In_sort. split; [|tauto]. intros H.
    split; [discriminate|assumption].
Qed.

Lemma within_sameRow err r' r :
  0 <= err <= 1 / 1000000000000000 ->
  Rounded.within (24000000 * err) r' r -> Spec.sameRow r' r.
Proof.
  intros He (Hh & Hp & Hc). split; [assumption|]. split; [assumption|].
  unfold Spec.close, Spec.tolerance. apply Rabs_bound. lra.
Qed.

(** With exact arithmetic the rounded code is the code of [DraftPage]. *)
Lemma exact_results data picks :
  Rounded.candidateResults Rounded.exact ln exp data picks
  = DraftPage.candidateResults data picks.
Proof. reflexivity. Qed.

Lemma exact_candidates data es :
  Rounded.candidates Rounded.exact ln exp data es
  = DraftPage.candidates data es.
Proof. reflexivity. Qed.

(** Exact arithmetic is an instance of the standard model, with no error
    at all. *)
Ltac exact_arithmetic :=
  unfold Rounded.standardModel, Rounded.exact;
  split; [lra|]; split; [reflexivity|];
  split; [|split]; intros;
  rewrite Rminus_diag, Rabs_R0; lra.

Ltac exact_monotone :=
  unfold Rounded.monotoneModel, Rounded.exact;
  split; [tauto|]; split;
  [ intros x y Hx Hxy; now apply ln_monotone
  | intros x y [Hxy| ->];
    [left; now apply exp_increasing|right; reflexivity] ].

Lemma data_results_axeSlots :
  DraftPage.candidateResults Example.data Example.axeSlots
  = [Example.jugRow; Example.zeusRow].
Proof.
  rewrite candidateResults_unfold.
  assert (E : DraftPage.candidates Example.data
                                   (DraftPage.enemiesOf Example.axeSlots)
              = [Example.jugRow; Example.zeusRow])
    by (run_program; rewrite !score_single by lra; reflexivity).
  rewrite E. run_program. reflexivity.
Qed.


(** X26. The scoring in doubles follows the scoring in real numbers.  With the
    page's five slots at weights of the slider, and arithmetic that
    meets the standard model of double precision, the code pushes a row
    for exactly the heroes the exact computation does, in the same order
    and with the same breakdowns, and each combined score is within the
    tolerance of the exact one; the sorted results hold the same rows in
    that sense. *)
Theorem rounded_scoring_tracks_exact :
  forall (err : R) (rnd flog fexp : R -> R),
    Rounded.standardModel err rnd flog fexp ->
    forall (data : DraftPage.Dataset) (picks : list DraftPage.EnemyPick),
      Spec.draftSlots picks ->
      Forall2 Spec.sameRow
              (Rounded.candidates rnd flog fexp data
                                  (DraftPage.enemiesOf picks))
              (DraftPage.candidates data (DraftPage.enemiesOf picks)) /\
      (forall r',
          In r' (Rounded.candidateResults rnd flog fexp data picks) ->
          exists r, In r (DraftPage.candidateResults data picks) /\
                    Spec.sameRow r' r) /\
      (forall r,
          In r (DraftPage.candidateResults data picks) ->
          exists r', In r' (Rounded.candidateResults rnd flog fexp data picks)
                     /\ Spec.sameRow r' r).
Proof.
  intros err rnd flog fexp Hstd data picks Hslots.
  destruct (enemiesOf_slots picks Hslots) as [Hlen Hw].
  pose proof (candidates_rounded err rnd flog fexp Hstd data
                (DraftPage.enemiesOf picks) Hlen Hw) as HF.
  assert (He : 0 <= err <= 1 / 1000000000000000) by apply Hstd.
  assert (HF' : Forall2 Spec.sameRow
                  (Rounded.candidates rnd flog fexp data
                                      (DraftPage.enemiesOf picks))
                  (DraftPage.candidates data (DraftPage.enemiesOf picks))).
  { eapply Forall2_impl; [|exact HF].
    intros r' r. now apply within_sameRow. }
  split; [exact HF'|]. split.
  - intros r' Hr'. apply In_rounded_results in Hr'. destruct Hr' as [Hs Hr'].
    destruct (Forall2_In_l _ _ _ _ HF' Hr') as [r [Hr Hrow]].
    exists r. split; [|assumption]. apply In_exact_results. now split.
  - intros r Hr. apply In_exact_results in Hr. destruct Hr as [Hs Hr].
    destruct (Forall2_In_r _ _ _ _ HF' Hr) as [r' [Hr' Hrow]].
    exists r'. split; [|assumption]. apply In_rounded_results. now split.
Qed.

Lemma rounded_scoring_witness :
  Forall2 Spec.sameRow
          (Rounded.candidates Rounded.exact ln exp Example.data
                              (DraftPage.enemiesOf Example.axeSlots))
          (DraftPage.candidates Example.data
                                (DraftPage.enemiesOf Example.axeSlots)).
Proof.
  refine (proj1 (rounded_scoring_tracks_exact
                   0 Rounded.exact ln exp _ Example.data Example.axeSlots _)).
  - exact_arithmetic.
  - prove_slots.
Defined.

(** ** The two conversions in doubles *)

(** X1. Converting a percentage to log-odds and back gives the percentage held
    within 0.5 and 99.5, up to rounding: in doubles that meet the standard
    model the round trip is within the tolerance of it. *)
Theorem roundtrip_is_identity_within_clamp :
  forall (err : R) (rnd flog fexp : R -> R),
    Rounded.standardModel err rnd flog fexp ->
    forall p : R,
      Spec.close
        (Rounded.logOddsToPct rnd fexp (Rounded.pctToLogOdds rnd flog p))
        (Rmax 0.5 (Rmin 99.5 p)).
Proof.
  intros err rnd flog fexp Hstd p.
  assert (He : 0 <= err <= 1 / 1000000000000000) by apply Hstd.
  pose proof (roundtrip_rounded err rnd flog fexp Hstd p) as H.
  unfold Spec.close, Spec.tolerance. apply Rabs_bound. lra.
Qed.

Lemma roundtrip_witness :
  Spec.close
    (Rounded.logOddsToPct Rounded.exact exp
                          (Rounded.pctToLogOdds Rounded.exact ln 55))
    (Rmax 0.5 (Rmin 99.5 55)).
Proof.
  apply (roundtrip_is_identity_within_clamp 0 Rounded.exact ln exp).
  exact_arithmetic.
Defined.

(** X2. In doubles that meet the standard model, the log-odds of a percentage
    stay within [- ln 199, ln 199] up to rounding, whatever the percentage
    (0 and 100 reach the two ends, 50 gives 0), and mirror around 50 up to
    rounding; where rounding and [Math.log] preserve order, the log-odds
    never decrease as the percentage grows. *)
Theorem pctToLogOdds_bounded_monotone_odd :
  forall (err : R) (rnd flog fexp : R -> R),
    Rounded.standardModel err rnd flog fexp ->
    (forall p : R,
        - ln 199 - Spec.tolerance <= Rounded.pctToLogOdds rnd flog p
        <= ln 199 + Spec.tolerance /\
        Spec.close (Rounded.pctToLogOdds rnd flog (100 - p))
                   (- Rounded.pctToLogOdds rnd flog p)) /\
    Spec.close (Rounded.pctToLogOdds rnd flog 0) (- ln 199) /\
    Spec.close (Rounded.pctToLogOdds rnd flog 100) (ln 199) /\
    Spec.close (Rounded.pctToLogOdds rnd flog 50) 0 /\
    (Rounded.monotoneModel rnd flog fexp ->
     forall p q : R,
       p <= q ->
       Rounded.pctToLogOdds rnd flog p <= Rounded.pctToLogOdds rnd flog q).
Proof.
  intros err rnd flog fexp Hstd.
  assert (He : 0 <= err <= 1 / 1000000000000000) by apply Hstd.
  pose proof (pctToLogOdds_rounded err rnd flog fexp Hstd) as HP.
  unfold Spec.close, Spec.tolerance.
  split; [|split; [|split; [|split]]].
  - intros p. pose proof (HP p) as H1. pose proof (HP (100 - p)) as H2.
    pose proof (pctToLogOdds_range p) as Hr.
    pose proof (pctToLogOdds_odd p) as Ho.
    split; [lra|]. apply Rabs_bound. lra.
  - pose proof (HP 0) as H. rewrite pctToLogOdds_0 in H.
    apply Rabs_bound. lra.
  - pose proof (HP 100) as H. rewrite pctToLogOdds_100 in H.
    apply Rabs_bound. lra.
  - pose proof (HP 50) as H. rewrite pctToLogOdds_50 in H.
    apply Rabs_bound. lra.
  - intros Hmono p q. now apply (pctToLogOdds_rounded_monotone err rnd flog fexp).
Qed.

Lemma pctToLogOdds_witness :
  Spec.close (Rounded.pctToLogOdds Rounded.exact ln 50) 0.
Proof.
  apply (pctToLogOdds_bounded_monotone_odd 0 Rounded.exact ln exp).
  exact_arithmetic.
Defined.

(** X3. In doubles that meet the standard model, a log-odds value of
    magnitude up to 700 converts to a percentage between 0 and 100 up to
    rounding; the conversion sends 0 to 50 and mirrors around it up to
    rounding; where rounding and [Math.exp] preserve order, it never
    decreases. *)
Theorem logOddsToPct_range_and_order :
  forall (err : R) (rnd flog fexp : R -> R),
    Rounded.standardModel err rnd flog fexp ->
    (forall a : R,
        - 700 <= a <= 700 ->
        - Spec.tolerance <= Rounded.logOddsToPct rnd fexp a
        <= 100 + Spec.tolerance /\
        Spec.close (Rounded.logOddsToPct rnd fexp (- a))
                   (100 - Rounded.logOddsToPct rnd fexp a)) /\
    Spec.close (Rounded.logOddsToPct rnd fexp 0) 50 /\
    (Rounded.monotoneModel rnd flog fexp ->
     forall a b : R,
       - 700 <= a -> a <= b ->
       Rounded.logOddsToPct rnd fexp a <= Rounded.logOddsToPct rnd fexp b).
Proof.
  intros err rnd flog fexp Hstd.
  assert (He : 0 <= err <= 1 / 1000000000000000) by apply Hstd.
  pose proof (logOddsToPct_rounded err rnd flog fexp Hstd) as HL.
  unfold Spec.close, Spec.tolerance.
  split; [|split].
  - intros a Ha. pose proof (HL a ltac:(lra)) as H1.
    pose proof (HL (- a) ltac:(lra)) as H2.
    pose proof (logOddsToPct_range a) as Hr.
    pose proof (logOddsToPct_mirror a) as Hm.
    split; [lra|]. apply Rabs_bound. lra.
  - pose proof (HL 0 ltac:(lra)) as H.
    assert (E : DraftPage.logOddsToPct 0 = 50).
    { unfold DraftPage.logOddsToPct. cbv zeta. rewrite Ropp_0, exp_0. lra. }
    rewrite E in H. apply Rabs_bound. lra.
  - intros Hmono a b Ha Hab.
    now apply (logOddsToPct_rounded_monotone err rnd flog fexp).
Qed.

Lemma logOddsToPct_witness :
  Spec.close (Rounded.logOddsToPct Rounded.exact exp 0) 50.
Proof.
  apply (logOddsToPct_range_and_order 0 Rounded.exact ln exp).
  exact_arithmetic.
Defined.

(** X4. In doubles that meet the standard model, converting log-odds within
    [- ln 199, ln 199] to a percentage and back gives the log-odds again,
    up to rounding. *)
Theorem logOdds_survive_the_round_trip :
  forall (err : R) (rnd flog fexp : R -> R),
    Rounded.standardModel err rnd flog fexp ->
    forall lo : R,
      - ln 199 <= lo <= ln 199 ->
      Spec.close
        (Rounded.pctToLogOdds rnd flog (Rounded.logOddsToPct rnd fexp lo))
        lo.
Proof.
  intros err rnd flog fexp Hstd lo Hlo.
  assert (He : 0 <= err <= 1 / 1000000000000000) by apply Hstd.
  pose proof (logOdds_back_rounded err rnd flog fexp Hstd lo Hlo) as H.
  unfold Spec.close, Spec.tolerance. apply Rabs_bound. lra.
Qed.

Lemma logOdds_round_trip_witness :
  Spec.close
    (Rounded.pctToLogOdds Rounded.exact ln
                          (Rounded.logOddsToPct Rounded.exact exp 0))
    0.
Proof.
  apply (logOdds_survive_the_round_trip 0 Rounded.exact ln exp).
  - exact_arithmetic.
  - pose proof ln_199_pos. lra.
Defined.

(** ** Scores in doubles *)

Lemma rounded_row err rnd flog fexp data picks r :
  Rounded.standardModel err rnd flog fexp ->
  Spec.draftSlots picks ->
  In r (Rounded.candidateResults rnd flog fexp data picks) ->
  DraftPage.selectedEnemySlugs picks <> [] /\
  exists r0,
    In r0 (DraftPage.candidates data (DraftPage.enemiesOf picks)) /\
    Rounded.within (24000000 * err) r r0.
Proof.
  intros Hstd Hslots Hr. apply In_rounded_results in Hr.
  destruct Hr as [Hs Hr]. split; [assumption|].
  destruct (enemiesOf_slots picks Hslots) as [Hlen Hw].
  pose proof (candidates_rounded err rnd flog fexp Hstd data
                (DraftPage.enemiesOf picks) Hlen Hw) as HF.
  exact (Forall2_In_l _ _ _ _ HF Hr).
Qed.

Lemma exact_row err rnd flog fexp data picks r0 :
  Rounded.standardModel err rnd flog fexp ->
  Spec.draftSlots picks ->
  DraftPage.selectedEnemySlugs picks <> [] ->
  In r0 (DraftPage.candidates data (DraftPage.enemiesOf picks)) ->
  exists r,
    In r (Rounded.candidateResults rnd flog fexp data picks) /\
    Rounded.within (24000000 * err) r r0.
Proof.
  intros Hstd Hslots Hs Hr0.
  destruct (enemiesOf_slots picks Hslots) as [Hlen Hw].
  pose proof (candidates_rounded err rnd flog fexp Hstd data
                (DraftPage.enemiesOf picks) Hlen Hw) as HF.
  destruct (Forall2_In_r _ _ _ _ HF Hr0) as [r [Hr Hrow]].
  exists r. split; [|assumption]. apply In_rounded_results. now split.
Qed.

(** X5. With the five slots at weights of the slider and doubles that meet the
    standard model, every combined score the draft page returns lies
    between 0.5 and 99.5 percent up to rounding; with no negative weight,
    every combined score of the previous module lies between 0 and 100. *)
Theorem combined_scores_are_bounded :
  (forall (err : R) (rnd flog fexp : R -> R),
      Rounded.standardModel err rnd flog fexp ->
      forall (data : DraftPage.Dataset) (picks : list DraftPage.EnemyPick)
             (r : DraftPage.CounterResult),
        Spec.draftSlots picks ->
        In r (Rounded.candidateResults rnd flog fexp data picks) ->
        0.5 - Spec.tolerance <= DraftPage.combined r
        <= 99.5 + Spec.tolerance)
  /\
  (forall (data : Logic.DataV2) (enemies : list Logic.EnemyPick)
          (r : Logic.Result),
      (forall e, In e enemies -> 0 <= Logic.weight e) ->
      In r (Logic.scoreCandidates data enemies) ->
      0 <= Logic.combined r <= 100).
Proof.
  split.
  - intros err rnd flog fexp Hstd data picks r Hslots Hr.
    assert (He : 0 <= err <= 1 / 1000000000000000) by apply Hstd.
    destruct (rounded_row _ _ _ _ _ _ _ Hstd Hslots Hr)
      as (_ & r0 & Hr0 & _ & _ & Hc).
    pose proof (combined_in_clamp_range data picks r0
                  (draftSlots_nonneg picks Hslots) Hr0) as Hb.
    unfold Spec.tolerance. lra.
  - intros data enemies r Hw Hr.
    apply In_scoreCandidates, In_candidatesV2 in Hr.
    destruct Hr as (h & _ & _ & Hpos & ->). simpl.
    set (m := Spec.matchedV2 (Logic.oppMapOf data h) enemies) in *.
    unfold Spec.rawAverage.
    assert (Hb : 0 <= Spec.sumOver
                        (fun p => fst p * Rmax 0 (Rmin 1 (snd p / 100))) m
                      / Spec.matchedWeight m <= 1); [|lra].
    apply div_between; [exact Hpos|].
    apply (sumOver_between (fun wr => Rmax 0 (Rmin 1 (wr / 100)))).
    intros p Hp. split.
    + apply matchedV2_weights in Hp. destruct Hp as (e & He & ->).
      now apply Hw.
    + case_clamp.
Qed.

Lemma combined_scores_witness :
  0.5 - Spec.tolerance <= DraftPage.combined Example.zeusRow
  <= 99.5 + Spec.tolerance.
Proof.
  refine (proj1 combined_scores_are_bounded 0 Rounded.exact ln exp _
                Example.data Example.axeSlots Example.zeusRow _ _).
  - exact_arithmetic.
  - prove_slots.
  - rewrite exact_results, data_results_axeSlots. right. now left.
Defined.

Lemma single_enemy_exact data es s w r0 :
  es = [DraftPage.mkEnemy s w] ->
  In r0 (DraftPage.candidates data es) ->
  exists (oppMap : DraftPage.OppMap) (wr : R),
    In (DraftPage.hero r0, oppMap) (JsObject.entries data) /\
    JsObject.get oppMap s = Some wr /\
    DraftPage.combined r0 = Rmax 0.5 (Rmin 99.5 wr).
Proof.
  intros -> Hr. apply In_candidates in Hr.
  destruct Hr as (h & om & Hin & _ & Hpos & ->). simpl in *.
  destruct (JsObject.get om s) as [wr|] eqn:G;
    [|unfold Spec.matchedWeight in Hpos; simpl in Hpos; lra].
  exists om, wr. repeat split; try assumption.
  unfold Spec.matchedWeight in Hpos. simpl in Hpos.
  rewrite <- roundtrip_percent.
  unfold Spec.combinedScore, Spec.combinedLogOdds, Spec.matchedWeight. simpl.
  rewrite <- logOddsToPct_spec. f_equal.
  rewrite <- pctToLogOdds_spec. field. lra.
Qed.

(** X12. With a single hero selected in the five slots, at a weight of the
    slider, and doubles that meet the standard model, each candidate's
    combined score is, up to rounding, its recorded winrate against that
    hero held within 0.5 and 99.5. *)
Theorem single_enemy_score_is_the_clamped_winrate :
  forall (err : R) (rnd flog fexp : R -> R),
    Rounded.standardModel err rnd flog fexp ->
    forall (data : DraftPage.Dataset) (picks : list DraftPage.EnemyPick)
           (s : string) (w : R) (r : DraftPage.CounterResult),
      Spec.draftSlots picks ->
      DraftPage.enemiesOf picks = [DraftPage.mkEnemy s w] ->
      In r (Rounded.candidateResults rnd flog fexp data picks) ->
      exists (oppMap : DraftPage.OppMap) (wr : R),
        In (DraftPage.hero r, oppMap) (JsObject.entries data) /\
        JsObject.get oppMap s = Some wr /\
        Spec.close (DraftPage.combined r) (Rmax 0.5 (Rmin 99.5 wr)).
Proof.
  intros err rnd flog fexp Hstd data picks s w r Hslots Hes Hr.
  assert (He : 0 <= err <= 1 / 1000000000000000) by apply Hstd.
  destruct (rounded_row _ _ _ _ _ _ _ Hstd Hslots Hr)
    as (_ & r0 & Hr0 & Hh & _ & Hc).
  destruct (single_enemy_exact data _ s w r0 Hes Hr0)
    as (om & wr & Hin & Hget & Hcomb).
  exists om, wr. rewrite Hh. split; [assumption|]. split; [assumption|].
  unfold Spec.close, Spec.tolerance. apply Rabs_bound. lra.
Qed.

Lemma single_enemy_witness :
  exists (oppMap : DraftPage.OppMap) (wr : R),
    In (DraftPage.hero Example.zeusRow, oppMap)
       (JsObject.entries Example.data) /\
    JsObject.get oppMap "axe" = Some wr /\
    Spec.close (DraftPage.combined Example.zeusRow) (Rmax 0.5 (Rmin 99.5 wr)).
Proof.
  refine (single_enemy_score_is_the_clamped_winrate
            0 Rounded.exact ln exp _
            Example.data Example.axeSlots "axe"%string 1 Example.zeusRow
            _ _ _).
  - exact_arithmetic.
  - prove_slots.
  - reflexivity.
  - rewrite exact_results, data_results_axeSlots. right. now left.
Defined.

(** ** Slot order and the scale of the weights, in doubles *)

Lemma draftSlots_perm picks picks' :
  Permutation picks picks' -> Spec.draftSlots picks -> Spec.draftSlots picks'.
Proof.
  intros HP [Hlen Hw]. split.
  - now rewrite <- (Permutation_length HP).
  - intros p Hp. apply Hw. now apply (Permutation_in _ (Permutation_sym HP)).
Qed.

Lemma selectedEnemySlugs_perm picks picks' :
  Permutation picks picks' ->
  DraftPage.selectedEnemySlugs picks <> [] ->
  DraftPage.selectedEnemySlugs picks' <> [].
Proof.
  intros HP Hs Hn.
  assert (Hsl : Permutation (DraftPage.selectedEnemySlugs picks)
                            (DraftPage.selectedEnemySlugs picks')).
  { unfold DraftPage.selectedEnemySlugs.
    now apply Permutation_flat_map, Permutation_map. }
  rewrite Hn in Hsl. apply Permutation_sym, Permutation_nil in Hsl.
  contradiction.
Qed.

Lemma candidates_perm data picks picks' r0 :
  Permutation picks picks' ->
  In r0 (DraftPage.candidates data (DraftPage.enemiesOf picks)) ->
  exists r0',
    In r0' (DraftPage.candidates data (DraftPage.enemiesOf picks')) /\
    DraftPage.hero r0' = DraftPage.hero r0 /\
    DraftPage.combined r0' = DraftPage.combined r0.
Proof.
  intros HP Hr. apply In_candidates in Hr.
  destruct Hr as (h & om & Hin & Hno & Hpos & ->).
  assert (Hm : Permutation (Spec.matched om (DraftPage.enemiesOf picks))
                           (Spec.matched om (DraftPage.enemiesOf picks'))).
  { rewrite !matched_of_picks. now apply Permutation_flat_map. }
  assert (Hh : Permutation (Spec.selectedHeroes picks)
                           (Spec.selectedHeroes picks'))
    by now apply Permutation_flat_map.
  assert (Hw : Spec.matchedWeight (Spec.matched om (DraftPage.enemiesOf picks'))
               = Spec.matchedWeight
                   (Spec.matched om (DraftPage.enemiesOf picks))).
  { unfold Spec.matchedWeight. symmetry. now apply sumOver_perm. }
  eexists. split.
  - apply In_candidates. exists h, om. split; [exact Hin|]. split.
    + rewrite enemiesOf_slugs in *. intros Hc. apply Hno.
      now apply (Permutation_in _ (Permutation_sym Hh)).
    + split; [rewrite Hw; exact Hpos|reflexivity].
  - split; [reflexivity|]. simpl.
    unfold Spec.combinedScore, Spec.combinedLogOdds. rewrite Hw.
    now rewrite (sumOver_perm
                   (fun p => fst p * Spec.logOdds (Spec.clampedProb (snd p)))
                   _ _ Hm).
Qed.

(** X11. With the five slots at weights of the slider and doubles that meet
    the standard model, reordering the slots leaves every hero among the
    results or outside them as before, with its combined score the same
    up to rounding. *)
Theorem reordering_slots_keeps_every_score :
  forall (err : R) (rnd flog fexp : R -> R),
    Rounded.standardModel err rnd flog fexp ->
    forall (data : DraftPage.Dataset)
           (picks picks' : list DraftPage.EnemyPick)
           (r : DraftPage.CounterResult),
      Spec.draftSlots picks ->
      Permutation picks picks' ->
      In r (Rounded.candidateResults rnd flog fexp data picks) ->
      exists r' : DraftPage.CounterResult,
        In r' (Rounded.candidateResults rnd flog fexp data picks') /\
        DraftPage.hero r' = DraftPage.hero r /\
        Spec.close (DraftPage.combined r') (DraftPage.combined r).
Proof.
  intros err rnd flog fexp Hstd data picks picks' r Hslots HP Hr.
  assert (He : 0 <= err <= 1 / 1000000000000000) by apply Hstd.
  destruct (rounded_row _ _ _ _ _ _ _ Hstd Hslots Hr)
    as (Hs & r0 & Hr0 & Hh & _ & Hc).
  destruct (candidates_perm data picks picks' r0 HP Hr0)
    as (r0' & Hr0' & Hh' & Hc').
  destruct (exact_row err rnd flog fexp data picks' r0' Hstd
                      (draftSlots_perm _ _ HP Hslots)
                      (selectedEnemySlugs_perm _ _ HP Hs) Hr0')
    as (r' & Hr' & Hh'' & _ & Hc'').
  exists r'. split; [assumption|]. split; [congruence|].
  unfold Spec.close, Spec.tolerance. apply Rabs_bound. lra.
Qed.

Lemma reordering_witness :
  exists r' : DraftPage.CounterResult,
    In r' (Rounded.candidateResults Rounded.exact ln exp Example.data
                                    Example.axeSecondSlots) /\
    DraftPage.hero r' = DraftPage.hero Example.zeusRow /\
    Spec.close (DraftPage.combined r') (DraftPage.combined Example.zeusRow).
Proof.
  refine (reordering_slots_keeps_every_score
            0 Rounded.exact ln exp _
            Example.data Example.axeSlots Example.axeSecondSlots
            Example.zeusRow _ _ _).
  - exact_arithmetic.
  - prove_slots.
  - apply perm_swap.
  - rewrite exact_results, data_results_axeSlots. right. now left.
Defined.

Lemma candidates_scale data picks c :
  0 < c ->
  DraftPage.candidates data (DraftPage.enemiesOf (Spec.scalePicks c picks))
  = DraftPage.candidates data (DraftPage.enemiesOf picks).
Proof.
  intros Hc. rewrite enemiesOf_scale, !candidates_closed.
  apply flat_map_ext. intros [h om]. apply stepHero_scale. exact Hc.
Qed.

Lemma candidateResults_scale data picks c :
  0 < c ->
  DraftPage.candidateResults data (Spec.scalePicks c picks)
  = DraftPage.candidateResults data picks.
Proof.
  intros Hc. rewrite !candidateResults_unfold.
  rewrite selectedEnemySlugs_scale, candidates_scale by assumption.
  reflexivity.
Qed.

(** X10. Only relative weights matter.  When every weight is multiplied by the
    same positive factor, the weights before and after being weights of
    the slider on the five slots, then in doubles that meet the standard
    model every row of the results has a row for the same hero in the
    results before the change, with the same breakdown and the same
    combined score up to rounding. *)
Theorem scaling_all_weights_changes_nothing :
  forall (err : R) (rnd flog fexp : R -> R),
    Rounded.standardModel err rnd flog fexp ->
    forall (data : DraftPage.Dataset) (picks : list DraftPage.EnemyPick)
           (c : R) (r : DraftPage.CounterResult),
      0 < c ->
      Spec.draftSlots picks ->
      Spec.draftSlots (Spec.scalePicks c picks) ->
      In r (Rounded.candidateResults rnd flog fexp data
                                     (Spec.scalePicks c picks)) ->
      exists r' : DraftPage.CounterResult,
        In r' (Rounded.candidateResults rnd flog fexp data picks) /\
        DraftPage.hero r' = DraftPage.hero r /\
        DraftPage.perEnemy r' = DraftPage.perEnemy r /\
        Spec.close (DraftPage.combined r') (DraftPage.combined r).
Proof.
  intros err rnd flog fexp Hstd data picks c r Hc Hslots Hslots' Hr.
  assert (He : 0 <= err <= 1 / 1000000000000000) by apply Hstd.
  destruct (rounded_row _ _ _ _ _ _ _ Hstd Hslots' Hr)
    as (Hs & r0 & Hr0 & Hh & Hp & Hcomb).
  rewrite candidates_scale in Hr0 by assumption.
  rewrite selectedEnemySlugs_scale in Hs.
  destruct (exact_row err rnd flog fexp data picks r0 Hstd Hslots Hs Hr0)
    as (r' & Hr' & Hh' & Hp' & Hcomb').
  exists r'. split; [assumption|]. split; [congruence|].
  split; [congruence|].
  unfold Spec.close, Spec.tolerance. apply Rabs_bound. lra.
Qed.

Lemma data_results_axeHalfSlots :
  DraftPage.candidateResults Example.data Example.axeHalfSlots
  = [Example.jugRow; Example.zeusRow].
Proof.
  rewrite candidateResults_unfold.
  assert (E : DraftPage.candidates Example.data
                                   (DraftPage.enemiesOf Example.axeHalfSlots)
              = [Example.jugRow; Example.zeusRow])
    by (run_program; rewrite !score_single by lra; reflexivity).
  rewrite E. run_program. reflexivity.
Qed.

Lemma scaling_witness :
  exists r' : DraftPage.CounterResult,
    In r' (Rounded.candidateResults Rounded.exact ln exp Example.data
                                    Example.axeHalfSlots) /\
    DraftPage.hero r' = DraftPage.hero Example.zeusRow /\
    DraftPage.perEnemy r' = DraftPage.perEnemy Example.zeusRow /\
    Spec.close (DraftPage.combined r') (DraftPage.combined Example.zeusRow).
Proof.
  refine (scaling_all_weights_changes_nothing
            0 Rounded.exact ln exp _
            Example.data Example.axeHalfSlots 2 Example.zeusRow _ _ _ _).
  - exact_arithmetic.
  - lra.
  - prove_slots.
  - prove_slots.
  - rewrite exact_results, candidateResults_scale by lra.
    rewrite data_results_axeHalfSlots. right. now left.
Defined.
